(** * Stdio-to-HTTP bridge (src/http-bridge.ts): model and verification

    The bridge reads line-delimited JSON from stdin, forwards every line as
    an HTTP POST, decodes the response body (plain JSON or an SSE stream)
    and writes every decoded event to stdout.  It is a single-threaded,
    event-driven Node program: all code runs inside event callbacks
    (stdin 'data' / 'end', the response callback, response 'data' / 'end',
    request 'error'), and every callback runs to completion, together with
    the promise continuation it wakes up, before the next one starts.

    Layout:
    - [JS]: the string and array primitives of the platform the source
      calls ([split], [trim], [startsWith], [slice], [includes], [pop]);
    - [JSON]: JSON values, ToBoolean on them, and a parser;
    - [Bridge]: the module state, the functions of http-bridge.ts in a small
      state / output / halt monad, and the event loop as a step function
      over the callbacks, parametrised by the platform's [JSON.parse] and
      [JSON.stringify];
    - [Platform]: an instance of these two, to run the bridge on samples;
    - [Spec], [Invariants], [Sample]: the vocabulary of the statements, the
      invariants of the event loop, and sample inputs;
    - [History]: what a run has done, read off its events;
    - [Wallet]: the wallet file of src/wallet-json.ts on a file system, and
      the lock of [updateWallet] as a scheduler of its calls;
    - [Tools]: the tool table and [handleToolCall] of src/index.ts against
      an arbitrary keymaster;
    - then the lemmas and, last, the theorems on the behaviour of the
      bridge, of the wallet file and of the tool handler.

    What the model takes from the platform:
    - a callback and the continuation of [processLine] resumed by the
      [resolve] or [reject] in it run without another callback in between
      (Node drains the microtask queue after each callback);
    - an HTTP call gets its response callback at most once, then the data
      and the end of the response.  The ['error'] listener of the request
      and the ['end'] listener of the response are registered
      independently: each runs at most once, and both can run for one
      call, in either order.  Once the response has begun the connection
      can also be lost with neither of them running (the source listens
      for no ['aborted'], ['close'] or ['error'] of the response), and a
      call may stay open for ever;
    - a promise is settled by the first [resolve] or [reject]; later ones
      do nothing, and [processLine] is resumed once;
    - stdin delivers chunks until it ends, once;
    - the process ends by [process.exit], by an exception nobody catches
      (status 1), or, with status 0, when the event loop has nothing left
      to wait for: stdin has ended and no connection is open; signals and
      failing writes to stdout or stderr are outside the model;
    - before any callback runs the module body writes its banner on
      stderr;
    - [JSON.parse] returns a value or throws a SyntaxError; [JSON.stringify]
      returns a string on every value [JSON.parse] returns. *)

From Stdlib Require Import ZArith NArith List Bool String Ascii Lia.
From stdpp Require Import gmap.
Import ListNotations.

Local Open Scope N_scope.

(** A JavaScript string is a sequence of UTF-16 code units. *)
Abbreviation jsstring := (list N).

(* ===================================================================== *)
(** ** Platform primitives *)
(* ===================================================================== *)

Module JS.

(** An ASCII literal as a JavaScript string. *)
Definition str (s : string) : jsstring :=
  map N_of_ascii (list_ascii_of_string s).

(** An ASCII literal in which the apostrophe stands for the double quote. *)
Definition text (s : string) : jsstring :=
  map (fun c => if c =? 39 then 34 else c) (str s).

(** ToBoolean on a string: only the empty string is falsy. *)
Definition truthy (s : jsstring) : bool :=
  match s with [] => false | _ :: _ => true end.

(** The code units [String.prototype.trim] removes: ECMAScript WhiteSpace
    (TAB, VT, FF, SP, NBSP, ZWNBSP and the Unicode space separators) and
    LineTerminator (LF, CR, LS, PS). *)
Definition whitespace : list N :=
  [9; 10; 11; 12; 13; 32; 160; 5760;
   8192; 8193; 8194; 8195; 8196; 8197; 8198; 8199; 8200; 8201; 8202;
   8232; 8233; 8239; 8287; 12288; 65279].

Definition is_ws (c : N) : bool := existsb (N.eqb c) whitespace.

Fixpoint trimStart (s : jsstring) : jsstring :=
  match s with
  | [] => []
  | c :: r => if is_ws c then trimStart r else s
  end.

Definition trimEnd (s : jsstring) : jsstring := rev (trimStart (rev s)).

(** [s.trim()] *)
Definition trim (s : jsstring) : jsstring := trimEnd (trimStart s).

(** [s.split(sep)] for a separator of one code unit (the source only splits
    on the newline).  The result is never empty: the empty string splits
    into one empty segment. *)
Fixpoint split (sep : N) (s : jsstring) : list jsstring :=
  match s with
  | [] => [[]]
  | c :: r =>
      if c =? sep then [] :: split sep r
      else match split sep r with
           | seg :: segs => (c :: seg) :: segs
           | [] => [[c]]
           end
  end.

(** [s.startsWith(prefix)] *)
Fixpoint startsWith (prefix s : jsstring) : bool :=
  match prefix, s with
  | [], _ => true
  | _ :: _, [] => false
  | p :: ps, c :: cs => (c =? p) && startsWith ps cs
  end.

(** [s.slice(n)] for a non-negative [n]: the suffix from index [n], empty
    when the string is shorter. *)
Definition slice (n : nat) (s : jsstring) : jsstring := drop n s.

(** [s.includes(needle)] *)
Fixpoint includes (needle s : jsstring) : bool :=
  startsWith needle s ||
  match s with
  | [] => false
  | _ :: r => includes needle r
  end.

(** [a.pop()]: removes the last element and returns it ([undefined], here
    [None], on an empty array) together with the shortened array. *)
Definition pop {A} (a : list A) : option A * list A :=
  (last a, removelast a).

(** [x || ''] for [x] a string or [undefined]. *)
Definition or_empty (x : option jsstring) : jsstring :=
  match x with
  | Some s => if truthy s then s else []
  | None => []
  end.

Definition LF : N := 10.

(** [segs.join(sep)] for a separator of one code unit. *)
Fixpoint join (sep : N) (segs : list jsstring) : jsstring :=
  match segs with
  | [] => []
  | [seg] => seg
  | seg :: segs' => seg ++ sep :: join sep segs'
  end.

End JS.

(* ===================================================================== *)
(** ** JSON values and [JSON.parse] *)
(* ===================================================================== *)

Module JSON.

#[local] Set Warnings "-register-all".

(** The values [JSON.parse] can return.  A number is kept as the exact
    decimal its literal denotes, [(-1)^neg * mant * 10^exp10]; the
    JavaScript value is that real rounded to a binary64 double.  An object
    is its list of own properties in enumeration order. *)
Inductive json : Type :=
| JNull
| JBool (b : bool)
| JNumber (neg : bool) (mant : N) (exp10 : Z)
| JString (s : jsstring)
| JArray (elements : list json)
| JObject (members : list (jsstring * json)).

(** Does the decimal [mant * 10^exp10] round (to nearest, ties to even) to
    the double zero?  That is the case when it is zero or at most half the
    smallest subnormal, 2^-1075. *)
Definition rounds_to_zero (mant : N) (exp10 : Z) : bool :=
  (mant =? 0) ||
  ((exp10 <? 0)%Z && (Z.of_N mant * 2 ^ 1075 <=? 10 ^ (- exp10))%Z).

(** ToBoolean: [null], [false], [+0], [-0] and the empty string are falsy,
    every other JSON value (all arrays and objects included) is truthy. *)
Definition truthy (v : json) : bool :=
  match v with
  | JNull => false
  | JBool b => b
  | JNumber _ mant exp10 => negb (rounds_to_zero mant exp10)
  | JString s => JS.truthy s
  | JArray _ => true
  | JObject _ => true
  end.

(** *** Lexical helpers *)

Definition is_json_ws (c : N) : bool :=
  (c =? 32) || (c =? 9) || (c =? 10) || (c =? 13).

Fixpoint skip_ws (s : jsstring) : jsstring :=
  match s with
  | [] => []
  | c :: r => if is_json_ws c then skip_ws r else s
  end.

Definition is_digit (c : N) : bool := (48 <=? c) && (c <=? 57).

Definition digit_val (c : N) : N := c - 48.

(** The longest prefix of digits, and the rest. *)
Fixpoint span_digits (s : jsstring) : jsstring * jsstring :=
  match s with
  | [] => ([], [])
  | c :: r =>
      if is_digit c
      then let '(ds, rest) := span_digits r in (c :: ds, rest)
      else ([], s)
  end.

Definition digits_val (ds : jsstring) : N :=
  fold_left (fun acc c => 10 * acc + digit_val c) ds 0.

Definition hex_val (c : N) : option N :=
  if is_digit c then Some (c - 48)
  else if (65 <=? c) && (c <=? 70) then Some (c - 55)
  else if (97 <=? c) && (c <=? 102) then Some (c - 87)
  else None.

Definition hex4 (a b c d : N) : option N :=
  match hex_val a, hex_val b, hex_val c, hex_val d with
  | Some a, Some b, Some c, Some d => Some (((a * 16 + b) * 16 + c) * 16 + d)
  | _, _, _, _ => None
  end.

(** The code unit a one-letter escape denotes. *)
Definition escape (c : N) : option N :=
  if c =? 34 then Some 34          (* quote *)
  else if c =? 92 then Some 92     (* backslash *)
  else if c =? 47 then Some 47     (* slash *)
  else if c =? 98 then Some 8      (* b: backspace *)
  else if c =? 102 then Some 12    (* f: form feed *)
  else if c =? 110 then Some 10    (* n: line feed *)
  else if c =? 114 then Some 13    (* r: carriage return *)
  else if c =? 116 then Some 9     (* t: tab *)
  else None.

(** The characters of a string literal after its opening quote, up to and
    including the closing quote.  [acc] holds the decoded code units so far,
    last first. *)
Fixpoint parse_chars (s : jsstring) (acc : jsstring) : option (jsstring * jsstring) :=
  match s with
  | [] => None
  | c :: r =>
      if c =? 34 then Some (rev acc, r)
      else if c =? 92 then
        match r with
        | [] => None
        | e :: r1 =>
            if e =? 117 then                       (* u and four hex digits *)
              match r1 with
              | h1 :: h2 :: h3 :: h4 :: r2 =>
                  match hex4 h1 h2 h3 h4 with
                  | Some u => parse_chars r2 (u :: acc)
                  | None => None
                  end
              | _ => None
              end
            else
              match escape e with
              | Some u => parse_chars r1 (u :: acc)
              | None => None
              end
        end
      else if c <? 32 then None
      else parse_chars r (c :: acc)
  end.

(** The digits of the integer part: a single 0, or a non-empty run of
    digits that does not start with 0. *)
Definition parse_int_part (s : jsstring) : option (jsstring * jsstring) :=
  match span_digits s with
  | ([], _) => None
  | (d :: ds, rest) =>
      if (d =? 48) && JS.truthy ds then None else Some (d :: ds, rest)
  end.

(** An optional fraction: a dot followed by at least one digit. *)
Definition parse_frac (s : jsstring) : option (jsstring * jsstring) :=
  match s with
  | c :: r =>
      if c =? 46 then
        match span_digits r with
        | ([], _) => None
        | (ds, rest) => Some (ds, rest)
        end
      else Some ([], s)
  | [] => Some ([], s)
  end.

Definition parse_exp_digits (sign : Z) (s : jsstring) : option (Z * jsstring) :=
  match span_digits s with
  | ([], _) => None
  | (ds, rest) => Some ((sign * Z.of_N (digits_val ds))%Z, rest)
  end.

(** An optional exponent: e or E, an optional sign, at least one digit. *)
Definition parse_exp (s : jsstring) : option (Z * jsstring) :=
  match s with
  | c :: r =>
      if (c =? 101) || (c =? 69) then
        match r with
        | c1 :: r1 =>
            if c1 =? 43 then parse_exp_digits 1 r1
            else if c1 =? 45 then parse_exp_digits (-1) r1
            else parse_exp_digits 1 r
        | [] => None
        end
      else Some (0%Z, s)
  | [] => Some (0%Z, s)
  end.

(** The number whose first character (or whose first character after the
    minus sign) starts [s]; [neg] tells whether a minus sign was read. *)
Definition parse_unsigned (neg : bool) (s : jsstring) : option (json * jsstring) :=
  match parse_int_part s with
  | None => None
  | Some (ip, s2) =>
      match parse_frac s2 with
      | None => None
      | Some (fp, s3) =>
          match parse_exp s3 with
          | None => None
          | Some (e, s4) =>
              Some (JNumber neg (digits_val (ip ++ fp))
                            (e - Z.of_nat (length fp)), s4)
          end
      end
  end.

Definition parse_number (s : jsstring) : option (json * jsstring) :=
  match s with
  | c :: r => if c =? 45 then parse_unsigned true r else parse_unsigned false s
  | [] => None
  end.

(** [true], [false], [null] *)
Definition parse_literal (s : jsstring) : option (json * jsstring) :=
  if JS.startsWith [116; 114; 117; 101] s then Some (JBool true, drop 4 s)
  else if JS.startsWith [102; 97; 108; 115; 101] s then Some (JBool false, drop 5 s)
  else if JS.startsWith [110; 117; 108; 108] s then Some (JNull, drop 4 s)
  else None.

(** *** Objects

    [JSON.parse] defines the properties of an object one by one in source
    order.  A key defined twice keeps its place and takes the later value;
    keys that are array indices (canonical decimal numerals below 2^32 - 1)
    are enumerated first, in ascending order, the others after them in the
    order they were first defined. *)

Fixpoint string_eqb (a b : jsstring) : bool :=
  match a, b with
  | [], [] => true
  | x :: a', y :: b' => (x =? y) && string_eqb a' b'
  | _, _ => false
  end.

Definition array_index (key : jsstring) : option N :=
  match key with
  | [] => None
  | d :: ds =>
      if forallb is_digit key && negb ((d =? 48) && JS.truthy ds)
         && (length key <=? 10)%nat && (digits_val key <? 4294967295)
      then Some (digits_val key) else None
  end.

Fixpoint replace_property (key : jsstring) (v : json)
    (members : list (jsstring * json)) : option (list (jsstring * json)) :=
  match members with
  | [] => None
  | (k, w) :: rest =>
      if string_eqb k key then Some ((k, v) :: rest)
      else match replace_property key v rest with
           | Some rest' => Some ((k, w) :: rest')
           | None => None
           end
  end.

Fixpoint insert_index (i : N) (key : jsstring) (v : json)
    (members : list (jsstring * json)) : list (jsstring * json) :=
  match members with
  | [] => [(key, v)]
  | (k, w) :: rest =>
      match array_index k with
      | Some j => if j <? i then (k, w) :: insert_index i key v rest
                  else (key, v) :: members
      | None => (key, v) :: members
      end
  end.

Definition define_property (key : jsstring) (v : json)
    (members : list (jsstring * json)) : list (jsstring * json) :=
  match replace_property key v members with
  | Some members' => members'
  | None =>
      match array_index key with
      | Some i => insert_index i key v members
      | None => members ++ [(key, v)]
      end
  end.

(** *** The recursive-descent parser

    [parse_value fuel s] reads one value at the start of [s], after optional
    whitespace, and returns it with the rest of the input.  The fuel bounds
    the depth of the calls; twice the number of characters read is enough
    (lemma [parse_fuel] below). *)
Fixpoint parse_value (fuel : nat) (s : jsstring) : option (json * jsstring) :=
  match fuel with
  | O => None
  | S fuel =>
      match skip_ws s with
      | [] => None
      | c :: r =>
          if c =? 123 then                                   (* { *)
            match skip_ws r with
            | c1 :: r1 =>
                if c1 =? 125 then Some (JObject [], r1)
                else parse_members fuel (c1 :: r1) []
            | [] => None
            end
          else if c =? 91 then                               (* [ *)
            match skip_ws r with
            | c1 :: r1 =>
                if c1 =? 93 then Some (JArray [], r1)
                else parse_elements fuel (c1 :: r1) []
            | [] => None
            end
          else if c =? 34 then                               (* string *)
            match parse_chars r [] with
            | Some (str, rest) => Some (JString str, rest)
            | None => None
            end
          else if (c =? 45) || is_digit c then parse_number (c :: r)
          else parse_literal (c :: r)
      end
  end

(** The elements of an array after its opening bracket, up to and including
    the closing bracket; [acc] holds the elements read so far, last first. *)
with parse_elements (fuel : nat) (s : jsstring) (acc : list json)
    : option (json * jsstring) :=
  match fuel with
  | O => None
  | S fuel =>
      match parse_value fuel s with
      | None => None
      | Some (v, rest) =>
          match skip_ws rest with
          | c :: r =>
              if c =? 44 then parse_elements fuel r (v :: acc)
              else if c =? 93 then Some (JArray (rev (v :: acc)), r)
              else None
          | [] => None
          end
      end
  end

(** The members of an object after its opening brace, up to and including
    the closing brace; [acc] holds the properties defined so far. *)
with parse_members (fuel : nat) (s : jsstring) (acc : list (jsstring * json))
    : option (json * jsstring) :=
  match fuel with
  | O => None
  | S fuel =>
      match skip_ws s with
      | c :: r =>
          if c =? 34 then
            match parse_chars r [] with
            | None => None
            | Some (key, rest) =>
                match skip_ws rest with
                | c1 :: r1 =>
                    if c1 =? 58 then                         (* : *)
                      match parse_value fuel r1 with
                      | None => None
                      | Some (v, rest1) =>
                          let acc' := define_property key v acc in
                          match skip_ws rest1 with
                          | c2 :: r2 =>
                              if c2 =? 44 then parse_members fuel r2 acc'
                              else if c2 =? 125 then Some (JObject acc', r2)
                              else None
                          | [] => None
                          end
                      end
                    else None
                | [] => None
                end
            end
          else None
      | [] => None
      end
  end.

(** [JSON.parse(text)] without a reviver: [Some v] for the value the text
    denotes, [None] where the platform throws a SyntaxError.  No amount of
    fuel parses a text this rejects (lemma [parse_fuel_enough]). *)
Definition parse (text : jsstring) : option json :=
  match parse_value (2 * length text + 2) text with
  | Some (v, rest) =>
      match skip_ws rest with
      | [] => Some v
      | _ :: _ => None
      end
  | None => None
  end.

End JSON.

(* ===================================================================== *)
(** ** The bridge *)
(* ===================================================================== *)

Module Bridge.
Import JSON.

(** *** Exceptions

    Of an exception the program only reads the message
    ([error instanceof Error ? error.message : String(error)]; the
    SyntaxError of [JSON.parse] and the errors of the HTTP client are all
    [Error] objects). *)
Record Error : Type := { message : jsstring }.

Inductive completion (A : Type) : Type :=
| Normal (a : A)
| Throw (e : Error).
Arguments Normal {A} a.
Arguments Throw {A} e.

(** [try { c } catch (e) { h e }] *)
Definition try_catch {A} (c : completion A) (h : Error -> completion A) : completion A :=
  match c with
  | Normal a => Normal a
  | Throw e => h e
  end.

(** *** The outside world *)

(** A value of [res.headers[name]]: [string | string[] | undefined]. *)
Inductive HeaderValue : Type :=
| HUndefined
| HString (s : jsstring)
| HArray (l : list jsstring).

(** The two response headers the bridge reads; [content-type] is a
    [string | undefined]. *)
Record IncomingHeaders : Type := {
  mcp_session_id : HeaderValue;
  content_type : option jsstring
}.

(** The callbacks the event loop runs.  [id] names the HTTP call (the
    [ClientRequest] object) the callback belongs to. *)
Inductive Event : Type :=
| StdinData (chunk : jsstring)               (* process.stdin 'data' *)
| StdinEnd                                   (* process.stdin 'end' *)
| Response (id : nat) (headers : IncomingHeaders)  (* callback of client.request *)
| ResData (id : nat) (chunk : jsstring)      (* res 'data' *)
| ResEnd (id : nat)                          (* res 'end' *)
| ReqError (id : nat) (err : Error)          (* req 'error' *)
| Close (id : nat)       (* the connection of a call is gone ('aborted',
                            'close'): nothing listens to that *)
| LoopEmpty.             (* nothing is left to wait for: Node ends the
                            process, with status 0 *)

(** What the program does to the outside world. *)
Inductive Effect : Type :=
| HttpRequest (id : nat) (headers : list (jsstring * jsstring)) (body : jsstring)
    (* client.request({..., method: 'POST', headers}, callback);
       req.write(body); req.end() *)
| StdoutWrite (text : jsstring)
| StderrWrite (text : jsstring)
| Exit (code : Z).

(** *** Module state *)

(** An HTTP call whose connection is open.  While its promise is pending:
    before the response callback ran, or after it, with the variables
    [contentType] and [body] its closure holds.  Once its promise is
    settled: rejected by the ['error'] listener, with the closure of the
    response if the response callback ran, or resolved by the ['end']
    listener.  The other of the two listeners can still run; after both the
    call is forgotten. *)
Inductive Call : Type :=
| Sent
| Receiving (contentType body : jsstring)
| Failed (closure : option (jsstring * jsstring))
| Ended.

Record State : Type := {
  sessionId : option jsstring;        (* let sessionId: string | null = null *)
  pendingRequests : Z;                (* let pendingRequests = 0 *)
  stdinClosed : bool;                 (* let stdinClosed = false *)
  buffer : jsstring;                  (* let buffer = '' *)
  calls : gmap nat Call;              (* the calls with an open connection *)
  nextCall : nat;                     (* the name of the next call *)
  exitCode : option Z                 (* set once the process has exited *)
}.

Definition init : State := {|
  sessionId := None;
  pendingRequests := 0;
  stdinClosed := false;
  buffer := [];
  calls := ∅;
  nextCall := 0;
  exitCode := None
|}.

Definition set_sessionId (v : option jsstring) (s : State) : State :=
  {| sessionId := v; pendingRequests := pendingRequests s;
     stdinClosed := stdinClosed s; buffer := buffer s; calls := calls s;
     nextCall := nextCall s; exitCode := exitCode s |}.

Definition set_pendingRequests (v : Z) (s : State) : State :=
  {| sessionId := sessionId s; pendingRequests := v;
     stdinClosed := stdinClosed s; buffer := buffer s; calls := calls s;
     nextCall := nextCall s; exitCode := exitCode s |}.

Definition set_stdinClosed (v : bool) (s : State) : State :=
  {| sessionId := sessionId s; pendingRequests := pendingRequests s;
     stdinClosed := v; buffer := buffer s; calls := calls s;
     nextCall := nextCall s; exitCode := exitCode s |}.

Definition set_buffer (v : jsstring) (s : State) : State :=
  {| sessionId := sessionId s; pendingRequests := pendingRequests s;
     stdinClosed := stdinClosed s; buffer := v; calls := calls s;
     nextCall := nextCall s; exitCode := exitCode s |}.

Definition set_calls (v : gmap nat Call) (s : State) : State :=
  {| sessionId := sessionId s; pendingRequests := pendingRequests s;
     stdinClosed := stdinClosed s; buffer := buffer s; calls := v;
     nextCall := nextCall s; exitCode := exitCode s |}.

Definition set_nextCall (v : nat) (s : State) : State :=
  {| sessionId := sessionId s; pendingRequests := pendingRequests s;
     stdinClosed := stdinClosed s; buffer := buffer s; calls := calls s;
     nextCall := v; exitCode := exitCode s |}.

Definition set_exitCode (v : option Z) (s : State) : State :=
  {| sessionId := sessionId s; pendingRequests := pendingRequests s;
     stdinClosed := stdinClosed s; buffer := buffer s; calls := calls s;
     nextCall := nextCall s; exitCode := v |}.

(** *** The monad of callbacks

    A computation reads and writes the module state, appends to the list of
    effects, and either returns or halts the process ([process.exit]), after
    which nothing that follows it runs. *)
Definition M (A : Type) : Type := State -> option A * State * list Effect.

Definition ret {A} (a : A) : M A := fun s => (Some a, s, []).

Definition bind {A B} (m : M A) (k : A -> M B) : M B :=
  fun s =>
    match m s with
    | (Some a, s1, out1) =>
        let '(r, s2, out2) := k a s1 in (r, s2, out1 ++ out2)
    | (None, s1, out1) => (None, s1, out1)
    end.

#[local] Notation "x <- m ;; k" := (bind m (fun x => k))
  (at level 100, m at next level, right associativity).
#[local] Notation "m >> k" := (bind m (fun _ => k))
  (at level 100, k at level 200, right associativity).

Definition get : M State := fun s => (Some s, s, []).
Definition modify (f : State -> State) : M unit := fun s => (Some tt, f s, []).
Definition emit (e : Effect) : M unit := fun s => (Some tt, s, [e]).

(** [process.exit(code)] *)
Definition process_exit {A} (code : Z) : M A :=
  fun s => (None, set_exitCode (Some code) s, [Exit code]).

(** An exception no handler catches: Node reports it and exits with
    status 1. *)
Definition uncaught {A} (e : Error) : M A := process_exit 1.

(** The event loop has nothing left to wait for: the process ends, with
    status 0. *)
Definition loop_empty : M unit :=
  fun s => (None, set_exitCode (Some 0%Z) s, [Exit 0]).

(** [for (const x of l) f(x)] *)
Fixpoint for_of {A} (l : list A) (f : A -> M unit) : M unit :=
  match l with
  | [] => ret tt
  | x :: l' => f x >> for_of l' f
  end.

Definition data_prefix : jsstring := Eval cbv in JS.str "data: ".
Definition text_event_stream : jsstring := Eval cbv in JS.str "text/event-stream".
Definition error_prefix : jsstring := Eval cbv in JS.str "Error: ".
Definition banner_prefix : jsstring := Eval cbv in JS.str "Archon MCP Bridge - ".
Definition request_headers : list (jsstring * jsstring) := Eval cbv in
  [(JS.str "Content-Type", JS.str "application/json");
   (JS.str "Accept", JS.str "application/json, text/event-stream")].
Definition Mcp_Session_Id : jsstring := Eval cbv in JS.str "Mcp-Session-Id".

Section Program.

(** The platform's [JSON.parse] and [JSON.stringify], and the configured
    endpoint.  [JSON.parse] either returns a value or throws. *)
Variable JSON_parse : jsstring -> completion json.
Variable JSON_stringify : json -> jsstring.
Variable MCP_URL : jsstring.

(** <<
function parseSSE(data: string): any[] {
  const events: any[] = [];
  for (const line of data.split('\n')) {
    if (line.startsWith('data: ')) {
      try { events.push(JSON.parse(line.slice(6))); } catch {}
    }
  }
  return events;
}
>> *)
Definition parseSSE_line (events : list json) (line : jsstring) : completion (list json) :=
  if JS.startsWith data_prefix line then
    try_catch
      (match JSON_parse (JS.slice 6 line) with
       | Normal v => Normal (events ++ [v])
       | Throw e => Throw e
       end)
      (fun _ => Normal events)
  else Normal events.

Fixpoint parseSSE_loop (lines : list jsstring) (events : list json) : completion (list json) :=
  match lines with
  | [] => Normal events
  | line :: lines' =>
      match parseSSE_line events line with
      | Normal events' => parseSSE_loop lines' events'
      | Throw e => Throw e
      end
  end.

Definition parseSSE (data : jsstring) : completion (list json) :=
  parseSSE_loop (JS.split JS.LF data) [].

(** <<
function checkExit() {
  if (stdinClosed && pendingRequests === 0) { process.exit(0); }
}
>> *)
Definition checkExit : M unit :=
  s <- get ;;
  if stdinClosed s && (pendingRequests s =? 0)%Z then process_exit 0 else ret tt.

(** The part of [sendRequest] that runs when it is called: the headers are
    built from the current [sessionId], the counter is incremented and the
    request is handed to the HTTP client.  The promise it returns is settled
    by [res_on_end] or [req_on_error] below. *)
Definition sendRequest (data : json) : M nat :=
  s <- get ;;
  let headers :=
    request_headers ++
    match sessionId s with
    | Some sid => if JS.truthy sid then [(Mcp_Session_Id, sid)] else []
    | None => []
    end in
  modify (fun s => set_pendingRequests (pendingRequests s + 1) s) >>
  let id := nextCall s in
  modify (fun s => set_nextCall (S id) (set_calls (<[id := Sent]> (calls s)) s)) >>
  emit (HttpRequest id headers (JSON_stringify data)) >>
  ret id.

(** The response callback of [sendRequest] (source lines 57-66). *)
Definition on_response (id : nat) (headers : IncomingHeaders) : M unit :=
  (match mcp_session_id headers with
   | HString newSessionId =>
       if JS.truthy newSessionId
       then modify (set_sessionId (Some newSessionId))
       else ret tt
   | HUndefined | HArray _ => ret tt
   end) >>
  let contentType := JS.or_empty (content_type headers) in
  modify (fun s =>
    match calls s !! id with
    | Some (Failed _) =>
        set_calls (<[id := Failed (Some (contentType, []))]> (calls s)) s
    | _ => set_calls (<[id := Receiving contentType []]> (calls s)) s
    end).

(** [res.on('data', chunk => body += chunk)] *)
Definition res_on_data (id : nat) (chunk : jsstring) : M unit :=
  modify (fun s =>
    match calls s !! id with
    | Some (Receiving contentType body) =>
        set_calls (<[id := Receiving contentType (body ++ chunk)]> (calls s)) s
    | Some (Failed (Some (contentType, body))) =>
        set_calls (<[id := Failed (Some (contentType, body ++ chunk))]> (calls s)) s
    | _ => s
    end).

(** What the ['end'] listener passes to [resolve] (source lines 70-83), as
    a function of the closure's [contentType] and [body]. *)
Definition decode (contentType body : jsstring) : completion (list json) :=
  if negb (JS.truthy (JS.trim body)) then Normal []
  else if JS.includes text_event_stream contentType then parseSSE body
  else
    try_catch
      (match JSON_parse body with
       | Normal v => Normal [v]
       | Throw e => Throw e
       end)
      (fun _ => Normal []).

(** The [catch] and [finally] blocks of [processLine]. *)
Definition processLine_catch (error : Error) : M unit :=
  emit (StderrWrite (error_prefix ++ message error ++ [JS.LF])).

Definition processLine_finally : M unit := checkExit.

(** [processLine] from the [await] on: the promise of [sendRequest] was
    resolved with [responses] or rejected with an error. *)
Definition processLine_resume (settled : completion (list json)) : M unit :=
  (match settled with
   | Normal responses =>
       for_of responses (fun response =>
         if JSON.truthy response
         then emit (StdoutWrite (JSON_stringify response ++ [JS.LF]))
         else ret tt)
   | Throw error => processLine_catch error
   end) >>
  processLine_finally.

(** [processLine] up to the [await]: a blank line returns at once, a line
    that is not JSON goes through [catch] and [finally], and a request is
    sent and the function suspended until its promise is settled. *)
Definition processLine (line : jsstring) : M unit :=
  if negb (JS.truthy (JS.trim line)) then ret tt
  else
    match JSON_parse line with
    | Normal request => _ <- sendRequest request ;; ret tt
    | Throw error => processLine_catch error >> processLine_finally
    end.

(** The ['end'] listener of the response (source lines 67-84): it
    decrements the counter and resolves the promise.  When the promise is
    pending, the continuation of [processLine] runs next; when the
    ['error'] listener has already rejected it, [resolve] does nothing. *)
Definition res_on_end (id : nat) : M unit :=
  modify (fun s => set_pendingRequests (pendingRequests s - 1) s) >>
  s <- get ;;
  match calls s !! id with
  | Some (Receiving contentType body) =>
      match decode contentType body with
      | Normal events =>
          modify (fun s => set_calls (<[id := Ended]> (calls s)) s) >>
          processLine_resume (Normal events)
      | Throw e => uncaught e
      end
  | Some (Failed (Some (contentType, body))) =>
      match decode contentType body with
      | Normal _ => modify (fun s => set_calls (delete id (calls s)) s)
      | Throw e => uncaught e
      end
  | _ => ret tt
  end.

(** The ['error'] listener of the request (source lines 87-90): it
    decrements the counter and rejects the promise.  When the promise is
    pending, the continuation of [processLine] runs next; when the ['end']
    listener has already resolved it, [reject] does nothing. *)
Definition req_on_error (id : nat) (err : Error) : M unit :=
  modify (fun s => set_pendingRequests (pendingRequests s - 1) s) >>
  s <- get ;;
  match calls s !! id with
  | Some Sent =>
      modify (fun s => set_calls (<[id := Failed None]> (calls s)) s) >>
      processLine_resume (Throw err)
  | Some (Receiving contentType body) =>
      modify (fun s =>
        set_calls (<[id := Failed (Some (contentType, body))]> (calls s)) s) >>
      processLine_resume (Throw err)
  | Some Ended => modify (fun s => set_calls (delete id (calls s)) s)
  | _ => ret tt
  end.

(** <<
process.stdin.on('data', (chunk: string) => {
  buffer += chunk;
  const lines = buffer.split('\n');
  buffer = lines.pop() || '';
  for (const line of lines) { processLine(line); }
});
>> *)
Definition stdin_on_data (chunk : jsstring) : M unit :=
  modify (fun s => set_buffer (buffer s ++ chunk) s) >>
  s <- get ;;
  let '(popped, lines) := JS.pop (JS.split JS.LF (buffer s)) in
  modify (set_buffer (JS.or_empty popped)) >>
  for_of lines processLine.

(** <<
process.stdin.on('end', () => {
  if (buffer.trim()) { processLine(buffer); }
  stdinClosed = true;
  checkExit();
});
>> *)
Definition stdin_on_end : M unit :=
  s <- get ;;
  (if JS.truthy (JS.trim (buffer s)) then processLine (buffer s) else ret tt) >>
  modify (set_stdinClosed true) >>
  checkExit.

(** Start-up (source line 117): the banner on stderr. *)
Definition startup : list Effect :=
  [StderrWrite (banner_prefix ++ MCP_URL ++ [JS.LF])].

(** *** The event loop *)

Definition handle (e : Event) : M unit :=
  match e with
  | StdinData chunk => stdin_on_data chunk
  | StdinEnd => stdin_on_end
  | Response id headers => on_response id headers
  | ResData id chunk => res_on_data id chunk
  | ResEnd id => res_on_end id
  | ReqError id err => req_on_error id err
  | Close id => modify (fun s => set_calls (delete id (calls s)) s)
  | LoopEmpty => loop_empty
  end.

(** What can happen in a state: nothing once the process has ended.  Stdin
    delivers data and its end only until it has ended.  The listeners of a
    call are independent of each other: the response callback runs at most
    once, the data and the end of the response come after it, the end at
    most once; the ['error'] listener runs at most once, before, between or
    after them.  A connection that is lost before the response has begun
    is an error of the request; once the response has begun, or the
    request has failed, it can go without any listener running.  A call may
    also stay open for ever.  The event loop is empty when stdin has ended
    and no connection is open. *)
Definition enabled (s : State) (e : Event) : bool :=
  match exitCode s with
  | Some _ => false
  | None =>
      match e with
      | StdinData _ | StdinEnd => negb (stdinClosed s)
      | Response id _ =>
          match calls s !! id with
          | Some Sent | Some (Failed None) => true
          | _ => false
          end
      | ResData id _ | ResEnd id =>
          match calls s !! id with
          | Some (Receiving _ _) | Some (Failed (Some _)) => true
          | _ => false
          end
      | ReqError id _ =>
          match calls s !! id with
          | Some Sent | Some (Receiving _ _) | Some Ended => true
          | _ => false
          end
      | Close id =>
          match calls s !! id with
          | Some (Receiving _ _) | Some (Failed _) | Some Ended => true
          | _ => false
          end
      | LoopEmpty => stdinClosed s && Nat.eqb (size (calls s)) 0
      end
  end.

Definition step (s : State) (e : Event) : option (State * list Effect) :=
  if enabled s e
  then let '(_, s', out) := handle e s in Some (s', out)
  else None.

(** The events in the order the event loop delivers them, from a state on;
    [None] when an event cannot occur where it stands. *)
Fixpoint run (s : State) (events : list Event) : option (State * list Effect) :=
  match events with
  | [] => Some (s, [])
  | e :: events' =>
      match step s e with
      | None => None
      | Some (s1, out1) =>
          match run s1 events' with
          | None => None
          | Some (s2, out2) => Some (s2, out1 ++ out2)
          end
      end
  end.

(** An execution of the program: the module body runs (it writes the
    banner and registers the stdin listeners), then the event loop
    delivers the events.  [MCP_URL] is an address [new URL] accepts; on
    another one the module body throws at its second statement and nothing
    of what is modelled here runs. *)
Definition execution (events : list Event) : option (State * list Effect) :=
  match run init events with
  | Some (s, out) => Some (s, startup ++ out)
  | None => None
  end.

End Program.

End Bridge.

(* ===================================================================== *)
(** ** An instance of the platform functions

    The theorems below hold for every [JSON_parse] and [JSON_stringify].
    To run the bridge on concrete input, [JSON_parse] is instantiated with
    the parser of [JSON] (the text of the SyntaxError is the engine's own
    and is replaced by a fixed one), and [JSON_stringify] with a serializer
    of the values whose numbers are integers below 2^53 written without
    fraction and exponent. *)
(* ===================================================================== *)

Module Platform.
Import JSON Bridge.

Definition syntax_error_message : jsstring :=
  Eval cbv in JS.str "Unexpected token in JSON".

Definition syntax_error : Error := {| message := syntax_error_message |}.

Definition JSON_parse (text : jsstring) : completion json :=
  match JSON.parse text with
  | Some v => Normal v
  | None => Throw syntax_error
  end.

Fixpoint uint_codes (d : Decimal.uint) : jsstring :=
  match d with
  | Decimal.Nil => []
  | Decimal.D0 d => 48 :: uint_codes d
  | Decimal.D1 d => 49 :: uint_codes d
  | Decimal.D2 d => 50 :: uint_codes d
  | Decimal.D3 d => 51 :: uint_codes d
  | Decimal.D4 d => 52 :: uint_codes d
  | Decimal.D5 d => 53 :: uint_codes d
  | Decimal.D6 d => 54 :: uint_codes d
  | Decimal.D7 d => 55 :: uint_codes d
  | Decimal.D8 d => 56 :: uint_codes d
  | Decimal.D9 d => 57 :: uint_codes d
  end.

Definition decimal (n : N) : jsstring := uint_codes (N.to_uint n).

Definition hex_digit (n : N) : N := if n <? 10 then 48 + n else 87 + n.

Definition quote_char (c : N) : jsstring :=
  if c =? 34 then [92; 34]
  else if c =? 92 then [92; 92]
  else if c =? 8 then [92; 98]
  else if c =? 12 then [92; 102]
  else if c =? 10 then [92; 110]
  else if c =? 13 then [92; 114]
  else if c =? 9 then [92; 116]
  else if c <? 32 then [92; 117; 48; 48; hex_digit (c / 16); hex_digit (c mod 16)]
  else [c].

(** A string without surrogate code units, quoted. *)
Definition quote (s : jsstring) : option jsstring :=
  if forallb (fun c => (c <? 55296) || ((57343 <? c) && (c <? 65536))) s
  then Some (34 :: flat_map quote_char s ++ [34])
  else None.

Definition stringify_number (neg : bool) (mant : N) (exp10 : Z) : option jsstring :=
  if (exp10 =? 0)%Z && (mant <? 2 ^ 53) then
    Some ((if neg && negb (mant =? 0) then [45] else []) ++ decimal mant)
  else None.

Definition sep_by (sep : N) (parts : list jsstring) : jsstring := JS.join sep parts.

Fixpoint stringify (v : json) : option jsstring :=
  match v with
  | JNull => Some [110; 117; 108; 108]
  | JBool true => Some [116; 114; 117; 101]
  | JBool false => Some [102; 97; 108; 115; 101]
  | JNumber neg mant exp10 => stringify_number neg mant exp10
  | JString s => quote s
  | JArray elements =>
      let fix all (l : list json) : option (list jsstring) :=
        match l with
        | [] => Some []
        | x :: l' =>
            match stringify x, all l' with
            | Some sx, Some sl => Some (sx :: sl)
            | _, _ => None
            end
        end in
      match all elements with
      | Some parts => Some (91 :: sep_by 44 parts ++ [93])
      | None => None
      end
  | JObject members =>
      let fix all (l : list (jsstring * json)) : option (list jsstring) :=
        match l with
        | [] => Some []
        | (k, x) :: l' =>
            match quote k, stringify x, all l' with
            | Some sk, Some sx, Some sl => Some ((sk ++ 58 :: sx) :: sl)
            | _, _, _ => None
            end
        end in
      match all members with
      | Some parts => Some (123 :: sep_by 44 parts ++ [125])
      | None => None
      end
  end.

Definition JSON_stringify (v : json) : jsstring :=
  match stringify v with
  | Some text => text
  | None => []
  end.

End Platform.

(* ===================================================================== *)
(** ** Specification-level definitions *)
(* ===================================================================== *)

Module Spec.
Import JS JSON Bridge.

(** *** Line framing *)

(** A string of white space only (the empty string included). *)
Definition is_blank (s : jsstring) : bool := forallb is_ws s.

(** A string in which the newline does not occur. *)
Definition no_newline (s : jsstring) : bool := negb (existsb (N.eqb LF) s).

(** The text made of the given lines, each terminated by a newline. *)
Definition unlines (lines : list jsstring) : jsstring :=
  flat_map (fun l => l ++ [LF]) lines.

(** The lines the stdin listeners pass to [processLine], in order, when the
    chunks arrive one by one and the input then ends; [buffer] is the
    variable of that name. *)
Fixpoint framer_run (buffer : jsstring) (chunks : list jsstring) : list jsstring :=
  match chunks with
  | [] => if JS.truthy (trim buffer) then [buffer] else []
  | chunk :: chunks' =>
      let '(popped, lines) := pop (split LF (buffer ++ chunk)) in
      lines ++ framer_run (or_empty popped) chunks'
  end.

(** The lines among them that get past the blank-line check of
    [processLine]. *)
Definition dispatched (chunks : list jsstring) : list jsstring :=
  List.filter (fun l => JS.truthy (trim l)) (framer_run [] chunks).

(** *** Response decoding *)

Section Decoder.
Variable JSON_parse : jsstring -> completion json.

(** The events of an event-stream body, as the specification words it: of
    the lines of the body, those that begin with the prefix, the prefix
    stripped, parsed; those that do not parse are left out. *)
Definition sse_events (body : jsstring) : list json :=
  flat_map
    (fun line =>
       if startsWith data_prefix line then
         match JSON_parse (drop (length data_prefix) line) with
         | Normal v => [v]
         | Throw _ => []
         end
       else [])
    (split LF body).

(** The events of a body in another encoding. *)
Definition json_events (body : jsstring) : list json :=
  match JSON_parse body with
  | Normal v => [v]
  | Throw _ => []
  end.

(** The events of a response: none for a blank body, else by encoding. *)
Definition decoded (contentType body : jsstring) : list json :=
  if is_blank body then []
  else if includes text_event_stream contentType then sse_events body
  else json_events body.

End Decoder.

(** *** Output *)

Section Writer.
Variable JSON_stringify : json -> jsstring.

Definition output_line (v : json) : Effect :=
  StdoutWrite (JSON_stringify v ++ [LF]).

(** The writes the program makes for a sequence of events: one line per
    truthy event. *)
Definition written (events : list json) : list Effect :=
  map output_line (List.filter JSON.truthy events).

Definition is_null (v : json) : bool :=
  match v with JNull => true | _ => false end.

(** The writes of a writer that skips null only: one line per event that
    is not null. *)
Definition written_non_null (events : list json) : list Effect :=
  map output_line (List.filter (fun v => negb (is_null v)) events).

End Writer.

(** *** Session token *)

(** The value a response supplies for the token: its [mcp-session-id]
    header when that is a non-empty string. *)
Definition supplied_token (headers : IncomingHeaders) : option jsstring :=
  match mcp_session_id headers with
  | HString v => if JS.truthy v then Some v else None
  | HUndefined | HArray _ => None
  end.

(** The last value the responses of a run supplied, [token] if none did. *)
Fixpoint last_token (token : option jsstring) (events : list Event) : option jsstring :=
  match events with
  | [] => token
  | Response _ headers :: events' =>
      last_token (match supplied_token headers with
                  | Some v => Some v
                  | None => token
                  end) events'
  | _ :: events' => last_token token events'
  end.

(** The same with every string value of the header counted, the empty one
    too. *)
Definition header_value (headers : IncomingHeaders) : option jsstring :=
  match mcp_session_id headers with
  | HString v => Some v
  | HUndefined | HArray _ => None
  end.

Fixpoint last_header_value (token : option jsstring) (events : list Event) : option jsstring :=
  match events with
  | [] => token
  | Response _ headers :: events' =>
      last_header_value (match header_value headers with
                         | Some v => Some v
                         | None => token
                         end) events'
  | _ :: events' => last_header_value token events'
  end.

(** The headers of a request sent while the token is [token]. *)
Definition headers_with (token : option jsstring) : list (jsstring * jsstring) :=
  match token with
  | Some v => request_headers ++ [(Mcp_Session_Id, v)]
  | None => request_headers
  end.

(** *** Counting calls *)

Definition request_id (e : Effect) : option nat :=
  match e with
  | HttpRequest id _ _ => Some id
  | _ => None
  end.

(** The calls issued by a list of effects, in order. *)
Definition issued (out : list Effect) : list nat := omap request_id out.

Definition request_headers_of (e : Effect) : option (list (jsstring * jsstring)) :=
  match e with
  | HttpRequest _ headers _ => Some headers
  | _ => None
  end.

Definition completion_id (e : Event) : option nat :=
  match e with
  | ResEnd id | ReqError id _ => Some id
  | _ => None
  end.

(** The calls whose ['end'] or ['error'] listener a list of events runs,
    in order: one entry for every decrement of the counter. *)
Definition completed (events : list Event) : list nat := omap completion_id events.

Definition is_stdout (e : Effect) : bool :=
  match e with StdoutWrite _ => true | _ => false end.

Definition is_stderr (e : Effect) : bool :=
  match e with StderrWrite _ => true | _ => false end.

Definition is_exit (e : Effect) : bool :=
  match e with Exit _ => true | _ => false end.

End Spec.


(* ===================================================================== *)
(** ** Invariants of the event loop *)
(* ===================================================================== *)

Module Invariants.
Import JS JSON Bridge Spec.

(** The state [sendRequest] leaves. *)
Definition sent (s : State) : State :=
  set_nextCall (S (nextCall s))
    (set_calls (<[nextCall s := Sent]> (calls s))
       (set_pendingRequests (pendingRequests s + 1) s)).

(** The headers [sendRequest] builds when [sessionId] is [token]. *)
Definition sent_headers (token : option jsstring) : list (jsstring * jsstring) :=
  request_headers ++
  match token with
  | Some sid => if JS.truthy sid then [(Mcp_Session_Id, sid)] else []
  | None => []
  end.

(** Every call on record has a name below the next one. *)
Definition wf (s : State) : Prop :=
  forall id, is_Some (calls s !! id) -> (id < nextCall s)%nat.

(** What a stretch of [processLine] calls does while stdin is open: it
    sends requests under consecutive fresh names, all with the headers of
    the current token, and may write diagnostics; nothing else changes. *)
Record dispatches (s s' : State) (out : list Effect) : Prop := {
  d_closed : stdinClosed s' = stdinClosed s;
  d_exit : exitCode s' = exitCode s;
  d_buffer : buffer s' = buffer s;
  d_session : sessionId s' = sessionId s;
  d_next : nextCall s' = (nextCall s + length (issued out))%nat;
  d_issued : issued out = seq (nextCall s) (length (issued out));
  d_calls : forall id,
      calls s' !! id =
      if decide (nextCall s <= id < nextCall s')%nat then Some Sent
      else calls s !! id;
  d_pending :
      pendingRequests s' = (pendingRequests s + Z.of_nat (length (issued out)))%Z;
  d_effects :
      Forall (fun e => is_exit e = false /\ is_stdout e = false /\
                       forall hs, request_headers_of e = Some hs ->
                                  hs = sent_headers (sessionId s)) out;
  d_wf : wf s -> wf s'
}.

(** The state with the counter decremented, and with the record of a call
    replaced or dropped. *)
Definition decremented (s : State) : State :=
  set_pendingRequests (pendingRequests s - 1) s.

Definition with_call (id : nat) (c : Call) (s : State) : State :=
  set_calls (<[id := c]> (calls s)) s.

Definition without_call (id : nat) (s : State) : State :=
  set_calls (delete id (calls s)) s.

(** The call a pending call becomes when its request fails. *)
Definition rejected (c : Call) : Call :=
  match c with
  | Receiving contentType body => Failed (Some (contentType, body))
  | _ => Failed None
  end.

(** The state and the effect [checkExit] leaves. *)
Definition finish (s : State) : State * list Effect :=
  if stdinClosed s && (pendingRequests s =? 0)%Z
  then (set_exitCode (Some 0%Z) s, [Exit 0])
  else (s, []).

(** The invariant of a run in which the last token supplied is [token]; the
    state is [s] and the effects so far are [out]: the requests were sent
    under consecutive names, the token is the one last supplied, and the
    process has ended, with status 0, exactly when its end is among the
    effects. *)
Record Invariant (token : option jsstring)
    (s : State) (out : list Effect) : Prop := {
  inv_wf : wf s;
  inv_issued : issued out = seq 0 (nextCall s);
  inv_session : sessionId s = token;
  inv_exited : forall c, exitCode s = Some c -> c = 0%Z;
  inv_exit_effect : forall c, In (Exit c) out <-> exitCode s = Some c
}.

(** The value of [buffer] after the chunks have been framed. *)
Fixpoint final_buffer (buffer : jsstring) (chunks : list jsstring) : jsstring :=
  match chunks with
  | [] => buffer
  | chunk :: chunks' =>
      final_buffer (or_empty (fst (pop (split LF (buffer ++ chunk))))) chunks'
  end.

(** The result of a computation with [buffer] overwritten. *)
Definition with_buffer {A} (b : jsstring) (r : option A * State * list Effect)
    : option A * State * list Effect :=
  let '(a, s, out) := r in (a, set_buffer b s, out).

(** A computation that neither reads nor writes [buffer]. *)
Definition buffer_blind {A} (m : M A) : Prop :=
  forall b s, m (set_buffer b s) = with_buffer b (m s).

(** The state and the effects of a computation. *)
Definition exec {A} (m : M A) (s : State) : State * list Effect :=
  let '(_, s', out) := m s in (s', out).

Definition Inv (events : list Event) (s : State) (out : list Effect) : Prop :=
  Invariant (last_token None events) s out.

End Invariants.

(* ===================================================================== *)
(** ** Sample inputs *)
(* ===================================================================== *)

Module Sample.
Import JS JSON Bridge Spec.

Definition json_response (token : HeaderValue) : IncomingHeaders :=
  {| mcp_session_id := token;
     content_type := Some (str "application/json") |}.

Definition sse_response (token : HeaderValue) : IncomingHeaders :=
  {| mcp_session_id := token;
     content_type := Some (str "text/event-stream") |}.

(** The event-stream body of the specification's example. *)
Definition sse_body : jsstring :=
  unlines [text "data: {'a':1}"; text "data: not-json"; text "data: {'b':2}"].

Definition sse_body_events : list json :=
  [JObject [(str "a", JNumber false 1 0)]; JObject [(str "b", JNumber false 2 0)]].

(** One request, answered; then stdin ends. *)
Definition one_request : list Event :=
  [StdinData (unlines [text "{'id':1}"]);
   Response 0 (json_response (HString (str "S1")));
   ResData 0 (text "{'ok':true}");
   ResEnd 0;
   StdinEnd].

(** Two requests sent before either response arrives. *)
Definition two_requests : list Event :=
  [StdinData (unlines [text "{'id':1}"]);
   StdinData (unlines [text "{'id':2}"])].

(** Stdin then ends, the second call is answered first and the first one
    fails. *)
Definition two_requests_drained : list Event :=
  two_requests ++
  [StdinEnd;
   Response 1 (json_response HUndefined);
   ResData 1 (text "{'id':2,'result':[]}");
   ResEnd 1;
   ReqError 0 {| message := str "socket hang up" |}].

(** One request whose response starts and whose connection is then lost
    without an ['end'] of the response and without an ['error'] of the
    request; stdin ends, and nothing is left for the event loop to do. *)
Definition aborted_run : list Event :=
  [StdinData (unlines [text "{'id':1}"]);
   Response 0 (json_response HUndefined);
   Close 0;
   StdinEnd;
   LoopEmpty].

(** One request whose ['error'] listener runs while the response is being
    received, and whose response then ends all the same. *)
Definition failed_then_ended : list Event :=
  [StdinData (unlines [text "{'id':1}"]);
   Response 0 (json_response HUndefined);
   ReqError 0 {| message := str "read ECONNRESET" |};
   ResData 0 (text "{'ok':true}");
   ResEnd 0].


(** Two requests, both in flight at once; both connections are lost after
    the responses started; stdin ends. *)
Definition two_aborted : list Event :=
  two_requests ++
  [Response 0 (json_response HUndefined);
   Response 1 (json_response HUndefined);
   Close 0;
   Close 1;
   StdinEnd;
   LoopEmpty].

(** An event stream with falsy events. *)
Definition falsy_body : jsstring :=
  unlines [text "data: 0"; text "data: false"; text "data: ''";
           text "data: null"; text "data: {'ok':true}"].

Definition falsy_run : list Event :=
  [StdinData (unlines [text "{'id':1}"]);
   Response 0 (sse_response HUndefined);
   ResData 0 falsy_body].

(** A state in which call 0 has received [falsy_body]. *)
Definition receiving_falsy : State :=
  set_calls {[ 0%nat := Receiving (str "text/event-stream") falsy_body ]}
    (set_nextCall 1 (set_pendingRequests 1 init)).

(** A response with a session token, then one whose session header is
    empty, then a third request. *)
Definition empty_token_run : list Event :=
  [StdinData (unlines [text "{'id':1}"; text "{'id':2}"]);
   Response 0 (json_response (HString (str "S1")));
   Response 1 (json_response (HString []))].

Definition third_request : Event := StdinData (unlines [text "{'id':3}"]).

(** A line that is not JSON. *)
Definition bad_line : jsstring := text "{bad".

(** The endpoint the source falls back to. *)
Definition endpoint : jsstring := str "https://archon.technology/mcp".

(** The same input cut into chunks in two ways. *)
Definition chunks_a : list jsstring :=
  [text "{'id':1}"; [LF] ++ text "{'id'"; text ":2}" ++ [LF] ++ text "  "].

Definition chunks_b : list jsstring :=
  [text "{'id':1}" ++ [LF] ++ text "{'id':2}" ++ [LF] ++ text "  "].

End Sample.

(* ===================================================================== *)
(** ** The history of a run *)
(* ===================================================================== *)

Module History.
Import JS JSON Bridge Spec.

(** The headers the response callback of call [id] received, if it ran. *)
Fixpoint response_of (id : nat) (events : list Event) : option IncomingHeaders :=
  match events with
  | [] => None
  | Response id' headers :: events' =>
      if Nat.eqb id id' then Some headers else response_of id events'
  | _ :: events' => response_of id events'
  end.

(** The content type the closure of call [id] holds: that header, or the
    empty string. *)
Definition contentType_of (id : nat) (events : list Event) : jsstring :=
  match response_of id events with
  | Some headers => or_empty (content_type headers)
  | None => []
  end.

(** The chunks of the response of call [id], one after the other. *)
Fixpoint body_of (id : nat) (events : list Event) : jsstring :=
  match events with
  | [] => []
  | ResData id' chunk :: events' =>
      if Nat.eqb id id' then chunk ++ body_of id events' else body_of id events'
  | _ :: events' => body_of id events'
  end.

(** Whether the ['error'] listener of the request of call [id] has run,
    and whether the ['end'] listener of its response has.  The promise of
    the call is settled by the first of the two. *)
Definition is_error_of (id : nat) (e : Event) : bool :=
  match e with ReqError id' _ => Nat.eqb id id' | _ => false end.

Definition is_end_of (id : nat) (e : Event) : bool :=
  match e with ResEnd id' => Nat.eqb id id' | _ => false end.

Definition errored (id : nat) (events : list Event) : bool :=
  existsb (is_error_of id) events.

Definition ended (id : nat) (events : list Event) : bool :=
  existsb (is_end_of id) events.

(** The chunks stdin delivered, in order, and whether it has ended. *)
Definition stdin_chunk (e : Event) : option jsstring :=
  match e with
  | StdinData chunk => Some chunk
  | _ => None
  end.

Definition stdin_chunks (events : list Event) : list jsstring :=
  omap stdin_chunk events.

Definition is_stdin_end (e : Event) : bool :=
  match e with StdinEnd => true | _ => false end.

Definition stdin_ended (events : list Event) : bool := existsb is_stdin_end events.

(** The lines the ['data'] listener passes to [processLine] for the chunks,
    starting from [buffer]. *)
Fixpoint framer_feed (buffer : jsstring) (chunks : list jsstring) : list jsstring :=
  match chunks with
  | [] => []
  | chunk :: chunks' =>
      let '(popped, lines) := pop (split LF (buffer ++ chunk)) in
      lines ++ framer_feed (or_empty popped) chunks'
  end.

(** The lines passed to [processLine] in a run: those of the chunks, and
    the last buffer once stdin has ended. *)
Definition lines_read (events : list Event) : list jsstring :=
  if stdin_ended events
  then framer_run [] (stdin_chunks events)
  else framer_feed [] (stdin_chunks events).

Definition request_body (e : Effect) : option jsstring :=
  match e with
  | HttpRequest _ _ body => Some body
  | _ => None
  end.

Section Functions.
Variable JSON_parse : jsstring -> completion json.
Variable JSON_stringify : json -> jsstring.

(** The body of the request a line is forwarded as, if it is. *)
Definition forwarded (line : jsstring) : option jsstring :=
  if JS.truthy (trim line) then
    match JSON_parse line with
    | Normal request => Some (JSON_stringify request)
    | Throw _ => None
    end
  else None.

(** What a run writes on stdout, read off its events: at the end of each
    response whose request has not failed before, the lines of the events
    decoded from the content type and the chunks that call has received.
    [past] are the events before. *)
Fixpoint stdout_of (past events : list Event) : list Effect :=
  match events with
  | [] => []
  | e :: events' =>
      match e with
      | ResEnd id =>
          if errored id past then []
          else written JSON_stringify
                 (decoded JSON_parse (contentType_of id past) (body_of id past))
      | _ => []
      end ++ stdout_of (past ++ [e]) events'
  end.

(** The diagnostic a line gets, if it gets one. *)
Definition diagnostic (line : jsstring) : option jsstring :=
  if JS.truthy (trim line) then
    match JSON_parse line with
    | Normal _ => None
    | Throw e => Some (error_prefix ++ message e ++ [LF])
    end
  else None.


End Functions.


(** The call an event of a request or of its response belongs to. *)
Definition call_of (e : Event) : option nat :=
  match e with
  | Response id _ | ResData id _ | ResEnd id | ReqError id _ => Some id
  | _ => None
  end.

(** What the record of each call holds, in terms of the events delivered
    so far. *)
Definition Closure (events : list Event) (id : nat) (c : option Call) : Prop :=
  match c with
  | Some Sent =>
      response_of id events = None /\ body_of id events = [] /\
      errored id events = false /\ ended id events = false
  | Some (Receiving contentType body) =>
      contentType = contentType_of id events /\ body = body_of id events /\
      errored id events = false /\ ended id events = false
  | Some (Failed None) =>
      response_of id events = None /\ body_of id events = [] /\
      errored id events = true
  | Some (Failed (Some (contentType, body))) =>
      contentType = contentType_of id events /\ body = body_of id events /\
      errored id events = true
  | Some Ended => ended id events = true /\ errored id events = false
  | None => True
  end.

Record Closures (events : list Event) (s : State) : Prop := {
  h_call : forall id, Closure events id (calls s !! id);
  h_fresh : forall id,
      (nextCall s <= id)%nat ->
      response_of id events = None /\ body_of id events = [] /\
      errored id events = false /\ ended id events = false
}.

End History.

(* ===================================================================== *)
(** ** File-based wallet storage (src/wallet-json.ts) *)
(* ===================================================================== *)

Module Wallet.
Import JS JSON.

(** *** The file system

    A path is its list of segments, all relative to one directory that
    exists (the working directory, or the root for absolute paths) and
    normalised (no [.] and [..]), so that [path.join] is concatenation; the
    empty list is that directory itself.  The file system maps the paths
    that exist to a file with its content or to a directory; it is meant to
    be well formed (what a path that exists lies in is a directory), which
    no statement below needs to assume.  A file holds the text written to
    it (the texts written here are outputs of [JSON.stringify], which UTF-8
    encodes and decodes without loss).  Permissions and full disks are
    outside the model. *)
Abbreviation path := (list jsstring).

Inductive node : Type :=
| File (content : jsstring)
| Dir.

Inductive errno : Type := ENOENT | ENOTDIR | EISDIR | EEXIST.

(** What can be thrown: an error of the file system, or an error thrown by
    [JSON.parse] or by a mutator. *)
Inductive exn : Type :=
| FsError (code : errno) (p : path)
| Thrown (e : Bridge.Error).

Inductive outcome (A : Type) : Type :=
| Ok (a : A)
| Raise (e : exn).
Arguments Ok {A} a.
Arguments Raise {A} e.

Definition stat (f : gmap path node) (p : path) : option node :=
  match p with
  | [] => Some Dir
  | _ :: _ => f !! p
  end.

(** [path.join(a, b)] *)
Definition join (a b : path) : path := a ++ b.

(** [fs.existsSync(p)] *)
Definition existsSync (p : path) (f : gmap path node) : bool :=
  match stat f p with
  | Some _ => true
  | None => false
  end.

(** [fs.mkdirSync(p, { recursive: true })]: the directories on the way to
    [p] that are missing are created; a file on the way is an error. *)
Fixpoint mkdir_from (base : path) (segments : list jsstring) (f : gmap path node)
    : outcome (gmap path node) :=
  match segments with
  | [] => Ok f
  | segment :: rest =>
      let q := base ++ [segment] in
      match f !! q with
      | Some (File _) =>
          Raise (FsError (match rest with [] => EEXIST | _ :: _ => ENOTDIR end) q)
      | Some Dir => mkdir_from q rest f
      | None => mkdir_from q rest (<[q := Dir]> f)
      end
  end.

Definition mkdirSync (p : path) (f : gmap path node) : outcome (gmap path node) :=
  mkdir_from [] p f.

(** [fs.writeFileSync(p, content)]: the directory of [p] must exist, and
    [p] must not be a directory. *)
Definition writeFileSync (p : path) (content : jsstring) (f : gmap path node)
    : outcome (gmap path node) :=
  match stat f p with
  | Some Dir => Raise (FsError EISDIR p)
  | _ =>
      match stat f (removelast p) with
      | Some Dir => Ok (<[p := File content]> f)
      | Some (File _) => Raise (FsError ENOTDIR p)
      | None => Raise (FsError ENOENT p)
      end
  end.

(** [fs.readFileSync(p, 'utf-8')] *)
Definition readFileSync (p : path) (f : gmap path node) : outcome jsstring :=
  match stat f p with
  | Some (File content) => Ok content
  | Some Dir => Raise (FsError EISDIR p)
  | None => Raise (FsError ENOENT p)
  end.

(** *** The class *)

(** The fields [dataFolder] and [walletName] of a [WalletJson]. *)
Record WalletJson : Type := {
  dataFolder : path;
  walletName : path
}.

Definition default_walletFileName : path := [JS.str "wallet.json"].
Definition default_dataFolder : path := [JS.str "data"].

(** [new WalletJson(walletFileName, dataFolder)]; an argument left out is
    [None]. *)
Definition constructor (walletFileName dataFolder : option path) : WalletJson :=
  let walletFileName := default default_walletFileName walletFileName in
  let dataFolder := default default_dataFolder dataFolder in
  {| dataFolder := dataFolder;
     walletName := join dataFolder walletFileName |}.

(** A method reads and writes the file system and returns or throws. *)
Definition IO (A : Type) : Type := gmap path node -> outcome A * gmap path node.

Section Methods.

(** [JSON.parse], and [JSON.stringify(value, null, 4)]. *)
Variable JSON_parse : jsstring -> Bridge.completion json.
Variable JSON_stringify4 : json -> jsstring.

Variable this : WalletJson.

(** <<
async saveWallet(wallet: StoredWallet, overwrite = false): Promise<boolean> {
  if (fs.existsSync(this.walletName) && !overwrite) { return false; }
  if (!fs.existsSync(this.dataFolder)) {
    fs.mkdirSync(this.dataFolder, { recursive: true });
  }
  fs.writeFileSync(this.walletName, JSON.stringify(wallet, null, 4));
  return true;
}
>> *)
Definition saveWallet (wallet : json) (overwrite : bool) : IO bool :=
  fun f =>
    if existsSync (walletName this) f && negb overwrite then (Ok false, f)
    else
      match (if negb (existsSync (dataFolder this) f)
             then mkdirSync (dataFolder this) f
             else Ok f) with
      | Raise e => (Raise e, f)
      | Ok f1 =>
          match writeFileSync (walletName this) (JSON_stringify4 wallet) f1 with
          | Raise e => (Raise e, f1)
          | Ok f2 => (Ok true, f2)
          end
      end.

(** <<
async loadWallet(): Promise<StoredWallet | null> {
  if (!fs.existsSync(this.walletName)) { return null; }
  const walletJson = fs.readFileSync(this.walletName, 'utf-8');
  return JSON.parse(walletJson);
}
>> *)
Definition loadWallet : IO json :=
  fun f =>
    if negb (existsSync (walletName this) f) then (Ok JNull, f)
    else
      match readFileSync (walletName this) f with
      | Raise e => (Raise e, f)
      | Ok walletJson =>
          match JSON_parse walletJson with
          | Bridge.Normal wallet => (Ok wallet, f)
          | Bridge.Throw e => (Raise (Thrown e), f)
          end
      end.

(** The [try] block of [updateWallet], run without interruption.  The
    mutator changes the wallet object it is given, or throws. *)
Definition update (mutator : json -> outcome json) : IO unit :=
  fun f =>
    match loadWallet f with
    | (Raise e, f1) => (Raise e, f1)
    | (Ok wallet, f1) =>
        if JSON.truthy wallet then
          match mutator wallet with
          | Raise e => (Raise e, f1)
          | Ok wallet' =>
              match saveWallet wallet' true f1 with
              | (Raise e, f2) => (Raise e, f2)
              | (Ok _, f2) => (Ok tt, f2)
              end
          end
        else (Ok tt, f1)
    end.

(** *** [updateWallet] and its lock

    Promises are named by numbers.  [_lock] holds the promise the next
    call will wait for; [resolved] are the promises that have been
    resolved.  A call of [updateWallet] runs up to its first [await] when it
    is made and is then resumed at each [await], at any later time and in
    any order with the other calls.  The wallet file is touched by these
    calls only, and a mutator settles on its own (it does not wait for
    another call of [updateWallet]).
<<
async updateWallet(mutator): Promise<void> {
  const release = this._lock;
  let resolve: () => void;
  this._lock = new Promise(r => { resolve = r; });
  await release;                                   // Waiting
  try {
    const wallet = await this.loadWallet();        // Loaded
    if (wallet) {
      await mutator(wallet);                       // Mutating
      await this.saveWallet(wallet, true);         // Saved
    }
  } finally {
    resolve!();
  }
}                                                  // Done
>> *)
Inductive phase : Type :=
| Waiting
| Loaded (r : outcome json)
| Mutating (wallet : json)
| Saved (r : outcome bool)
| Done (r : outcome unit).

Record Task : Type := {
  release : nat;
  mine : nat;
  mutator : json -> outcome json;
  at_phase : phase
}.

Record Store : Type := {
  files : gmap path node;
  _lock : nat;
  resolved : list nat;
  nextPromise : nat;
  tasks : list Task
}.

(** [private _lock: Promise<void> = Promise.resolve()] *)
Definition start (f : gmap path node) : Store :=
  {| files := f; _lock := 0; resolved := [0%nat]; nextPromise := 1; tasks := [] |}.

Inductive Event : Type :=
| Call (mutator : json -> outcome json)   (* updateWallet(mutator) is called *)
| Resume (i : nat).                       (* the i-th call is resumed at its await *)

Definition set_phase (t : Task) (p : phase) : Task :=
  {| release := release t; mine := mine t; mutator := mutator t; at_phase := p |}.

Definition is_resolved (p : nat) (st : Store) : bool :=
  existsb (Nat.eqb p) (resolved st).

(** The call leaves the [try] block: [finally] resolves its promise. *)
Definition finish (i : nat) (t : Task) (r : outcome unit) (f : gmap path node)
    (st : Store) : Store :=
  {| files := f; _lock := _lock st; resolved := mine t :: resolved st;
     nextPromise := nextPromise st;
     tasks := <[i := set_phase t (Done r)]> (tasks st) |}.

(** The call is suspended again, at its next [await]. *)
Definition suspend (i : nat) (t : Task) (p : phase) (f : gmap path node)
    (st : Store) : Store :=
  {| files := f; _lock := _lock st; resolved := resolved st;
     nextPromise := nextPromise st;
     tasks := <[i := set_phase t p]> (tasks st) |}.

Definition step (st : Store) (e : Event) : option Store :=
  match e with
  | Call m =>
      Some {| files := files st;
              _lock := nextPromise st;
              resolved := resolved st;
              nextPromise := S (nextPromise st);
              tasks := tasks st ++ [{| release := _lock st; mine := nextPromise st;
                                       mutator := m; at_phase := Waiting |}] |}
  | Resume i =>
      match tasks st !! i with
      | None => None
      | Some t =>
          match at_phase t with
          | Waiting =>
              if is_resolved (release t) st then
                let '(r, f) := loadWallet (files st) in
                Some (suspend i t (Loaded r) f st)
              else None
          | Loaded (Raise e) => Some (finish i t (Raise e) (files st) st)
          | Loaded (Ok wallet) =>
              if JSON.truthy wallet
              then Some (suspend i t (Mutating wallet) (files st) st)
              else Some (finish i t (Ok tt) (files st) st)
          | Mutating wallet =>
              match mutator t wallet with
              | Raise e => Some (finish i t (Raise e) (files st) st)
              | Ok wallet' =>
                  let '(r, f) := saveWallet wallet' true (files st) in
                  Some (suspend i t (Saved r) f st)
              end
          | Saved (Raise e) => Some (finish i t (Raise e) (files st) st)
          | Saved (Ok _) => Some (finish i t (Ok tt) (files st) st)
          | Done _ => None
          end
      end
  end.

Fixpoint run (st : Store) (events : list Event) : option Store :=
  match events with
  | [] => Some st
  | e :: events' =>
      match step st e with
      | None => None
      | Some st' => run st' events'
      end
  end.

(** The calls made one after the other, each run to its end before the
    next is made: the file system they leave and their results. *)
Fixpoint in_turn (mutators : list (json -> outcome json)) (f : gmap path node)
    : list (outcome unit) * gmap path node :=
  match mutators with
  | [] => ([], f)
  | m :: mutators' =>
      let '(r, f1) := update m f in
      let '(rs, f2) := in_turn mutators' f1 in
      (r :: rs, f2)
  end.

(** A call that is inside its [try] block. *)
Definition inside (t : Task) : bool :=
  match at_phase t with
  | Loaded _ | Mutating _ | Saved _ => true
  | Waiting | Done _ => false
  end.

Definition result_of (t : Task) : option (outcome unit) :=
  match at_phase t with
  | Done r => Some r
  | _ => None
  end.

(** What a call still does from the point it has reached, when it is run
    to its end without interruption: its result and the file system it
    leaves. *)
Definition after_save (r : outcome bool) : IO unit :=
  fun f =>
    match r with
    | Raise e => (Raise e, f)
    | Ok _ => (Ok tt, f)
    end.

Definition after_mutator (m : json -> outcome json) (wallet : json) : IO unit :=
  fun f =>
    match m wallet with
    | Raise e => (Raise e, f)
    | Ok wallet' =>
        let '(r, f2) := saveWallet wallet' true f in after_save r f2
    end.

Definition after_load (m : json -> outcome json) (r : outcome json) : IO unit :=
  fun f =>
    match r with
    | Raise e => (Raise e, f)
    | Ok wallet => if JSON.truthy wallet then after_mutator m wallet f else (Ok tt, f)
    end.

Definition remaining (t : Task) : IO unit :=
  fun f =>
    match at_phase t with
    | Waiting => update (mutator t) f
    | Loaded r => after_load (mutator t) r f
    | Mutating wallet => after_mutator (mutator t) wallet f
    | Saved r => after_save r f
    | Done r => (r, f)
    end.

Fixpoint complete (ts : list Task) (f : gmap path node)
    : list (outcome unit) * gmap path node :=
  match ts with
  | [] => ([], f)
  | t :: ts' =>
      let '(r, f1) := remaining t f in
      let '(rs, f2) := complete ts' f1 in
      (r :: rs, f2)
  end.

(** The shape of the calls: those that are done, then at most one that has
    passed its first [await], then those that wait; the promises resolved
    are the initial one and those of the calls that are done. *)
Definition Shape (st : Store) : Prop :=
  exists done rest,
    tasks st = done ++ rest /\
    Forall (fun t => exists r, at_phase t = Done r) done /\
    match rest with
    | [] => True
    | t :: waiting =>
        (forall r, at_phase t <> Done r) /\
        Forall (fun t => at_phase t = Waiting) waiting
    end /\
    (forall p, In p (resolved st) <-> (p <= length done)%nat) /\
    (forall i t, tasks st !! i = Some t -> mine t = S i /\ release t = i) /\
    nextPromise st = S (length (tasks st)) /\
    _lock st = length (tasks st).

(** The calls finished from where they are leave what the calls made in
    turn leave. *)
Definition Serial (f0 : gmap path node) (st : Store) : Prop :=
  complete (tasks st) (files st) = in_turn (map mutator (tasks st)) f0.

(** The mutators of the calls made, in the order of the calls. *)
Definition called (events : list Event) : list (json -> outcome json) :=
  omap (fun e => match e with Call m => Some m | Resume _ => None end) events.

End Methods.

(** [JSON.stringify(value, null, gap)], for the values
    [Platform.stringify] handles. *)
Fixpoint join_with (sep : jsstring) (parts : list jsstring) : jsstring :=
  match parts with
  | [] => []
  | [part] => part
  | part :: parts' => part ++ sep ++ join_with sep parts'
  end.

Definition wrap (gap : jsstring) (open close : N) (indent : jsstring)
    (parts : list jsstring) : jsstring :=
  match parts with
  | [] => [open; close]
  | _ :: _ =>
      let inner := indent ++ gap in
      open :: LF :: inner ++ join_with (44 :: LF :: inner) parts ++ LF :: indent ++ [close]
  end.

Fixpoint stringify_indented (gap indent : jsstring) (v : json) : option jsstring :=
  match v with
  | JArray elements =>
      let fix all (l : list json) : option (list jsstring) :=
        match l with
        | [] => Some []
        | x :: l' =>
            match stringify_indented gap (indent ++ gap) x, all l' with
            | Some sx, Some sl => Some (sx :: sl)
            | _, _ => None
            end
        end in
      match all elements with
      | Some parts => Some (wrap gap 91 93 indent parts)
      | None => None
      end
  | JObject members =>
      let fix all (l : list (jsstring * json)) : option (list jsstring) :=
        match l with
        | [] => Some []
        | (k, x) :: l' =>
            match Platform.quote k, stringify_indented gap (indent ++ gap) x, all l' with
            | Some sk, Some sx, Some sl => Some ((sk ++ 58 :: 32 :: sx) :: sl)
            | _, _, _ => None
            end
        end in
      match all members with
      | Some parts => Some (wrap gap 123 125 indent parts)
      | None => None
      end
  | _ => Platform.stringify v
  end.

Definition JSON_stringify4 (v : json) : jsstring :=
  match stringify_indented (JS.str "    ") [] v with
  | Some text => text
  | None => []
  end.

(** Sample data: a wallet with a counter, and mutators that set it. *)
Module Sample.

Definition wallet (n : N) : json :=
  JObject [(JS.str "counter", JNumber false n 0); (JS.str "ids", JObject [])].

Definition set_counter (n : N) (w : json) : outcome json :=
  match w with
  | JObject members => Ok (JObject (define_property (JS.str "counter") (JNumber false n 0) members))
  | _ => Raise (Thrown {| Bridge.message := JS.str "not a wallet" |})
  end.

Definition failing (w : json) : outcome json :=
  Raise (Thrown {| Bridge.message := JS.str "no" |}).

Definition this : WalletJson := constructor None None.

(** The working directory, empty. *)
Definition empty : gmap path node := ∅.

Definition stored (n : N) : gmap path node :=
  <[walletName this := File (JSON_stringify4 (wallet n))]>
    (<[dataFolder this := Dir]> empty).

Definition two_updates : list Event :=
  [Call (set_counter 2); Call failing; Resume 0; Call (set_counter 3);
   Resume 0; Resume 0; Resume 0; Resume 1; Resume 1; Resume 1;
   Resume 2; Resume 2; Resume 2; Resume 2].

Definition one_inside : list Event :=
  [Call (set_counter 2); Call (set_counter 3); Resume 0; Resume 0].

End Sample.

End Wallet.

(* ===================================================================== *)
(** ** The tool server (src/index.ts) *)
(* ===================================================================== *)

Module Tools.
Import JS JSON.

#[local] Set Warnings "-register-all".

(** *** Values

    What the tool handler computes with: the arguments of a tool call and
    what the keymaster returns -- plain data, or [undefined], also as the
    value of a property.  The keymaster does not change the objects it is
    given. *)
Inductive value : Type :=
| VUndefined
| VNull
| VBool (b : bool)
| VNumber (neg : bool) (mant : N) (exp10 : Z)
| VString (s : jsstring)
| VArray (elements : list value)
| VObject (members : list (jsstring * value)).

(** ToBoolean *)
Definition truthy (v : value) : bool :=
  match v with
  | VUndefined | VNull => false
  | VBool b => b
  | VNumber neg mant exp10 => JSON.truthy (JNumber neg mant exp10)
  | VString s => JS.truthy s
  | VArray _ | VObject _ => true
  end.

(** The value of an own property, [undefined] when there is none. *)
Fixpoint lookup (key : jsstring) (members : list (jsstring * value)) : value :=
  match members with
  | [] => VUndefined
  | (k, v) :: rest => if string_eqb k key then v else lookup key rest
  end.

(** Setting a property whose name is not an array index: an existing
    property keeps its place, a new one comes last. *)
Fixpoint define (key : jsstring) (v : value) (members : list (jsstring * value))
    : list (jsstring * value) :=
  match members with
  | [] => [(key, v)]
  | (k, w) :: rest =>
      if string_eqb k key then (k, v) :: rest else (k, w) :: define key v rest
  end.

Fixpoint indexed (i : N) (elements : list value) : list (jsstring * value) :=
  match elements with
  | [] => []
  | x :: rest => (Platform.decimal i, x) :: indexed (i + 1) rest
  end.

(** The own enumerable properties [{...v}] copies. *)
Definition spread (v : value) : list (jsstring * value) :=
  match v with
  | VObject members => members
  | VArray elements => indexed 0 elements
  | VString s => indexed 0 (map (fun c => VString [c]) s)
  | VUndefined | VNull | VBool _ | VNumber _ _ _ => []
  end.

(** What is thrown: an [Error] with its [message], or another value. *)
Inductive exception : Type :=
| ErrorObject (message : value)
| NotAnError (v : value).

Inductive completion (A : Type) : Type :=
| Returns (a : A)
| Throws (e : exception).
Arguments Returns {A} a.
Arguments Throws {A} e.

(** *** The tool table *)

Record Tool : Type := {
  name : jsstring;
  description : jsstring;
  inputSchema : json
}.

Definition schema (properties : list (jsstring * json))
    (required : option (list jsstring)) : json :=
  JObject ([(str "type", JString (str "object"));
            (str "properties", JObject properties)]
           ++ match required with
              | Some names => [(str "required", JArray (map JString names))]
              | None => []
              end).

Definition string_property (description : string) : json :=
  JObject [(str "type", JString (str "string"));
           (str "description", JString (str description))].

Definition string_array (description : string) : json :=
  JObject [(str "type", JString (str "array"));
           (str "items", JObject [(str "type", JString (str "string"))]);
           (str "description", JString (str description))].

Definition tools : list Tool :=
  [ {| name := str "wallet_status";
       description := str "Check if a wallet exists and get current identity info";
       inputSchema := schema [] None |};
    {| name := str "create_wallet";
       description := str "Create a new wallet (or load existing). Returns wallet info.";
       inputSchema := schema [] None |};
    {| name := str "create_id";
       description := str "Create a new DID identity with a name";
       inputSchema :=
         schema [(str "name", string_property "Name/alias for the identity")]
                (Some [str "name"]) |};
    {| name := str "list_ids";
       description := str "List all identities in the wallet";
       inputSchema := schema [] None |};
    {| name := str "get_current_id";
       description := str "Get the currently active identity DID";
       inputSchema := schema [] None |};
    {| name := str "set_current_id";
       description := str "Set the active identity by name";
       inputSchema :=
         schema [(str "name", string_property "Name of the identity to make active")]
                (Some [str "name"]) |};
    {| name := str "resolve_did";
       description := str "Resolve a DID to its document";
       inputSchema :=
         schema [(str "did", string_property "The DID to resolve")]
                (Some [str "did"]) |};
    {| name := str "send_dmail";
       description := str "Send an encrypted message (DMail) to a DID";
       inputSchema :=
         schema [(str "to", string_array "Array of recipient DIDs");
                 (str "subject", string_property "Message subject");
                 (str "body", string_property "Message body")]
                (Some [str "to"; str "subject"; str "body"]) |};
    {| name := str "list_dmail";
       description := str "List all DMail messages in inbox";
       inputSchema := schema [] None |};
    {| name := str "read_dmail";
       description := str "Read a specific DMail message";
       inputSchema :=
         schema [(str "did", string_property "DID of the DMail message")]
                (Some [str "did"]) |};
    {| name := str "create_challenge";
       description := str "Create a credential challenge to verify someone's credentials";
       inputSchema :=
         schema
           [(str "credentials",
             JObject
               [(str "type", JString (str "array"));
                (str "items",
                 JObject
                   [(str "type", JString (str "object"));
                    (str "properties",
                     JObject
                       [(str "schema", string_property "Schema DID (optional)");
                        (str "issuers",
                         string_array "Accepted issuer DIDs (optional)")])]);
                (str "description", JString (str "Credential requirements"))]);
            (str "callback", string_property "Callback URL for response (optional)")]
           None |};
    {| name := str "create_response";
       description := str "Respond to a credential challenge";
       inputSchema :=
         schema [(str "challengeDid",
                  string_property "DID of the challenge to respond to")]
                (Some [str "challengeDid"]) |};
    {| name := str "verify_response";
       description := str "Verify a challenge response";
       inputSchema :=
         schema [(str "responseDid", string_property "DID of the response to verify")]
                (Some [str "responseDid"]) |};
    {| name := str "list_credentials";
       description := str "List credentials held by current identity";
       inputSchema := schema [] None |};
    {| name := str "get_credential";
       description := str "Get details of a specific credential";
       inputSchema :=
         schema [(str "did", string_property "DID of the credential")]
                (Some [str "did"]) |};
    {| name := str "accept_credential";
       description := str "Accept a credential that was sent to you";
       inputSchema :=
         schema [(str "did", string_property "DID of the credential to accept")]
                (Some [str "did"]) |} ].

(** The tool of a given name, and the arguments its input schema
    declares and requires. *)
Definition find_tool (n : jsstring) : option Tool :=
  List.find (fun t => string_eqb (name t) n) tools.

Fixpoint member (key : jsstring) (members : list (jsstring * json)) : option json :=
  match members with
  | [] => None
  | (k, v) :: rest => if string_eqb k key then Some v else member key rest
  end.

Definition declared (t : Tool) : list jsstring :=
  match inputSchema t with
  | JObject members =>
      match member (str "properties") members with
      | Some (JObject properties) => map fst properties
      | _ => []
      end
  | _ => []
  end.

(** *** The result of a tool call *)

Record TextContent : Type := {
  type : jsstring;
  text : option jsstring          (* [None]: undefined *)
}.

Record CallToolResult : Type := {
  content : list TextContent;
  isError : option bool           (* [None]: the property is absent *)
}.

Definition text_result (t : option jsstring) : CallToolResult :=
  {| content := [{| type := str "text"; text := t |}]; isError := None |}.

Definition error_result (t : jsstring) : CallToolResult :=
  {| content := [{| type := str "text"; text := Some t |}]; isError := Some true |}.

(** *** The keymaster *)

Inductive Method : Type :=
| loadWallet | getCurrentId | listIds | createId | fetchIdInfo | setCurrentId
| resolveDID | verifyDmail | createDmail | sendDmail | listDmail
| getDmailMessage | createChallenge | createResponse | verifyResponse
| listCredentials | getCredential | acceptCredential.

(** A call of a method of the keymaster, awaited: what it was given and
    what came back. *)
Record Call : Type := {
  method : Method;
  arguments : list value;
  reply : completion value
}.

Section Handler.

(** The keymaster and all that is behind it (the wallet file, the
    gatekeeper): a state and the methods' behaviour on it, of which nothing
    is assumed. *)
Variable Keymaster : Type.
Variable invoke : Method -> list value -> Keymaster -> completion value * Keymaster.

(** Of the platform: [JSON.stringify(value, null, 2)], which is [undefined]
    on [undefined]; Number::toString; the messages of the TypeErrors for
    reading a property of [undefined] or [null] and for calling what is not
    a function. *)
Variable JSON_stringify2 : value -> option jsstring.
Variable Number_toString : bool -> N -> Z -> jsstring.
Variable cannot_read : value -> jsstring -> jsstring.
Variable not_a_function : jsstring -> jsstring.

(** [path.join(WALLET_DIR, WALLET_FILE)] *)
Variable walletPath : jsstring.

(** ToString, as a template literal and [String] apply it. *)
Fixpoint to_string (v : value) : jsstring :=
  match v with
  | VUndefined => str "undefined"
  | VNull => str "null"
  | VBool true => str "true"
  | VBool false => str "false"
  | VNumber neg mant exp10 => Number_toString neg mant exp10
  | VString s => s
  | VArray elements =>
      let fix parts (l : list value) : list jsstring :=
        match l with
        | [] => []
        | x :: l' =>
            match x with
            | VUndefined | VNull => []
            | _ => to_string x
            end :: parts l'
        end in
      JS.join 44 (parts elements)
  | VObject _ => str "[object Object]"
  end.

(** [v.key], for a key that is no array index, not [length] and not a
    property of the built-in prototypes. *)
Definition get (v : value) (key : jsstring) : completion value :=
  match v with
  | VUndefined | VNull => Throws (ErrorObject (VString (cannot_read v key)))
  | VObject members => Returns (lookup key members)
  | VBool _ | VNumber _ _ _ | VString _ | VArray _ => Returns VUndefined
  end.

(** [v.length] *)
Definition length_of (v : value) : completion value :=
  match v with
  | VUndefined | VNull => Throws (ErrorObject (VString (cannot_read v (str "length"))))
  | VString s => Returns (VNumber false (N.of_nat (length s)) 0)
  | VArray elements => Returns (VNumber false (N.of_nat (length elements)) 0)
  | VObject members => Returns (lookup (str "length") members)
  | VBool _ | VNumber _ _ _ => Returns VUndefined
  end.

(** The handler runs against the keymaster: it returns or throws, leaves
    the keymaster in a new state, and has made some calls. *)
Definition M (A : Type) : Type := Keymaster -> completion A * Keymaster * list Call.

Definition ret {A} (a : A) : M A := fun k => (Returns a, k, []).

Definition lift {A} (c : completion A) : M A := fun k => (c, k, []).

Definition bind {A B} (m : M A) (f : A -> M B) : M B :=
  fun k =>
    match m k with
    | (Returns a, k1, calls1) =>
        let '(r, k2, calls2) := f a k1 in (r, k2, calls1 ++ calls2)
    | (Throws e, k1, calls1) => (Throws e, k1, calls1)
    end.

#[local] Notation "x <- m ;; f" := (bind m (fun x => f))
  (at level 100, m at next level, right associativity).

(** [await keymaster.method(...arguments)] *)
Definition call (m : Method) (args : list value) : M value :=
  fun k =>
    let '(r, k1) := invoke m args k in
    (r, k1, [{| method := m; arguments := args; reply := r |}]).

Definition try_catch {A} (body : M A) (handler : exception -> M A) : M A :=
  fun k =>
    match body k with
    | (Returns a, k1, calls1) => (Returns a, k1, calls1)
    | (Throws e, k1, calls1) =>
        let '(r, k2, calls2) := handler e k1 in (r, k2, calls1 ++ calls2)
    end.

Definition stringified (v : value) : M CallToolResult :=
  ret (text_result (JSON_stringify2 v)).

(** The cases of the [switch], by their labels. *)

Definition wallet_status : M CallToolResult :=
  try_catch
    (wallet <- call loadWallet [] ;;
     currentId <- call getCurrentId [] ;;
     ids <- call listIds [] ;;
     identityCount <- lift (length_of ids) ;;
     stringified
       (VObject [(str "exists", VBool true);
                 (str "currentId", currentId);
                 (str "identityCount", identityCount);
                 (str "walletPath", VString walletPath)]))
    (fun _ =>
     stringified
       (VObject [(str "exists", VBool false);
                 (str "walletPath", VString walletPath);
                 (str "message",
                  VString (str "No wallet found. Use create_wallet to create one."))])).

Definition create_wallet : M CallToolResult :=
  wallet <- call loadWallet [] ;;
  stringified
    (VObject [(str "message", VString (str "Wallet ready"));
              (str "walletPath", VString walletPath);
              (str "wallet",
               VObject (define (str "seed") (VString (str "[REDACTED]"))
                          (spread wallet)))]).

Definition create_id (args : list (jsstring * value)) : M CallToolResult :=
  let name := lookup (str "name") args in
  did <- call createId [name] ;;
  stringified
    (VObject [(str "name", name);
              (str "did", did);
              (str "message",
               VString (str "Identity '" ++ to_string name ++ str "' created"))]).

Definition list_ids : M CallToolResult :=
  ids <- call listIds [] ;;
  currentId <- call getCurrentId [] ;;
  stringified (VObject [(str "ids", ids); (str "currentId", currentId)]).

Definition get_current_id : M CallToolResult :=
  currentId <- call getCurrentId [] ;;
  if negb (truthy currentId) then
    ret (error_result (str "No current identity set"))
  else
    info <- call fetchIdInfo [currentId] ;;
    stringified info.

Definition set_current_id (args : list (jsstring * value)) : M CallToolResult :=
  let name := lookup (str "name") args in
  _ <- call setCurrentId [name] ;;
  currentId <- call getCurrentId [] ;;
  stringified
    (VObject [(str "message",
               VString (str "Current identity set to '" ++ to_string name ++ str "'"));
              (str "did", currentId)]).

Definition resolve_did (args : list (jsstring * value)) : M CallToolResult :=
  let did := lookup (str "did") args in
  doc <- call resolveDID [did] ;;
  stringified doc.

Definition send_dmail (args : list (jsstring * value)) : M CallToolResult :=
  let to := lookup (str "to") args in
  let subject := lookup (str "subject") args in
  let body := lookup (str "body") args in
  let message :=
    VObject [(str "to", to); (str "cc", VArray []);
             (str "subject", subject); (str "body", body)] in
  verifiedMessage <- call verifyDmail [message] ;;
  dmailDid <- call createDmail [verifiedMessage] ;;
  sentDid <- call sendDmail [dmailDid] ;;
  stringified
    (VObject [(str "message", VString (str "DMail sent successfully"));
              (str "dmailDid", dmailDid);
              (str "sentDid", sentDid);
              (str "recipients", to)]).

Definition list_dmail : M CallToolResult :=
  dmail <- call listDmail [] ;;
  stringified dmail.

Definition read_dmail (args : list (jsstring * value)) : M CallToolResult :=
  let did := lookup (str "did") args in
  message <- call getDmailMessage [did] ;;
  stringified message.

(** [rawCredentials.filter(c => c.schema)] on the elements of an array *)
Fixpoint with_schema (elements : list value) : completion (list value) :=
  match elements with
  | [] => Returns []
  | c :: rest =>
      match get c (str "schema") with
      | Throws e => Throws e
      | Returns s =>
          match with_schema rest with
          | Throws e => Throws e
          | Returns kept => Returns (if truthy s then c :: kept else kept)
          end
      end
  end.

(** [.map(c => ({ schema: c.schema, issuers: c.issuers }))] *)
Fixpoint requirements (elements : list value) : completion (list value) :=
  match elements with
  | [] => Returns []
  | c :: rest =>
      match get c (str "schema") with
      | Throws e => Throws e
      | Returns s =>
          match get c (str "issuers") with
          | Throws e => Throws e
          | Returns i =>
              match requirements rest with
              | Throws e => Throws e
              | Returns mapped =>
                  Returns (VObject [(str "schema", s); (str "issuers", i)] :: mapped)
              end
          end
      end
  end.

Definition filter_map (rawCredentials : value) : completion (list value) :=
  match rawCredentials with
  | VArray elements =>
      match with_schema elements with
      | Throws e => Throws e
      | Returns kept => requirements kept
      end
  | _ => Throws (ErrorObject (VString (not_a_function (str "rawCredentials.filter"))))
  end.

Definition create_challenge (args : list (jsstring * value)) : M CallToolResult :=
  let rawCredentials :=
    if truthy (lookup (str "credentials") args)
    then lookup (str "credentials") args else VArray [] in
  let callback := lookup (str "callback") args in
  credentials <- lift (filter_map rawCredentials) ;;
  let challenge :=
    (if (0 <? length credentials)%nat
     then [(str "credentials", VArray credentials)] else [])
    ++ (if truthy callback then [(str "callback", callback)] else []) in
  challengeDid <- call createChallenge [VObject challenge] ;;
  stringified
    (VObject [(str "challengeDid", challengeDid);
              (str "challenge", VObject challenge)]).

Definition create_response (args : list (jsstring * value)) : M CallToolResult :=
  let challengeDid := lookup (str "challengeDid") args in
  responseDid <- call createResponse [challengeDid] ;;
  stringified
    (VObject [(str "responseDid", responseDid); (str "challengeDid", challengeDid)]).

Definition verify_response (args : list (jsstring * value)) : M CallToolResult :=
  let responseDid := lookup (str "responseDid") args in
  result <- call verifyResponse [responseDid] ;;
  stringified result.

Definition list_credentials : M CallToolResult :=
  credentials <- call listCredentials [] ;;
  stringified (VObject [(str "credentials", credentials)]).

Definition get_credential (args : list (jsstring * value)) : M CallToolResult :=
  let did := lookup (str "did") args in
  credential <- call getCredential [did] ;;
  stringified credential.

Definition accept_credential (args : list (jsstring * value)) : M CallToolResult :=
  let did := lookup (str "did") args in
  _ <- call acceptCredential [did] ;;
  stringified
    (VObject [(str "message", VString (str "Credential accepted")); (str "did", did)]).

Definition unknown_tool (name : jsstring) : CallToolResult :=
  error_result (str "Unknown tool: " ++ name).

Definition cases (args : list (jsstring * value))
    : list (jsstring * M CallToolResult) :=
  [ (str "wallet_status", wallet_status);
    (str "create_wallet", create_wallet);
    (str "create_id", create_id args);
    (str "list_ids", list_ids);
    (str "get_current_id", get_current_id);
    (str "set_current_id", set_current_id args);
    (str "resolve_did", resolve_did args);
    (str "send_dmail", send_dmail args);
    (str "list_dmail", list_dmail);
    (str "read_dmail", read_dmail args);
    (str "create_challenge", create_challenge args);
    (str "create_response", create_response args);
    (str "verify_response", verify_response args);
    (str "list_credentials", list_credentials);
    (str "get_credential", get_credential args);
    (str "accept_credential", accept_credential args) ].

(** [switch (name) { case label: ...; default: ... }]: the first case whose
    label is the name. *)
Fixpoint switch {A} (name : jsstring) (cases : list (jsstring * A)) (default : A) : A :=
  match cases with
  | [] => default
  | (label, body) :: cases' =>
      if string_eqb name label then body else switch name cases' default
  end.

(** [error instanceof Error ? error.message : String(error)], as the
    template literal then renders it. *)
Definition message_of (error : exception) : jsstring :=
  match error with
  | ErrorObject message => to_string message
  | NotAnError v => to_string v
  end.

Definition reported (error : exception) : CallToolResult :=
  error_result (str "Error: " ++ message_of error).

(** [handleToolCall(name, args)]: it has no way to throw. *)
Definition handleToolCall (name : jsstring) (args : list (jsstring * value))
    : Keymaster -> CallToolResult * Keymaster * list Call :=
  fun k =>
    match switch name (cases args) (ret (unknown_tool name)) k with
    | (Returns result, k1, calls) => (result, k1, calls)
    | (Throws error, k1, calls) => (reported error, k1, calls)
    end.

Definition returned (c : Call) : bool :=
  match reply c with
  | Returns _ => true
  | Throws _ => false
  end.

(** Every call but the last returned. *)
Definition halts_at_failure (calls : list Call) : bool :=
  forallb returned (removelast calls).


Definition no_current_identity : CallToolResult :=
  error_result (str "No current identity set").

(** A computation whose result, when it returns one, is one text that is
    not flagged as an error, or says that no identity is current. *)
Definition Plain (m : M CallToolResult) : Prop :=
  forall k r k' calls,
    m k = (Returns r, k', calls) ->
    (exists t, r = text_result t) \/ r = no_current_identity.





(** A credential requirement as [create_challenge] passes it on. *)
Definition is_requirement (c : value) : Prop :=
  exists s i,
    c = VObject [(str "schema", s); (str "issuers", i)] /\ truthy s = true.

End Handler.

(** An instance of [JSON.stringify(value, null, 2)]. *)
Fixpoint to_json (v : value) : option json :=
  match v with
  | VUndefined => None
  | VNull => Some JNull
  | VBool b => Some (JBool b)
  | VNumber neg mant exp10 => Some (JNumber neg mant exp10)
  | VString s => Some (JString s)
  | VArray elements =>
      let fix all (l : list value) : list json :=
        match l with
        | [] => []
        | x :: l' => default JNull (to_json x) :: all l'
        end in
      Some (JArray (all elements))
  | VObject members =>
      let fix all (l : list (jsstring * value)) : list (jsstring * json) :=
        match l with
        | [] => []
        | (k, x) :: l' =>
            match to_json x with
            | Some j => (k, j) :: all l'
            | None => all l'
            end
        end in
      Some (JObject (all members))
  end.

Definition JSON_stringify2 (v : value) : option jsstring :=
  match to_json v with
  | Some j => Some (default [] (Wallet.stringify_indented (str "  ") [] j))
  | None => None
  end.

(** Sample data: a keymaster that replays a script of replies. *)
Module Sample.

Definition Script : Type := list (completion value).

Definition replay (m : Method) (args : list value) (k : Script)
    : completion value * Script :=
  match k with
  | [] => (Returns VUndefined, [])
  | r :: k' => (r, k')
  end.

Definition Number_toString (neg : bool) (mant : N) (exp10 : Z) : jsstring :=
  (if neg then [45] else []) ++ Platform.decimal mant.

Definition cannot_read (v : value) (key : jsstring) : jsstring :=
  str "Cannot read properties of null (reading '" ++ key ++ str "')".

Definition not_a_function (what : jsstring) : jsstring :=
  what ++ str " is not a function".

Definition walletPath : jsstring := str "/home/user/.archon-mcp/wallet.json".

Definition handle : jsstring -> list (jsstring * value) -> Script ->
    CallToolResult * Script * list Call :=
  handleToolCall Script replay JSON_stringify2 Number_toString cannot_read
    not_a_function walletPath.

Definition a_wallet : value :=
  VObject [(str "seed", VObject [(str "mnemonic", VString (str "secret"))]);
           (str "counter", VNumber false 1 0)].


Definition two_credentials : list (jsstring * value) :=
  [(str "credentials",
    VArray [VObject [(str "schema", VString (str "did:a"))];
            VObject [(str "issuers", VArray [])];
            VObject [(str "schema", VString (str "did:b"));
                     (str "issuers", VArray [VString (str "did:c")])]])].

End Sample.

End Tools.

(* ===================================================================== *)
(** ** Facts about the platform primitives *)
(* ===================================================================== *)

Section JSFacts.

Import JS.

Lemma split_not_nil sep s : split sep s <> [].
Proof.
  destruct s as [|c r]; simpl; [discriminate|].
  destruct (c =? sep); [discriminate|].
  destruct (split sep r); discriminate.
Qed.

(** A string without the separator is its own single segment. *)
Lemma split_no_sep sep s :
  existsb (N.eqb sep) s = false -> split sep s = [s].
Proof.
  induction s as [|c r IH]; simpl; [reflexivity|].
  intros H. apply orb_false_elim in H as [Hc Hr].
  rewrite N.eqb_sym, Hc, (IH Hr). reflexivity.
Qed.

(** Splitting after a first segment [l] that has no separator. *)
Lemma split_line sep l r :
  existsb (N.eqb sep) l = false ->
  split sep (l ++ sep :: r) = l :: split sep r.
Proof.
  induction l as [|c l IH]; simpl.
  - intros _. rewrite N.eqb_refl. reflexivity.
  - intros H. apply orb_false_elim in H as [Hc Hl].
    rewrite N.eqb_sym, Hc, (IH Hl). reflexivity.
Qed.

(** No segment contains the separator. *)
Lemma split_segments_no_sep sep s :
  Forall (fun seg => existsb (N.eqb sep) seg = false) (split sep s).
Proof.
  induction s as [|c r IH]; simpl.
  - repeat constructor.
  - destruct (c =? sep) eqn:E.
    + constructor; [reflexivity | exact IH].
    + destruct (split sep r) as [|seg segs]; [repeat constructor; simpl|].
      * rewrite N.eqb_sym, E. reflexivity.
      * inversion IH; subst. constructor; [|assumption].
        simpl. rewrite N.eqb_sym, E. assumption.
Qed.

(** Joining the segments with the separator gives the string back. *)
Lemma join_split sep s : join sep (split sep s) = s.
Proof.
  induction s as [|c r IH]; simpl; [reflexivity|].
  destruct (c =? sep) eqn:E.
  - apply N.eqb_eq in E. subst c.
    pose proof (split_not_nil sep r) as Hne.
    destruct (split sep r) as [|seg segs]; [congruence|].
    simpl in *. rewrite IH. reflexivity.
  - pose proof (split_not_nil sep r) as Hne.
    destruct (split sep r) as [|seg segs]; [congruence|].
    simpl in *. destruct segs; simpl in *; rewrite <- IH; reflexivity.
Qed.

Lemma truthy_false_nil (s : jsstring) : truthy s = false <-> s = [].
Proof. destruct s; simpl; split; congruence. Qed.

Lemma truthy_rev (s : jsstring) : truthy (rev s) = truthy s.
Proof.
  destruct s as [|c r]; simpl; [reflexivity|].
  destruct (rev r); reflexivity.
Qed.

Lemma trimStart_truthy s : truthy (trimStart s) = negb (forallb is_ws s).
Proof.
  induction s as [|c r IH]; simpl; [reflexivity|].
  destruct (is_ws c); simpl; [exact IH | reflexivity].
Qed.

Lemma trimStart_forallb s : forallb is_ws (trimStart s) = forallb is_ws s.
Proof.
  induction s as [|c r IH]; simpl; [reflexivity|].
  destruct (is_ws c) eqn:E; simpl; [exact IH | rewrite E; reflexivity].
Qed.

Lemma forallb_rev {A} (f : A -> bool) l : forallb f (rev l) = forallb f l.
Proof.
  induction l as [|x l IH]; simpl; [reflexivity|].
  rewrite forallb_app, IH. simpl. rewrite andb_true_r, andb_comm. reflexivity.
Qed.

(** [s.trim()] is the empty string exactly when [s] is white space only. *)
Lemma trim_truthy s : truthy (trim s) = negb (Spec.is_blank s).
Proof.
  unfold trim, trimEnd, Spec.is_blank.
  rewrite truthy_rev, trimStart_truthy, forallb_rev, trimStart_forallb.
  reflexivity.
Qed.

(** A non-empty array ends with the element [pop] returns. *)
Lemma pop_snoc {A} (l : list A) (x : A) : pop (l ++ [x]) = (Some x, l).
Proof. unfold pop. rewrite last_snoc, removelast_last. reflexivity. Qed.

Lemma split_snoc sep s :
  exists lines rest, split sep s = lines ++ [rest].
Proof.
  pose proof (split_not_nil sep s) as Hne.
  destruct (split sep s) as [|x l] using rev_ind; [congruence|].
  eauto.
Qed.

Lemma join_snoc sep lines rest :
  join sep (lines ++ [rest]) = flat_map (fun l => l ++ [sep]) lines ++ rest.
Proof.
  induction lines as [|l lines IH]; simpl; [reflexivity|].
  rewrite <- !app_assoc. simpl. rewrite <- IH.
  destruct (lines ++ [rest]) eqn:E; [|reflexivity].
  destruct lines; discriminate.
Qed.

End JSFacts.

(* ===================================================================== *)
(** ** Line framing *)
(* ===================================================================== *)

Section FramerFacts.

Import JS Spec.

Lemma no_newline_existsb s : no_newline s = true <-> existsb (N.eqb LF) s = false.
Proof. unfold no_newline. destruct (existsb _ s); simpl; split; congruence. Qed.

Lemma no_newline_app a b :
  no_newline (a ++ b) = no_newline a && no_newline b.
Proof. unfold no_newline. rewrite existsb_app, negb_orb. reflexivity. Qed.

(** What the 'data' listener computes from [text = buffer + chunk]: the
    complete lines and the rest, which are the only way to write [text] as
    newline-terminated lines followed by a rest without newline. *)
Lemma pop_split_frames text :
  exists lines rest,
    pop (split LF text) = (Some rest, lines) /\
    text = unlines lines ++ rest /\
    Forall (fun l => no_newline l = true) lines /\
    no_newline rest = true.
Proof.
  destruct (split_snoc LF text) as (lines & rest & E).
  exists lines, rest. rewrite E, pop_snoc. split; [reflexivity|].
  pose proof (join_split LF text) as J. rewrite E, join_snoc in J.
  pose proof (split_segments_no_sep LF text) as F. rewrite E in F.
  apply Forall_app in F as [F1 F2]. inversion F2 as [|? ? Hr _].
  split; [symmetry; exact J|]. split.
  - eapply Forall_impl; [exact F1|]. intros l0 Hl. apply no_newline_existsb, Hl.
  - apply no_newline_existsb, Hr.
Qed.

Lemma split_unlines lines rest :
  Forall (fun l => no_newline l = true) lines ->
  no_newline rest = true ->
  split LF (unlines lines ++ rest) = lines ++ [rest].
Proof.
  intros F R. induction F as [|l lines Hl F IH]; simpl.
  - apply split_no_sep, no_newline_existsb, R.
  - rewrite <- !app_assoc. simpl.
    rewrite split_line by (apply no_newline_existsb, Hl).
    rewrite IH. reflexivity.
Qed.

Lemma pop_split_unlines lines rest :
  Forall (fun l => no_newline l = true) lines ->
  no_newline rest = true ->
  pop (split LF (unlines lines ++ rest)) = (Some rest, lines).
Proof. intros. rewrite split_unlines by assumption. apply pop_snoc. Qed.

Lemma unlines_app a b : unlines (a ++ b) = unlines a ++ unlines b.
Proof. unfold unlines. apply flat_map_app. Qed.

Lemma or_empty_Some s : or_empty (Some s) = s.
Proof. destruct s; reflexivity. Qed.

(** The lines handed over during a whole input, in terms of the
    concatenation of the chunks alone. *)
Lemma framer_run_concat chunks : forall buffer lines rest,
  no_newline buffer = true ->
  pop (split LF (buffer ++ concat chunks)) = (Some rest, lines) ->
  framer_run buffer chunks =
    lines ++ (if truthy (trim rest) then [rest] else []).
Proof.
  induction chunks as [|chunk chunks IH]; intros buffer lines rest Hb Hp;
    cbn [framer_run concat] in *.
  - rewrite app_nil_r in Hp.
    rewrite (split_no_sep LF buffer) in Hp by (apply no_newline_existsb, Hb).
    change [buffer] with ([] ++ [buffer]) in Hp. rewrite pop_snoc in Hp.
    injection Hp as <- <-. reflexivity.
  - destruct (pop_split_frames (buffer ++ chunk)) as (l1 & r1 & P1 & E1 & F1 & R1).
    rewrite P1, or_empty_Some.
    destruct (pop_split_frames (r1 ++ concat chunks)) as (l2 & r2 & P2 & E2 & F2 & R2).
    rewrite (IH r1 l2 r2 R1 P2).
    assert (Hp' : pop (split LF (buffer ++ chunk ++ concat chunks)) = (Some r2, l1 ++ l2)).
    { rewrite app_assoc, E1, <- app_assoc, E2, app_assoc, <- unlines_app.
      apply pop_split_unlines; [apply Forall_app; split|]; assumption. }
    rewrite Hp' in Hp. injection Hp as <- <-.
    rewrite <- app_assoc. reflexivity.
Qed.

End FramerFacts.

(* ===================================================================== *)
(** ** The functions of the bridge *)
(* ===================================================================== *)

Section BridgeFacts.

Import JS JSON Bridge Spec Invariants.

Variable JSON_parse : jsstring -> completion json.
Variable JSON_stringify : json -> jsstring.

#[local] Abbreviation parseSSE := (Bridge.parseSSE JSON_parse).
#[local] Abbreviation decode := (Bridge.decode JSON_parse).
#[local] Abbreviation sendRequest := (Bridge.sendRequest JSON_stringify).
#[local] Abbreviation processLine := (Bridge.processLine JSON_parse JSON_stringify).
#[local] Abbreviation processLine_resume := (Bridge.processLine_resume JSON_stringify).
#[local] Abbreviation res_on_end := (Bridge.res_on_end JSON_parse JSON_stringify).
#[local] Abbreviation req_on_error := (Bridge.req_on_error JSON_stringify).
#[local] Abbreviation stdin_on_data := (Bridge.stdin_on_data JSON_parse JSON_stringify).
#[local] Abbreviation stdin_on_end := (Bridge.stdin_on_end JSON_parse JSON_stringify).
#[local] Abbreviation handle := (Bridge.handle JSON_parse JSON_stringify).
#[local] Abbreviation step := (Bridge.step JSON_parse JSON_stringify).
#[local] Abbreviation run := (Bridge.run JSON_parse JSON_stringify).

(** *** The decoder *)

Lemma parseSSE_loop_events lines : forall events,
  parseSSE_loop JSON_parse lines events =
  Normal (events ++
          flat_map (fun line =>
            if startsWith data_prefix line then
              match JSON_parse (drop (length data_prefix) line) with
              | Normal v => [v]
              | Throw _ => []
              end
            else []) lines).
Proof.
  induction lines as [|line lines IH]; intros events;
    cbn [parseSSE_loop flat_map].
  - rewrite app_nil_r. reflexivity.
  - unfold parseSSE_line, slice, try_catch.
    change (length data_prefix) with 6%nat.
    destruct (startsWith data_prefix line).
    + destruct (JSON_parse (drop 6 line)) as [v|e].
      * rewrite IH, <- app_assoc. reflexivity.
      * rewrite IH. reflexivity.
    + rewrite IH. reflexivity.
Qed.

(** [parseSSE] never throws, and returns the events of the body. *)
Lemma parseSSE_events data : parseSSE data = Normal (sse_events JSON_parse data).
Proof. unfold Bridge.parseSSE. rewrite parseSSE_loop_events. reflexivity. Qed.

(** No line of a blank text begins with the prefix. *)
Lemma blank_no_data_line (s : jsstring) :
  is_blank s = true ->
  Forall (fun line => startsWith data_prefix line = false) (split LF s).
Proof.
  assert (Hd : forall c seg, is_ws c = true ->
                 startsWith data_prefix (c :: seg) = false).
  { intros c seg Hc. unfold data_prefix. cbn [startsWith].
    destruct (c =? 100) eqn:Ed; [|reflexivity].
    apply N.eqb_eq in Ed. subst c. discriminate. }
  unfold is_blank. induction s as [|c r IH]; cbn [forallb split].
  - intros _. repeat constructor.
  - intros H. apply andb_prop in H as [Hc Hr]. specialize (IH Hr).
    destruct (c =? LF) eqn:E.
    + constructor; [reflexivity | exact IH].
    + destruct (split LF r) as [|seg segs].
      * constructor; [apply Hd, Hc | constructor].
      * inversion IH; subst. constructor; [apply Hd, Hc | assumption].
Qed.

Lemma sse_events_blank (s : jsstring) :
  is_blank s = true -> sse_events JSON_parse s = [].
Proof.
  intros H. apply blank_no_data_line in H. unfold sse_events.
  induction H as [|line lines Hl _ IH]; cbn [flat_map]; [reflexivity|].
  rewrite Hl. exact IH.
Qed.

(** [decode] never throws; what it returns. *)
Lemma decode_normal contentType body :
  decode contentType body = Normal (decoded JSON_parse contentType body).
Proof.
  unfold Bridge.decode, decoded. rewrite trim_truthy, negb_involutive.
  destruct (is_blank body); [reflexivity|].
  destruct (includes text_event_stream contentType).
  - apply parseSSE_events.
  - unfold json_events, try_catch. destruct (JSON_parse body); reflexivity.
Qed.

(** *** The monad *)

Lemma for_of_app {A} (f : A -> M unit) (l1 l2 : list A) s :
  for_of (l1 ++ l2) f s = bind (for_of l1 f) (fun _ => for_of l2 f) s.
Proof.
  revert s. induction l1 as [|x l1 IH]; intros s; cbn [for_of app].
  - unfold bind, ret. destruct (for_of l2 f s) as [[r s2] out2]. reflexivity.
  - unfold bind. destruct (f x s) as [[[u|] s1] out1]; [|reflexivity].
    rewrite IH. unfold bind.
    destruct (for_of l1 f s1) as [[[u1|] s2] out2]; [|reflexivity].
    destruct (for_of l2 f s2) as [[r s3] out3].
    rewrite app_assoc. reflexivity.
Qed.

Lemma checkExit_eq s :
  checkExit s =
  if stdinClosed s && (pendingRequests s =? 0)%Z
  then (None, set_exitCode (Some 0%Z) s, [Exit 0])
  else (Some tt, s, []).
Proof.
  unfold checkExit, bind, get.
  destruct (stdinClosed s && (pendingRequests s =? 0)%Z); reflexivity.
Qed.

(** *** [processLine] *)

Lemma processLine_blank line s :
  is_blank line = true -> processLine line s = (Some tt, s, []).
Proof.
  intros H. unfold Bridge.processLine. rewrite trim_truthy, H. reflexivity.
Qed.

Lemma processLine_bad line e s :
  is_blank line = false ->
  JSON_parse line = Throw e ->
  processLine line s =
  let diagnostic := StderrWrite (error_prefix ++ message e ++ [LF]) in
  if stdinClosed s && (pendingRequests s =? 0)%Z
  then (None, set_exitCode (Some 0%Z) s, [diagnostic; Exit 0])
  else (Some tt, s, [diagnostic]).
Proof.
  intros H P. unfold Bridge.processLine. rewrite trim_truthy, H, P.
  cbn [negb]. unfold processLine_finally, processLine_catch, bind, emit.
  rewrite checkExit_eq.
  destruct (stdinClosed s && (pendingRequests s =? 0)%Z); reflexivity.
Qed.

Lemma processLine_request line v s :
  is_blank line = false ->
  JSON_parse line = Normal v ->
  processLine line s =
  (Some tt, sent s,
   [HttpRequest (nextCall s) (sent_headers (sessionId s)) (JSON_stringify v)]).
Proof.
  intros H P. unfold Bridge.processLine. rewrite trim_truthy, H, P.
  destruct s. reflexivity.
Qed.

(** *** Dispatching while stdin is open *)

Lemma issued_app o1 o2 : issued (o1 ++ o2) = issued o1 ++ issued o2.
Proof. apply omap_app. Qed.

Lemma completed_app e1 e2 : completed (e1 ++ e2) = completed e1 ++ completed e2.
Proof. apply omap_app. Qed.

Lemma dispatches_refl s : dispatches s s [].
Proof.
  constructor; try reflexivity; auto; try (cbn; lia).
  intros id. destruct (decide _) as [Hd|]; [lia | reflexivity].
Qed.

Lemma dispatches_stderr s text : dispatches s s [StderrWrite text].
Proof.
  constructor; try reflexivity; auto; try (cbn; lia).
  - intros id. destruct (decide _) as [Hd|]; [lia | reflexivity].
  - constructor; [|constructor]. cbn. repeat split. discriminate.
Qed.

Lemma dispatches_sent s body :
  dispatches s (sent s)
    [HttpRequest (nextCall s) (sent_headers (sessionId s)) body].
Proof.
  constructor; try reflexivity; try (cbn; lia).
  - intros id. cbn [sent nextCall calls set_nextCall set_calls set_pendingRequests].
    destruct (decide _) as [Hd|Hd].
    + assert (id = nextCall s) as -> by lia. apply lookup_insert_eq.
    + apply lookup_insert_ne. lia.
  - constructor; [|constructor]. cbn. repeat split. congruence.
  - intros Hn id. cbn [sent nextCall calls set_nextCall set_calls set_pendingRequests].
    destruct (decide (nextCall s = id)) as [<-|Hne].
    + lia.
    + rewrite lookup_insert_ne by assumption. intros Hs. specialize (Hn id Hs). lia.
Qed.

Lemma dispatches_trans s s1 s2 o1 o2 :
  dispatches s s1 o1 -> dispatches s1 s2 o2 -> dispatches s s2 (o1 ++ o2).
Proof.
  intros [] []. constructor; try congruence.
  - rewrite issued_app, length_app. lia.
  - rewrite issued_app, length_app, seq_app. congruence.
  - intros id. rewrite d_calls1, d_calls0.
    repeat destruct (decide _); try reflexivity; lia.
  - rewrite issued_app, length_app. lia.
  - apply Forall_app. split; [assumption|].
    rewrite <- d_session0. assumption.
  - auto.
Qed.

Lemma processLine_open line s :
  stdinClosed s = false ->
  exists s' out, processLine line s = (Some tt, s', out) /\ dispatches s s' out.
Proof.
  intros Hc. destruct (is_blank line) eqn:B.
  - exists s, []. split; [apply processLine_blank, B | apply dispatches_refl].
  - destruct (JSON_parse line) as [v|e] eqn:P.
    + eexists _, _. split; [apply (processLine_request _ _ _ B P)|].
      apply dispatches_sent.
    + eexists _, _. split; [|apply dispatches_stderr].
      rewrite (processLine_bad _ _ _ B P), Hc. reflexivity.
Qed.

Lemma for_of_processLine_open lines : forall s,
  stdinClosed s = false ->
  exists s' out,
    for_of lines processLine s = (Some tt, s', out) /\ dispatches s s' out.
Proof.
  induction lines as [|line lines IH]; intros s Hc; cbn [for_of].
  - exists s, []. split; [reflexivity | apply dispatches_refl].
  - destruct (processLine_open line s Hc) as (s1 & o1 & E1 & D1).
    destruct (IH s1) as (s2 & o2 & E2 & D2).
    { rewrite (d_closed _ _ _ D1). exact Hc. }
    exists s2, (o1 ++ o2). split; [|eapply dispatches_trans; eassumption].
    unfold bind. rewrite E1, E2. reflexivity.
Qed.

(** *** The callbacks *)

Lemma stdin_on_data_eq chunk s :
  stdin_on_data chunk s =
  let '(popped, lines) := pop (split LF (buffer s ++ chunk)) in
  for_of lines processLine (set_buffer (or_empty popped) s).
Proof.
  unfold Bridge.stdin_on_data, bind, modify, get, pop.
  cbn [buffer set_buffer].
  replace (set_buffer (or_empty (last (split LF (buffer s ++ chunk))))
             (set_buffer (buffer s ++ chunk) s))
    with (set_buffer (or_empty (last (split LF (buffer s ++ chunk)))) s)
    by reflexivity.
  destruct (for_of _ _ _) as [[r s2] o2]. reflexivity.
Qed.

Lemma stdin_on_end_eq s :
  stdinClosed s = false ->
  exists s1 o1 r,
    dispatches s s1 o1 /\
    stdin_on_end s =
    (r, fst (finish (set_stdinClosed true s1)),
     o1 ++ snd (finish (set_stdinClosed true s1))).
Proof.
  intros Hc.
  assert (exists s1 o1,
    (if JS.truthy (trim (buffer s)) then processLine (buffer s) else ret tt) s
    = (Some tt, s1, o1) /\ dispatches s s1 o1) as (s1 & o1 & E & D).
  { destruct (JS.truthy (trim (buffer s))).
    - apply processLine_open, Hc.
    - exists s, []. split; [reflexivity | apply dispatches_refl]. }
  exists s1, o1. unfold Bridge.stdin_on_end, bind, get. rewrite E.
  unfold modify. rewrite checkExit_eq. unfold finish.
  destruct (stdinClosed (set_stdinClosed true s1) &&
            (pendingRequests (set_stdinClosed true s1) =? 0)%Z);
    eexists; split; try exact D; reflexivity.
Qed.

Lemma on_response_eq id headers s :
  on_response id headers s =
  let s1 := match supplied_token headers with
            | Some v => set_sessionId (Some v) s
            | None => s
            end in
  (Some tt,
   with_call id
     (match calls s !! id with
      | Some (Failed _) => Failed (Some (or_empty (content_type headers), []))
      | _ => Receiving (or_empty (content_type headers)) []
      end) s1,
   []).
Proof.
  unfold on_response, supplied_token, bind, modify, ret, with_call.
  destruct (mcp_session_id headers) as [|v|l];
    [| destruct (JS.truthy v) |];
    cbn [calls set_sessionId]; destruct (calls s !! id) as [[| | |]|]; reflexivity.
Qed.

Lemma for_of_written events s :
  for_of events
    (fun response =>
       if JSON.truthy response
       then emit (StdoutWrite (JSON_stringify response ++ [LF]))
       else ret tt) s
  = (Some tt, s, written JSON_stringify events).
Proof.
  unfold written. induction events as [|v events IH]; cbn [for_of List.filter map].
  - reflexivity.
  - unfold bind. destruct (JSON.truthy v) eqn:T;
      unfold emit, ret in *; cbv beta iota; rewrite IH; reflexivity.
Qed.

(** The ['end'] listener while the promise is pending. *)
Lemma res_on_end_eq id contentType body s :
  calls s !! id = Some (Receiving contentType body) ->
  exists r,
    res_on_end id s =
    (r, fst (finish (with_call id Ended (decremented s))),
     written JSON_stringify (decoded JSON_parse contentType body)
     ++ snd (finish (with_call id Ended (decremented s)))).
Proof.
  intros H. unfold Bridge.res_on_end, bind, modify, get.
  cbn [calls set_pendingRequests]. rewrite H, decode_normal.
  unfold Bridge.processLine_resume, bind. rewrite for_of_written.
  unfold processLine_finally. rewrite checkExit_eq.
  change (set_calls (<[id := Ended]> (calls (set_pendingRequests (pendingRequests s - 1) s)))
            (set_pendingRequests (pendingRequests s - 1) s))
    with (with_call id Ended (decremented s)).
  unfold finish.
  destruct (stdinClosed (with_call id Ended (decremented s)) &&
            (pendingRequests (with_call id Ended (decremented s)) =? 0)%Z);
    eexists; reflexivity.
Qed.

(** The ['end'] listener after the promise was rejected: the counter goes
    down again and nothing else happens. *)
Lemma res_on_end_failed id contentType body s :
  calls s !! id = Some (Failed (Some (contentType, body))) ->
  res_on_end id s = (Some tt, without_call id (decremented s), []).
Proof.
  intros H. unfold Bridge.res_on_end, bind, modify, get.
  cbn [calls set_pendingRequests]. rewrite H, decode_normal. reflexivity.
Qed.

Lemma processLine_resume_throw err s :
  exists r,
    processLine_resume (Throw err) s =
    (r, fst (finish s),
     [StderrWrite (error_prefix ++ message err ++ [LF])] ++ snd (finish s)).
Proof.
  unfold Bridge.processLine_resume, bind, processLine_catch, processLine_finally, emit.
  rewrite checkExit_eq. unfold finish.
  destruct (stdinClosed s && (pendingRequests s =? 0)%Z); eexists; reflexivity.
Qed.

(** The ['error'] listener while the promise is pending. *)
Lemma req_on_error_eq id err s c :
  calls s !! id = Some c ->
  c = Sent \/ (exists contentType body, c = Receiving contentType body) ->
  exists r,
    req_on_error id err s =
    (r, fst (finish (with_call id (rejected c) (decremented s))),
     [StderrWrite (error_prefix ++ message err ++ [LF])]
     ++ snd (finish (with_call id (rejected c) (decremented s)))).
Proof.
  intros H Hc.
  destruct (processLine_resume_throw err (with_call id (rejected c) (decremented s)))
    as (r & E).
  unfold Bridge.req_on_error, bind, modify, get.
  cbn [calls set_pendingRequests]. rewrite H.
  destruct Hc as [->|(ct & body & ->)]; cbn [rejected] in *;
    unfold with_call, decremented in E; cbn [calls set_pendingRequests] in E |- *;
    rewrite E; eexists; reflexivity.
Qed.

(** The ['error'] listener after the promise was resolved. *)
Lemma req_on_error_ended id err s :
  calls s !! id = Some Ended ->
  req_on_error id err s = (Some tt, without_call id (decremented s), []).
Proof.
  intros H. unfold Bridge.req_on_error, bind, modify, get.
  cbn [calls set_pendingRequests]. rewrite H. reflexivity.
Qed.

Lemma issued_written events : issued (written JSON_stringify events) = [].
Proof.
  unfold written. induction (List.filter JSON.truthy events); [reflexivity|assumption].
Qed.

Lemma written_no_exit events c : ~ In (Exit c) (written JSON_stringify events).
Proof.
  unfold written. induction (List.filter JSON.truthy events) as [|v l IH]; cbn.
  - tauto.
  - intros [H|H]; [discriminate | auto].
Qed.

(** The state and the effects of each event that can occur. *)
Lemma step_cases s e s' o :
  step s e = Some (s', o) ->
  exitCode s = None /\
  match e with
  | StdinData chunk =>
      stdinClosed s = false /\
      exists popped lines,
        pop (split LF (buffer s ++ chunk)) = (popped, lines) /\
        for_of lines processLine (set_buffer (or_empty popped) s) = (Some tt, s', o) /\
        dispatches (set_buffer (or_empty popped) s) s' o
  | StdinEnd =>
      stdinClosed s = false /\
      exists s1 o1,
        for_of (framer_run (buffer s) []) processLine s = (Some tt, s1, o1) /\
        dispatches s s1 o1 /\
        s' = fst (finish (set_stdinClosed true s1)) /\
        o = o1 ++ snd (finish (set_stdinClosed true s1))
  | Response id headers =>
      exists c,
        calls s !! id = Some c /\ (c = Sent \/ c = Failed None) /\ o = [] /\
        s' = with_call id
               (match c with
                | Failed _ => Failed (Some (or_empty (content_type headers), []))
                | _ => Receiving (or_empty (content_type headers)) []
                end)
               (match supplied_token headers with
                | Some v => set_sessionId (Some v) s
                | None => s
                end)
  | ResData id chunk =>
      o = [] /\
      exists contentType body,
        (calls s !! id = Some (Receiving contentType body) /\
         s' = with_call id (Receiving contentType (body ++ chunk)) s) \/
        (calls s !! id = Some (Failed (Some (contentType, body))) /\
         s' = with_call id (Failed (Some (contentType, body ++ chunk))) s)
  | ResEnd id =>
      exists contentType body,
        (calls s !! id = Some (Receiving contentType body) /\
         s' = fst (finish (with_call id Ended (decremented s))) /\
         o = written JSON_stringify (decoded JSON_parse contentType body)
             ++ snd (finish (with_call id Ended (decremented s)))) \/
        (calls s !! id = Some (Failed (Some (contentType, body))) /\
         s' = without_call id (decremented s) /\ o = [])
  | ReqError id err =>
      (exists c,
         calls s !! id = Some c /\
         (c = Sent \/ exists contentType body, c = Receiving contentType body) /\
         s' = fst (finish (with_call id (rejected c) (decremented s))) /\
         o = [StderrWrite (error_prefix ++ message err ++ [LF])]
             ++ snd (finish (with_call id (rejected c) (decremented s)))) \/
      (calls s !! id = Some Ended /\ s' = without_call id (decremented s) /\ o = [])
  | Close id =>
      is_Some (calls s !! id) /\ s' = without_call id s /\ o = []
  | LoopEmpty =>
      stdinClosed s = true /\ calls s = ∅ /\
      s' = set_exitCode (Some 0%Z) s /\ o = [Exit 0%Z]
  end.
Proof.
  unfold Bridge.step, enabled.
  destruct (exitCode s) eqn:He; [discriminate|].
  destruct e as [chunk| |id headers|id chunk|id|id err|id|]; cbn [Bridge.handle].
  - destruct (stdinClosed s) eqn:Hc; [discriminate|]. cbn [negb].
    rewrite stdin_on_data_eq.
    destruct (pop (split LF (buffer s ++ chunk))) as [popped lines].
    destruct (for_of_processLine_open lines (set_buffer (or_empty popped) s) Hc)
      as (s1 & o1 & E & D).
    rewrite E. intros [= <- <-]. split; [reflexivity|]. split; [reflexivity|].
    exists popped, lines. split; [reflexivity|]. split; [exact E | exact D].
  - destruct (stdinClosed s) eqn:Hc; [discriminate|]. cbn [negb].
    change (framer_run (buffer s) [])
      with (if JS.truthy (trim (buffer s)) then [buffer s] else []).
    assert (exists s1 o1,
      for_of (if JS.truthy (trim (buffer s)) then [buffer s] else []) processLine s
        = (Some tt, s1, o1) /\ dispatches s s1 o1 /\
      (if JS.truthy (trim (buffer s)) then processLine (buffer s) else ret tt) s
        = (Some tt, s1, o1)) as (s1 & o1 & E & D & E').
    { destruct (JS.truthy (trim (buffer s))); cbn [for_of].
      - destruct (processLine_open (buffer s) s Hc) as (s1 & o1 & E & D).
        exists s1, o1. split; [|auto].
        unfold bind. rewrite E. unfold ret. rewrite app_nil_r. reflexivity.
      - exists s, []. split; [reflexivity|].
        split; [apply dispatches_refl | reflexivity]. }
    unfold Bridge.stdin_on_end, bind, get. rewrite E'.
    unfold modify. rewrite checkExit_eq. unfold finish.
    intros H. split; [reflexivity|]. split; [reflexivity|]. exists s1, o1.
    split; [exact E|]. split; [exact D|].
    destruct (stdinClosed (set_stdinClosed true s1) &&
              (pendingRequests (set_stdinClosed true s1) =? 0)%Z);
      injection H as <- <-; split; reflexivity.
  - rewrite on_response_eq. cbv zeta.
    destruct (calls s !! id) as [[| |[[ct body]|]|]|] eqn:Hid; try discriminate;
      intros [= <- <-]; (split; [reflexivity|]); eexists; (split; [reflexivity|]);
      auto.
  - unfold res_on_data, modify.
    destruct (calls s !! id) as [[|ct body|[[ct body]|]|]|] eqn:Hid; try discriminate;
      intros [= <- <-]; (split; [reflexivity|]); (split; [reflexivity|]);
      exists ct, body; auto.
  - destruct (calls s !! id) as [[|ct body|[[ct body]|]|]|] eqn:Hid; try discriminate.
    + destruct (res_on_end_eq id ct body s Hid) as (r & E).
      rewrite E. intros [= <- <-]. split; [reflexivity|]. exists ct, body. auto.
    + rewrite (res_on_end_failed id ct body s Hid). intros [= <- <-].
      split; [reflexivity|]. exists ct, body. auto.
  - destruct (calls s !! id) as [[|ct body|cl|]|] eqn:Hid; try discriminate.
    + destruct (req_on_error_eq id err s Sent Hid) as (r & E); [auto|].
      rewrite E. intros [= <- <-]. split; [reflexivity|]. left. eexists. eauto.
    + destruct (req_on_error_eq id err s (Receiving ct body) Hid) as (r & E); [eauto|].
      rewrite E. intros [= <- <-]. split; [reflexivity|]. left. eexists.
      split; [reflexivity|]. split; [eauto|]. auto.
    + rewrite (req_on_error_ended id err s Hid). intros [= <- <-].
      split; [reflexivity|]. auto.
  - destruct (calls s !! id) as [[| | |]|] eqn:Hid; try discriminate;
      unfold modify; intros [= <- <-]; (split; [reflexivity|]);
      (split; [eauto|]); auto.
  - destruct (stdinClosed s) eqn:Hc; [|discriminate]. cbn [andb].
    destruct (Nat.eqb (size (calls s)) 0) eqn:Hz; [|discriminate].
    unfold loop_empty. intros [= <- <-]. split; [reflexivity|].
    split; [reflexivity|]. split; [|auto].
    apply map_size_empty_inv, Nat.eqb_eq, Hz.
Qed.

(** *** Preservation of the invariant *)

Lemma dispatches_no_exit s s1 o1 c : dispatches s s1 o1 -> ~ In (Exit c) o1.
Proof.
  intros [] H. rewrite Forall_forall in d_effects0.
  apply list_elem_of_In, d_effects0 in H as [H _]. discriminate.
Qed.

Lemma Invariant_set_buffer token s out b :
  Invariant token s out -> Invariant token (set_buffer b s) out.
Proof. intros []. constructor; assumption. Qed.

Lemma Invariant_set_stdinClosed token s out b :
  Invariant token s out -> Invariant token (set_stdinClosed b s) out.
Proof. intros []. constructor; assumption. Qed.

Lemma Invariant_dispatch token s out s1 o1 :
  Invariant token s out ->
  dispatches s s1 o1 ->
  Invariant token s1 (out ++ o1).
Proof.
  intros [] D. constructor.
  - apply (d_wf _ _ _ D). assumption.
  - rewrite issued_app, inv_issued0, (d_issued _ _ _ D), (d_next _ _ _ D), seq_app.
    reflexivity.
  - rewrite (d_session _ _ _ D). assumption.
  - intros c. rewrite (d_exit _ _ _ D). auto.
  - intros c. rewrite (d_exit _ _ _ D), <- inv_exit_effect0, in_app_iff.
    split; [|tauto]. intros [H|H]; [assumption|].
    destruct (dispatches_no_exit _ _ _ _ D H).
Qed.

(** A callback that sends nothing, does not end the process and leaves the
    token as it is. *)
Lemma Invariant_quiet token s out s' o :
  Invariant token s out ->
  nextCall s' = nextCall s ->
  sessionId s' = sessionId s ->
  exitCode s' = exitCode s ->
  wf s' ->
  issued o = [] ->
  (forall c, ~ In (Exit c) o) ->
  Invariant token s' (out ++ o).
Proof.
  intros [] Hn Hs He Hw Hi Hx. constructor.
  - exact Hw.
  - rewrite issued_app, Hi, app_nil_r, Hn. assumption.
  - congruence.
  - intros c. rewrite He. auto.
  - intros c. rewrite He, <- inv_exit_effect0, in_app_iff.
    split; [|tauto]. intros [H|H]; [assumption|destruct (Hx _ H)].
Qed.

(** [checkExit] keeps the invariant. *)
Lemma Invariant_finish token s out :
  Invariant token s out ->
  exitCode s = None ->
  Invariant token (fst (finish s)) (out ++ snd (finish s)).
Proof.
  intros [] He. unfold finish.
  destruct (stdinClosed s && (pendingRequests s =? 0)%Z); cbn [fst snd].
  - constructor; try assumption.
    + rewrite issued_app, app_nil_r. assumption.
    + cbn. intros c [= <-]. reflexivity.
    + intros c. rewrite in_app_iff, inv_exit_effect0, He. cbn.
      split; [intros [H|[H|[]]]; congruence | intros [= <-]; auto].
  - rewrite app_nil_r. constructor; assumption.
Qed.

Lemma wf_with_call id c s : wf s -> is_Some (calls s !! id) -> wf (with_call id c s).
Proof.
  intros Hw Hid j. cbn [with_call nextCall calls set_calls].
  rewrite lookup_insert_is_Some'. intros [<-|Hj]; auto.
Qed.

Lemma wf_without_call id s : wf s -> wf (without_call id s).
Proof.
  intros Hw j. cbn [without_call nextCall calls set_calls].
  rewrite lookup_delete_is_Some. intros [_ Hj]. auto.
Qed.

Lemma last_token_app token a b :
  last_token token (a ++ b) = last_token (last_token token a) b.
Proof.
  revert token. induction a as [|e a IH]; intros token; cbn [app last_token].
  - reflexivity.
  - destruct e; apply IH.
Qed.

Lemma Inv_init : Inv [] init [].
Proof.
  unfold Inv. constructor;
    cbn [init pendingRequests calls nextCall sessionId exitCode stdinClosed In].
  - intros id. cbn [init calls]. rewrite lookup_empty. intros [? ?]. discriminate.
  - reflexivity.
  - reflexivity.
  - discriminate.
  - intros c. split; [tauto | discriminate].
Qed.

(** Every event preserves the invariant. *)
Lemma step_Inv events s out e s' o :
  Inv events s out ->
  step s e = Some (s', o) ->
  Inv (events ++ [e]) s' (out ++ o).
Proof.
  intros HI E. apply step_cases in E as [He E].
  unfold Inv in *. rewrite last_token_app.
  assert (Hq : forall s1 o1,
            nextCall s1 = nextCall s -> sessionId s1 = sessionId s ->
            exitCode s1 = None -> wf s1 -> issued o1 = [] ->
            (forall c, ~ In (Exit c) o1) ->
            Invariant (last_token None events) s1 (out ++ o1)).
  { intros s1 o1 H1 H2 H3 H4 H5 H6.
    apply (Invariant_quiet _ s); try assumption. congruence. }
  pose proof (inv_wf _ _ _ HI) as Hw.
  destruct e as [chunk| |id headers|id chunk|id|id err|id|]; cbn [last_token].
  - destruct E as (Hc & popped & lines & _ & _ & D).
    eapply Invariant_dispatch; [apply Invariant_set_buffer, HI|exact D].
  - destruct E as (Hc & s1 & o1 & _ & D & -> & ->). rewrite app_assoc.
    apply Invariant_finish.
    + apply Invariant_set_stdinClosed. eapply Invariant_dispatch; eassumption.
    + cbn. rewrite (d_exit _ _ _ D). exact He.
  - destruct E as (c & Hid & _ & -> & ->). rewrite app_nil_r.
    destruct (supplied_token headers) as [v|].
    + constructor; try apply HI.
      * apply wf_with_call; [exact Hw|]. cbn. rewrite Hid. eauto.
      * reflexivity.
    + assert (HI' : Invariant (last_token None events)
                      (with_call id
                         match c with
                         | Failed _ => Failed (Some (or_empty (content_type headers), []))
                         | _ => Receiving (or_empty (content_type headers)) []
                         end s) (out ++ [])).
      { apply Hq; try reflexivity; try assumption; [|intros ? []].
        apply wf_with_call; [exact Hw|rewrite Hid; eauto]. }
      rewrite app_nil_r in HI'. destruct (last_token None events); exact HI'.
  - destruct E as (-> & ct & body & [[Hid ->]|[Hid ->]]);
      (apply Hq; try reflexivity; try assumption; [|intros ? []]);
      (apply wf_with_call; [exact Hw|rewrite Hid; eauto]).
  - destruct E as (ct & body & [(Hid & -> & ->)|(Hid & -> & ->)]).
    + rewrite app_assoc. apply Invariant_finish; [|exact He].
      apply Hq; try reflexivity; try assumption.
      * apply (wf_with_call _ _ (decremented s)); [exact Hw|cbn; rewrite Hid; eauto].
      * apply issued_written.
      * intros c. apply written_no_exit.
    + apply Hq; try reflexivity; try assumption; [|intros ? []].
      apply (wf_without_call _ (decremented s)), Hw.
  - destruct E as [(c & Hid & _ & -> & ->)|(Hid & -> & ->)].
    + rewrite app_assoc. apply Invariant_finish; [|exact He].
      apply Hq; try reflexivity; try assumption.
      * apply (wf_with_call _ _ (decremented s)); [exact Hw|cbn; rewrite Hid; eauto].
      * intros c' [H|[]]. discriminate.
    + apply Hq; try reflexivity; try assumption; [|intros ? []].
      apply (wf_without_call _ (decremented s)), Hw.
  - destruct E as (Hid & -> & ->).
    apply Hq; try reflexivity; try assumption; [|intros ? []].
    apply wf_without_call, Hw.
  - destruct E as (Hc & Hm & -> & ->). destruct HI. constructor; try assumption.
    + rewrite issued_app, app_nil_r. assumption.
    + cbn. intros c [= <-]. reflexivity.
    + intros c. rewrite in_app_iff, inv_exit_effect0, He. cbn.
      split; [intros [H|[H|[]]]; congruence | intros [= <-]; auto].
Qed.

Lemma run_Inv_from events : forall events0 s0 out0 s out,
  Inv events0 s0 out0 ->
  run s0 events = Some (s, out) ->
  Inv (events0 ++ events) s (out0 ++ out).
Proof.
  induction events as [|e events IH]; intros events0 s0 out0 s out HI; cbn [Bridge.run].
  - intros [= <- <-]. rewrite !app_nil_r. exact HI.
  - destruct (step s0 e) as [[s1 o1]|] eqn:E1; [|discriminate].
    destruct (run s1 events) as [[s2 o2]|] eqn:E2; [|discriminate].
    intros [= <- <-].
    replace (events0 ++ e :: events) with ((events0 ++ [e]) ++ events)
      by (rewrite <- app_assoc; reflexivity).
    rewrite app_assoc. eapply IH; [|exact E2].
    eapply step_Inv; eassumption.
Qed.

(** The invariant holds after every run from the initial state. *)
Lemma run_Inv events s out : run init events = Some (s, out) -> Inv events s out.
Proof. intros H. exact (run_Inv_from events [] init [] s out Inv_init H). Qed.

Lemma run_snoc events : forall s0 s out e s' o,
  run s0 events = Some (s, out) ->
  step s e = Some (s', o) ->
  run s0 (events ++ [e]) = Some (s', out ++ o).
Proof.
  induction events as [|e0 events IH]; intros s0 s out e s' o; cbn [Bridge.run app].
  - intros [= <- <-] E. rewrite E, app_nil_r. reflexivity.
  - destruct (step s0 e0) as [[s1 o1]|]; [|discriminate].
    destruct (run s1 events) as [[s2 o2]|] eqn:E2; [|discriminate].
    intros [= <- <-] E. rewrite (IH _ _ _ _ _ _ E2 E), app_assoc. reflexivity.
Qed.

(** *** The session header of the requests *)

Lemma last_token_nonempty events : forall token,
  token <> Some [] -> last_token token events <> Some [].
Proof.
  induction events as [|e events IH]; intros token H; cbn [last_token].
  - exact H.
  - destruct e; try (apply IH; exact H).
    apply IH. unfold supplied_token.
    destruct (mcp_session_id headers) as [|v|l]; try exact H.
    destruct v; [exact H | discriminate].
Qed.

Lemma sent_headers_with token :
  token <> Some [] -> sent_headers token = headers_with token.
Proof.
  unfold sent_headers, headers_with. destruct token as [[|c v]|]; try reflexivity.
  intros H. congruence.
Qed.

(** Only the stdin callbacks send requests, all with the headers of the
    token the callback found. *)
Lemma step_requests s e s' o id headers body :
  step s e = Some (s', o) ->
  In (HttpRequest id headers body) o ->
  headers = sent_headers (sessionId s).
Proof.
  intros E Hin. apply step_cases in E as [_ E].
  assert (Hd : forall s0 s1 o1, dispatches s0 s1 o1 ->
             In (HttpRequest id headers body) o1 ->
             headers = sent_headers (sessionId s0)).
  { intros s0 s1 o1 D H. pose proof (d_effects _ _ _ D) as F.
    rewrite Forall_forall in F.
    apply list_elem_of_In, F in H as (_ & _ & H). apply H. reflexivity. }
  assert (Hf : forall s0, ~ In (HttpRequest id headers body) (snd (finish s0))).
  { intros s0. unfold finish. destruct (_ && _); cbn; [intros [?|[]]; discriminate | tauto]. }
  destruct e as [chunk| |id' hs|id' chunk|id'|id' err|id'|].
  - destruct E as (_ & popped & lines & _ & _ & D). apply (Hd _ _ _ D Hin).
  - destruct E as (_ & s1 & o1 & _ & D & _ & ->).
    apply in_app_iff in Hin as [Hin|Hin]; [apply (Hd _ _ _ D Hin) | destruct (Hf _ Hin)].
  - destruct E as (c & _ & _ & -> & _). destruct Hin.
  - destruct E as (-> & _). destruct Hin.
  - destruct E as (ct & b & [(_ & _ & ->)|(_ & _ & ->)]); [|destruct Hin].
    apply in_app_iff in Hin as [Hin|Hin]; [|destruct (Hf _ Hin)].
    unfold written in Hin. apply in_map_iff in Hin as (v & Hv & _). discriminate.
  - destruct E as [(c & _ & _ & _ & ->)|(_ & _ & ->)]; [|destruct Hin].
    destruct Hin as [Hin|Hin]; [discriminate | destruct (Hf _ Hin)].
  - destruct E as (_ & _ & ->). destruct Hin.
  - destruct E as (_ & _ & _ & ->). destruct Hin as [Hin|[]]. discriminate.
Qed.

(** *** Computations that do not touch the buffer *)

Lemma buffer_blind_ret {A} (a : A) : buffer_blind (ret a).
Proof. intros b s. reflexivity. Qed.

Lemma buffer_blind_bind {A B} (m : M A) (k : A -> M B) :
  buffer_blind m -> (forall a, buffer_blind (k a)) -> buffer_blind (bind m k).
Proof.
  intros Hm Hk b s. unfold bind. rewrite Hm.
  destruct (m s) as [[[a|] s1] o1]; cbn [with_buffer]; [|reflexivity].
  rewrite Hk. destruct (k a s1) as [[r s2] o2]. reflexivity.
Qed.

Lemma buffer_blind_checkExit : buffer_blind checkExit.
Proof.
  intros b s. rewrite !checkExit_eq. cbn [stdinClosed pendingRequests set_buffer].
  destruct (_ && _); reflexivity.
Qed.

Lemma buffer_blind_close : buffer_blind (modify (set_stdinClosed true)).
Proof. intros b s. reflexivity. Qed.

Lemma buffer_blind_processLine line : buffer_blind (processLine line).
Proof.
  intros b s. destruct (is_blank line) eqn:B.
  - rewrite !processLine_blank by assumption. reflexivity.
  - destruct (JSON_parse line) as [v|e] eqn:P.
    + rewrite !(processLine_request _ _ _ B P). reflexivity.
    + rewrite !(processLine_bad _ _ _ B P).
      cbn [stdinClosed pendingRequests set_buffer].
      destruct (_ && _); reflexivity.
Qed.

Lemma buffer_blind_for_of lines : buffer_blind (for_of lines processLine).
Proof.
  induction lines as [|line lines IH]; cbn [for_of].
  - apply buffer_blind_ret.
  - apply buffer_blind_bind; [apply buffer_blind_processLine | intros _; exact IH].
Qed.

(** *** Runs that only read stdin *)

Lemma bind_assoc {A B C} (m : M A) (k : A -> M B) (h : B -> M C) s :
  bind (bind m k) h s = bind m (fun a => bind (k a) h) s.
Proof.
  unfold bind. destruct (m s) as [[[a|] s1] o1]; [|reflexivity].
  destruct (k a s1) as [[[b|] s2] o2]; [|reflexivity].
  destruct (h b s2) as [[r s3] o3]. rewrite app_assoc. reflexivity.
Qed.

Lemma bind_ret_r {A} (m : M A) s : bind m ret s = m s.
Proof.
  unfold bind, ret. destruct (m s) as [[[a|] s1] o1]; [|reflexivity].
  rewrite app_nil_r. reflexivity.
Qed.

Lemma for_of_app_bind {A B} (f : A -> M unit) (l1 l2 : list A) (K : unit -> M B) s :
  bind (for_of (l1 ++ l2) f) K s =
  bind (for_of l1 f) (fun _ => bind (for_of l2 f) K) s.
Proof.
  rewrite <- bind_assoc. unfold bind at 1 3. rewrite for_of_app. reflexivity.
Qed.

Lemma final_buffer_concat chunks : forall buffer lines rest,
  no_newline buffer = true ->
  pop (split LF (buffer ++ concat chunks)) = (Some rest, lines) ->
  final_buffer buffer chunks = rest.
Proof.
  induction chunks as [|chunk chunks IH]; intros buffer lines rest Hb Hp;
    cbn [final_buffer concat] in *.
  - rewrite app_nil_r in Hp.
    rewrite (split_no_sep LF buffer) in Hp by (apply no_newline_existsb, Hb).
    change [buffer] with ([] ++ [buffer]) in Hp. rewrite pop_snoc in Hp.
    congruence.
  - destruct (pop_split_frames (buffer ++ chunk)) as (l1 & r1 & P1 & E1 & F1 & R1).
    rewrite P1. cbn [fst]. rewrite or_empty_Some.
    destruct (pop_split_frames (r1 ++ concat chunks)) as (l2 & r2 & P2 & E2 & F2 & R2).
    rewrite (IH r1 l2 r2 R1 P2).
    assert (Hp' : pop (split LF (buffer ++ chunk ++ concat chunks)) = (Some r2, l1 ++ l2)).
    { rewrite app_assoc, E1, <- app_assoc, E2, app_assoc, <- unlines_app.
      apply pop_split_unlines; [apply Forall_app; split|]; assumption. }
    congruence.
Qed.

(** A run in which the chunks arrive and stdin ends, with no response in
    between, hands exactly the lines of [framer_run] to [processLine], in
    order, and then closes. *)
Lemma run_stdin chunks : forall s,
  stdinClosed s = false ->
  exitCode s = None ->
  run s (map StdinData chunks ++ [StdinEnd]) =
  Some (exec (bind (for_of (framer_run (buffer s) chunks) processLine)
                (fun _ => bind (modify (set_stdinClosed true)) (fun _ => checkExit)))
          (set_buffer (final_buffer (buffer s) chunks) s)).
Proof.
  induction chunks as [|chunk chunks IH]; intros s Hc He;
    cbn [map app Bridge.run framer_run final_buffer].
  - unfold Bridge.step, enabled. rewrite He, Hc. cbn [negb Bridge.handle].
    replace (set_buffer (buffer s) s) with s by (destruct s; reflexivity).
    unfold Bridge.stdin_on_end, exec.
    assert (E : forall K : unit -> M unit,
      bind get (fun s0 =>
        bind (if JS.truthy (trim (buffer s0)) then processLine (buffer s0) else ret tt) K) s
      = bind (for_of (if JS.truthy (trim (buffer s)) then [buffer s] else []) processLine) K s).
    { intros K. unfold bind at 1. unfold get.
      destruct (JS.truthy (trim (buffer s))); cbn [for_of].
      - rewrite bind_assoc. unfold bind, ret.
        destruct (processLine (buffer s) s) as [[[u|] s1] o1]; [|reflexivity].
        destruct u. destruct (K tt s1) as [[r2 s2] o2]. reflexivity.
      - destruct (bind (ret tt) K s) as [[r2 s2] o2]. reflexivity. }
    rewrite E. destruct (bind _ _ s) as [[r s1] o1]. rewrite app_nil_r. reflexivity.
  - unfold Bridge.step at 1, enabled. rewrite He, Hc. cbn [negb Bridge.handle].
    rewrite stdin_on_data_eq.
    destruct (pop (split LF (buffer s ++ chunk))) as [popped lines]. cbn [fst].
    set (r := or_empty popped).
    destruct (for_of_processLine_open lines s Hc) as (s1 & o1 & E1 & D1).
    rewrite (buffer_blind_for_of lines r s), E1. cbn [with_buffer].
    rewrite IH; cbn [buffer stdinClosed exitCode set_buffer];
      [|rewrite (d_closed _ _ _ D1); exact Hc | rewrite (d_exit _ _ _ D1); exact He].
    unfold exec. rewrite for_of_app_bind.
    unfold bind at 3. rewrite (buffer_blind_for_of lines _ s), E1. cbn [with_buffer].
    replace (set_buffer (final_buffer r chunks) (set_buffer r s1))
      with (set_buffer (final_buffer r chunks) s1) by reflexivity.
    destruct (bind _ _ (set_buffer (final_buffer r chunks) s1)) as [[r2 s2] o2].
    reflexivity.
Qed.

(** A chunk of complete lines arriving on an empty buffer. *)
Lemma step_lines s lines :
  exitCode s = None ->
  stdinClosed s = false ->
  buffer s = [] ->
  Forall (fun l => no_newline l = true) lines ->
  step s (StdinData (unlines lines)) = Some (exec (for_of lines processLine) s).
Proof.
  intros He Hc Hb F. unfold Bridge.step, enabled. rewrite He, Hc.
  cbn [negb Bridge.handle]. rewrite stdin_on_data_eq, Hb. cbn [app].
  rewrite <- (app_nil_r (unlines lines)).
  rewrite (pop_split_unlines lines [] F eq_refl). cbn [or_empty JS.truthy].
  replace (set_buffer [] s) with s by (destruct s; cbn in Hb; subst; reflexivity).
  unfold exec. destruct (for_of lines processLine s) as [[r s1] o1]. reflexivity.
Qed.

Lemma filter_stdout_written events :
  List.filter is_stdout (written JSON_stringify events) = written JSON_stringify events.
Proof.
  unfold written. induction (List.filter JSON.truthy events) as [|v l IH]; cbn.
  - reflexivity.
  - f_equal. exact IH.
Qed.

Lemma filter_stdout_finish s : List.filter is_stdout (snd (finish s)) = [].
Proof. unfold finish. destruct (_ && _); reflexivity. Qed.

End BridgeFacts.

(* ===================================================================== *)
(** ** The parser *)
(* ===================================================================== *)

Section ParserFacts.

Import JS JSON Spec.

Lemma skip_ws_suffix s c r :
  skip_ws s = c :: r ->
  is_json_ws c = false /\ (forallb is_ws s = true -> is_ws c = true).
Proof.
  induction s as [|x s IH]; cbn [skip_ws forallb]; [discriminate|].
  destruct (is_json_ws x) eqn:E.
  - intros H. destruct (IH H) as [H1 H2]. split; [exact H1|].
    intros Hb. apply andb_prop in Hb as [_ Hb]. auto.
  - intros [= <- <-]. split; [exact E|].
    intros Hb. apply andb_prop in Hb as [Hb _]. exact Hb.
Qed.

(** White space that is not JSON white space starts no JSON value. *)
Lemma parse_value_blank fuel s :
  is_blank s = true -> parse_value fuel s = None.
Proof.
  unfold is_blank. intros Hb. destruct fuel as [|fuel]; [reflexivity|].
  cbn [parse_value]. destruct (skip_ws s) as [|c r] eqn:E; [reflexivity|].
  destruct (skip_ws_suffix s c r E) as [Hj Hw]. specialize (Hw Hb).
  unfold is_ws in Hw. apply existsb_exists in Hw as (x & Hin & Hx).
  apply N.eqb_eq in Hx. subst x.
  unfold whitespace in Hin. cbn [In] in Hin.
  repeat (destruct Hin as [<-|Hin]; [first [discriminate Hj | reflexivity]|]).
  destruct Hin.
Qed.

Lemma parse_blank s : is_blank s = true -> JSON.parse s = None.
Proof. intros H. unfold JSON.parse. rewrite parse_value_blank by exact H. reflexivity. Qed.

Lemma JSON_parse_blank s :
  is_blank s = true -> Platform.JSON_parse s = Bridge.Throw Platform.syntax_error.
Proof. intros H. unfold Platform.JSON_parse. rewrite parse_blank by exact H. reflexivity. Qed.

(** *** Fuel *)

Lemma skip_ws_length s : (length (skip_ws s) <= length s)%nat.
Proof.
  induction s as [|c r IH]; cbn [skip_ws length]; [lia|].
  destruct (is_json_ws c); cbn [length]; lia.
Qed.

Lemma parse_chars_length n : forall s acc str rest,
  (length s <= n)%nat ->
  parse_chars s acc = Some (str, rest) -> (length rest < length s)%nat.
Proof.
  induction n as [|n IH]; intros s acc str rest Hn.
  - destruct s; [discriminate | cbn in Hn; lia].
  - destruct s as [|c r]; [discriminate|]. cbn [parse_chars length] in *.
    destruct (c =? 34); [intros [= _ <-]; lia|].
    destruct (c =? 92).
    + destruct r as [|e r1]; [discriminate|]. cbn [length] in *.
      destruct (e =? 117).
      * destruct r1 as [|h1 [|h2 [|h3 [|h4 r2]]]]; try discriminate.
        destruct (hex4 h1 h2 h3 h4); [|discriminate].
        intros H. apply IH in H; cbn [length] in *; lia.
      * destruct (escape e); [|discriminate].
        intros H. apply IH in H; lia.
    + destruct (c <? 32); [discriminate|].
      intros H. apply IH in H; lia.
Qed.

Lemma span_digits_length s : forall ds rest,
  span_digits s = (ds, rest) -> length s = (length ds + length rest)%nat.
Proof.
  induction s as [|c r IH]; intros ds rest; cbn [span_digits].
  - intros [= <- <-]. reflexivity.
  - destruct (is_digit c).
    + destruct (span_digits r) as [ds' rest'] eqn:E. intros [= <- <-].
      cbn [length]. rewrite (IH _ _ eq_refl). reflexivity.
    + intros [= <- <-]. reflexivity.
Qed.

Lemma parse_int_part_length s ip rest :
  parse_int_part s = Some (ip, rest) -> (length rest < length s)%nat.
Proof.
  unfold parse_int_part.
  destruct (span_digits s) as [[|d ds] s2] eqn:E1; [discriminate|].
  apply span_digits_length in E1. cbn [length] in E1.
  destruct ((d =? 48) && JS.truthy ds); [discriminate|].
  intros [= _ <-]. lia.
Qed.

Lemma parse_frac_length s fp rest :
  parse_frac s = Some (fp, rest) -> (length rest <= length s)%nat.
Proof.
  unfold parse_frac. destruct s as [|c r]; [intros [= _ <-]; lia|].
  destruct (c =? 46); [|intros [= _ <-]; lia].
  destruct (span_digits r) as [[|x xs] rest'] eqn:E2; [discriminate|].
  apply span_digits_length in E2. intros [= _ <-]. cbn [length] in *. lia.
Qed.

Lemma parse_exp_digits_length sign s e rest :
  parse_exp_digits sign s = Some (e, rest) -> (length rest <= length s)%nat.
Proof.
  unfold parse_exp_digits.
  destruct (span_digits s) as [[|x xs] rest'] eqn:E; [discriminate|].
  apply span_digits_length in E. intros [= _ <-]. lia.
Qed.

Lemma parse_exp_length s e rest :
  parse_exp s = Some (e, rest) -> (length rest <= length s)%nat.
Proof.
  unfold parse_exp. destruct s as [|c r]; [intros [= _ <-]; lia|].
  destruct ((c =? 101) || (c =? 69)); [|intros [= _ <-]; lia].
  destruct r as [|c1 r1]; [discriminate|].
  destruct (c1 =? 43); [|destruct (c1 =? 45)];
    intros H; apply parse_exp_digits_length in H; cbn [length] in *; lia.
Qed.

Lemma parse_unsigned_length neg s v rest :
  parse_unsigned neg s = Some (v, rest) -> (length rest < length s)%nat.
Proof.
  unfold parse_unsigned.
  destruct (parse_int_part s) as [[ip s2]|] eqn:E1; [|discriminate].
  destruct (parse_frac s2) as [[fp s3]|] eqn:E2; [|discriminate].
  destruct (parse_exp s3) as [[e s4]|] eqn:E3; [|discriminate].
  apply parse_int_part_length in E1. apply parse_frac_length in E2.
  apply parse_exp_length in E3. intros [= _ <-]. lia.
Qed.

Lemma parse_number_length s v rest :
  parse_number s = Some (v, rest) -> (length rest < length s)%nat.
Proof.
  unfold parse_number. destruct s as [|c r]; [discriminate|].
  destruct (c =? 45); intros H; apply parse_unsigned_length in H;
    cbn [length] in *; lia.
Qed.

Lemma parse_literal_length s v rest :
  parse_literal s = Some (v, rest) -> (length rest < length s)%nat.
Proof.
  unfold parse_literal.
  destruct s as [|c s]; [discriminate|].
  destruct (startsWith _ _); [intros [= _ <-]; cbn; pose proof (length_drop s 3); lia|].
  destruct (startsWith _ _); [intros [= _ <-]; cbn; pose proof (length_drop s 4); lia|].
  destruct (startsWith _ _); [intros [= _ <-]; cbn; pose proof (length_drop s 3); lia|].
  discriminate.
Qed.

(** The result of a parse does not depend on the fuel once there is twice
    as much of it as characters read. *)
Lemma parse_fuel f :
  (forall s v rest,
     parse_value f s = Some (v, rest) ->
     (length rest < length s)%nat /\
     forall f', (2 * (length s - length rest) <= f')%nat ->
                parse_value f' s = Some (v, rest)) /\
  (forall s acc v rest,
     parse_elements f s acc = Some (v, rest) ->
     (length rest < length s)%nat /\
     forall f', (2 * (length s - length rest) - 1 <= f')%nat ->
                parse_elements f' s acc = Some (v, rest)) /\
  (forall s acc v rest,
     parse_members f s acc = Some (v, rest) ->
     (length rest < length s)%nat /\
     forall f', (2 * (length s - length rest) - 1 <= f')%nat ->
                parse_members f' s acc = Some (v, rest)).
Proof.
  induction f as [|f (IHv & IHe & IHm)]; [repeat split; discriminate|].
  split; [|split].
  - intros s v rest H. cbn [parse_value] in H.
    pose proof (skip_ws_length s) as Ls.
    destruct (skip_ws s) as [|c r] eqn:Es; [discriminate|]. cbn [length] in Ls.
    destruct (c =? 123) eqn:E1.
    { pose proof (skip_ws_length r) as Lr.
      destruct (skip_ws r) as [|c1 r1] eqn:Er; [discriminate|]. cbn [length] in Lr.
      destruct (c1 =? 125) eqn:E2.
      - injection H as <- <-. split; [lia|]. intros f' Hf'.
        destruct f' as [|f']; [lia|]. cbn [parse_value].
        rewrite Es, E1, Er, E2. reflexivity.
      - apply IHm in H as [L K]. cbn [length] in L, K. split; [lia|].
        intros f' Hf'. destruct f' as [|f']; [lia|]. cbn [parse_value].
        rewrite Es, E1, Er, E2. apply K. lia. }
    destruct (c =? 91) eqn:E3.
    { pose proof (skip_ws_length r) as Lr.
      destruct (skip_ws r) as [|c1 r1] eqn:Er; [discriminate|]. cbn [length] in Lr.
      destruct (c1 =? 93) eqn:E2.
      - injection H as <- <-. split; [lia|]. intros f' Hf'.
        destruct f' as [|f']; [lia|]. cbn [parse_value].
        rewrite Es, E1, E3, Er, E2. reflexivity.
      - apply IHe in H as [L K]. cbn [length] in L, K. split; [lia|].
        intros f' Hf'. destruct f' as [|f']; [lia|]. cbn [parse_value].
        rewrite Es, E1, E3, Er, E2. apply K. lia. }
    destruct (c =? 34) eqn:E4.
    { destruct (parse_chars r []) as [[str rest']|] eqn:Ec; [|discriminate].
      injection H as <- <-.
      apply (parse_chars_length (length r)) in Ec as L; [|lia].
      split; [lia|]. intros f' Hf'. destruct f' as [|f']; [lia|].
      cbn [parse_value]. rewrite Es, E1, E3, E4, Ec. reflexivity. }
    destruct ((c =? 45) || is_digit c) eqn:E5.
    { pose proof (parse_number_length _ _ _ H) as L. cbn [length] in L.
      split; [lia|]. intros f' Hf'. destruct f' as [|f']; [lia|].
      cbn [parse_value]. rewrite Es, E1, E3, E4, E5. exact H. }
    pose proof (parse_literal_length _ _ _ H) as L. cbn [length] in L.
    split; [lia|]. intros f' Hf'. destruct f' as [|f']; [lia|].
    cbn [parse_value]. rewrite Es, E1, E3, E4, E5. exact H.
  - intros s acc v rest H. cbn [parse_elements] in H.
    destruct (parse_value f s) as [[v1 rest1]|] eqn:Ev; [|discriminate].
    apply IHv in Ev as [Lv Kv].
    pose proof (skip_ws_length rest1) as Ls.
    destruct (skip_ws rest1) as [|c r] eqn:Es; [discriminate|]. cbn [length] in Ls.
    destruct (c =? 44) eqn:E1.
    + apply IHe in H as [Le Ke]. split; [lia|]. intros f' Hf'.
      destruct f' as [|f']; [lia|]. cbn [parse_elements].
      rewrite (Kv f') by lia. rewrite Es, E1. apply Ke. lia.
    + destruct (c =? 93) eqn:E2; [|discriminate]. injection H as <- <-.
      split; [lia|]. intros f' Hf'. destruct f' as [|f']; [lia|].
      cbn [parse_elements]. rewrite (Kv f') by lia. rewrite Es, E1, E2. reflexivity.
  - intros s acc v rest H. cbn [parse_members] in H.
    pose proof (skip_ws_length s) as Ls.
    destruct (skip_ws s) as [|c r] eqn:Es; [discriminate|]. cbn [length] in Ls.
    destruct (c =? 34) eqn:E1; [|discriminate].
    destruct (parse_chars r []) as [[key rest0]|] eqn:Ec; [|discriminate].
    apply (parse_chars_length (length r)) in Ec as Lc; [|lia].
    pose proof (skip_ws_length rest0) as L0.
    destruct (skip_ws rest0) as [|c1 r1] eqn:E0; [discriminate|]. cbn [length] in L0.
    destruct (c1 =? 58) eqn:E2; [|discriminate].
    destruct (parse_value f r1) as [[v1 rest1]|] eqn:Ev; [|discriminate].
    apply IHv in Ev as [Lv Kv].
    pose proof (skip_ws_length rest1) as L1.
    destruct (skip_ws rest1) as [|c2 r2] eqn:Er; [discriminate|]. cbn [length] in L1.
    destruct (c2 =? 44) eqn:E3.
    + apply IHm in H as [Lm Km]. split; [lia|]. intros f' Hf'.
      destruct f' as [|f']; [lia|]. cbn [parse_members].
      rewrite Es, E1, Ec, E0, E2, (Kv f') by lia. rewrite Er, E3. apply Km. lia.
    + destruct (c2 =? 125) eqn:E4; [|discriminate]. injection H as <- <-.
      split; [lia|]. intros f' Hf'. destruct f' as [|f']; [lia|].
      cbn [parse_members].
      rewrite Es, E1, Ec, E0, E2, (Kv f') by lia. rewrite Er, E3, E4. reflexivity.
Qed.

(** If some amount of fuel lets a text parse, so does the amount [parse]
    gives: a text [parse] rejects is rejected whatever the fuel. *)
Lemma parse_fuel_enough f text v :
  (exists rest, parse_value f text = Some (v, rest) /\ skip_ws rest = []) ->
  JSON.parse text = Some v.
Proof.
  intros (rest & H & Hr). unfold JSON.parse.
  destruct (parse_fuel f) as (Hv & _ & _).
  destruct (Hv _ _ _ H) as [_ K]. rewrite (K (2 * length text + 2)%nat) by lia.
  rewrite Hr. reflexivity.
Qed.

End ParserFacts.

(* ===================================================================== *)
(** ** The claims *)
(* ===================================================================== *)

Section Claims.

Import JS JSON Bridge Spec Invariants.

Variable JSON_parse : jsstring -> completion json.
Variable JSON_stringify : json -> jsstring.

#[local] Abbreviation decode := (Bridge.decode JSON_parse).
#[local] Abbreviation processLine := (Bridge.processLine JSON_parse JSON_stringify).
#[local] Abbreviation step := (Bridge.step JSON_parse JSON_stringify).
#[local] Abbreviation run := (Bridge.run JSON_parse JSON_stringify).

(** C6.  A line that reaches the dispatcher (it is not blank: blank lines
    are dropped before they are parsed, see C8) and that [JSON.parse]
    rejects makes [processLine] write one diagnostic on stderr, send no
    request, write nothing on stdout, and leave the counter and the calls in
    flight as they are.  While stdin is open that is all it does, and the
    state does not change; fed to a running bridge as a line of its own, it
    yields just the diagnostic. *)
Theorem C6_malformed_line_only_diagnostic line err s :
  is_blank line = false ->
  JSON_parse line = Throw err ->
  let diagnostic := StderrWrite (error_prefix ++ message err ++ [LF]) in
  exists r s' o,
    processLine line s = (r, s', o) /\
    List.filter is_stderr o = [diagnostic] /\
    issued o = [] /\
    List.filter is_stdout o = [] /\
    pendingRequests s' = pendingRequests s /\
    calls s' = calls s /\
    (stdinClosed s = false -> r = Some tt /\ s' = s /\ o = [diagnostic]) /\
    (exitCode s = None -> stdinClosed s = false -> buffer s = [] ->
     no_newline line = true ->
     step s (StdinData (line ++ [LF])) = Some (s, [diagnostic])).
Proof.
  intros B P diagnostic.
  pose proof (processLine_bad JSON_parse JSON_stringify line err s B P) as E.
  cbv zeta in E. fold diagnostic in E.
  assert (Hstep : exitCode s = None -> stdinClosed s = false -> buffer s = [] ->
                  no_newline line = true ->
                  step s (StdinData (line ++ [LF])) = Some (s, [diagnostic])).
  { intros He Hc Hb Hn. unfold Bridge.step, enabled. rewrite He, Hc.
    cbn [negb Bridge.handle]. rewrite stdin_on_data_eq, Hb. cbn [app].
    rewrite (split_line LF line []) by (apply no_newline_existsb, Hn).
    cbn [split]. change [line; []] with ([line] ++ [[]]). rewrite pop_snoc.
    cbn [or_empty for_of JS.truthy]. unfold bind.
    replace (set_buffer [] s) with s by (destruct s; cbn in Hb; subst; reflexivity).
    rewrite E, Hc. reflexivity. }
  destruct (stdinClosed s && (pendingRequests s =? 0)%Z) eqn:C.
  - eexists _, _, _. split; [exact E|]. repeat split; try reflexivity; try exact Hstep.
    all: match goal with Hc : stdinClosed _ = false |- _ =>
           rewrite Hc in C; discriminate end.
  - eexists _, _, _. split; [exact E|]. repeat split; try reflexivity. exact Hstep.
Qed.

(** C2 (amended).  When a response ends, the bridge writes on stdout, in
    the order of the decoded events, one line per event that is truthy: the
    JSON text of the event followed by one newline.  It writes nothing else
    but, after these lines, the exit.  The events it skips are the falsy
    ones: [null], [false], the empty string and the numbers that are zero. *)
Theorem C2_writes_truthy_events_in_order s id contentType body s' out :
  calls s !! id = Some (Receiving contentType body) ->
  step s (ResEnd id) = Some (s', out) ->
  let events := decoded JSON_parse contentType body in
  decode contentType body = Normal events /\
  List.filter is_stdout out =
    map (fun v => StdoutWrite (JSON_stringify v ++ [LF]))
        (List.filter JSON.truthy events) /\
  (exists tail, out = List.filter is_stdout out ++ tail /\
                (tail = [] \/ tail = [Exit 0%Z])) /\
  (forall v, JSON.truthy v = false <->
     v = JNull \/ v = JBool false \/ v = JString [] \/
     exists neg mant exp10,
       v = JNumber neg mant exp10 /\ rounds_to_zero mant exp10 = true).
Proof.
  intros Hid Hstep events.
  split; [apply decode_normal|].
  apply step_cases in Hstep as [_ (ct & b & [(Hid' & -> & ->)|(Hid' & _)])];
    [|congruence].
  rewrite Hid in Hid'. injection Hid' as <- <-. fold events.
  assert (F : List.filter is_stdout
                (written JSON_stringify events
                 ++ snd (finish (with_call id Ended (decremented s))))
              = written JSON_stringify events).
  { rewrite List.filter_app, filter_stdout_written, filter_stdout_finish.
    apply app_nil_r. }
  split; [exact F|]. split.
  - rewrite F. eexists. split; [reflexivity|].
    unfold finish. destruct (_ && _); auto.
  - intros v. destruct v as [|[|]|neg mant exp10|[|c str]|l|l]; cbn [JSON.truthy JS.truthy].
    all: split;
      [ intros H; first [discriminate H | tauto
                        | right; right; right; eexists _, _, _; split;
                          [reflexivity | apply negb_false_iff, H] ]
      | intros [H|[H|[H|(n & m & e & H & Hz)]]]; try discriminate H; try reflexivity ].
    injection H as -> -> ->. rewrite Hz. reflexivity.
Qed.

(** C4 (amended).  After every run, the token is the last non-empty string
    value a response supplied in its session header, or unset if there was
    none: a response with such a value sets or overwrites it, a response
    whose header is absent or empty leaves it as it is, and so does every
    other callback.  Every request then sent carries the token as its
    session header, and no session header while the token is unset. *)
Theorem C4_token_is_last_nonempty_value events s out :
  run init events = Some (s, out) ->
  sessionId s = last_token None events /\
  (forall e s' o id headers body,
     step s e = Some (s', o) ->
     In (HttpRequest id headers body) o ->
     headers = headers_with (last_token None events)) /\
  (forall id headers v,
     supplied_token headers = Some v ->
     last_token None (events ++ [Response id headers]) = Some v) /\
  (forall id headers,
     supplied_token headers = None ->
     last_token None (events ++ [Response id headers]) = last_token None events) /\
  (forall e,
     (forall id headers, e <> Response id headers) ->
     last_token None (events ++ [e]) = last_token None events).
Proof.
  intros H. pose proof (run_Inv _ _ _ _ _ H) as [_ _ Hs _ _].
  split; [exact Hs|]. split; [|split; [|split]].
  - intros e s' o id headers body E Hin.
    rewrite (step_requests _ _ _ _ _ _ _ _ _ E Hin), Hs.
    apply sent_headers_with, last_token_nonempty. discriminate.
  - intros id headers v Hv. rewrite last_token_app. cbn [last_token].
    rewrite Hv. reflexivity.
  - intros id headers Hv. rewrite last_token_app. cbn [last_token].
    rewrite Hv. reflexivity.
  - intros e Hne. rewrite last_token_app. destruct e; try reflexivity.
    destruct (Hne id headers eq_refl).
Qed.


(** C10.  The lines the stdin callbacks pass to [processLine], and those
    among them that are not blank, depend only on the concatenation of the
    chunks.  So does the whole run in which the chunks arrive and stdin then
    ends: it is the run that passes these lines to [processLine] one after
    the other and then closes stdin, and two ways of cutting the same input
    into chunks give the same final state and the same effects in the same
    order. *)
Theorem C10_chunking_independent chunks1 chunks2 :
  concat chunks1 = concat chunks2 ->
  framer_run [] chunks1 = framer_run [] chunks2 /\
  dispatched chunks1 = dispatched chunks2 /\
  run init (map StdinData chunks1 ++ [StdinEnd]) =
    run init (map StdinData chunks2 ++ [StdinEnd]) /\
  exists rest,
    run init (map StdinData chunks1 ++ [StdinEnd]) =
    Some (exec (bind (for_of (framer_run [] chunks1) processLine)
                  (fun _ => bind (modify (set_stdinClosed true))
                              (fun _ => checkExit)))
            (set_buffer rest init)).
Proof.
  intros Hcat.
  destruct (pop_split_frames (concat chunks1)) as (lines & rest & P & _).
  assert (F1 : framer_run [] chunks1 = framer_run [] chunks2).
  { rewrite (framer_run_concat chunks1 [] lines rest eq_refl P).
    rewrite Hcat in P.
    rewrite (framer_run_concat chunks2 [] lines rest eq_refl P). reflexivity. }
  assert (B1 : final_buffer [] chunks1 = final_buffer [] chunks2).
  { rewrite (final_buffer_concat chunks1 [] lines rest eq_refl P).
    rewrite Hcat in P.
    rewrite (final_buffer_concat chunks2 [] lines rest eq_refl P). reflexivity. }
  split; [exact F1|]. split; [unfold dispatched; rewrite F1; reflexivity|].
  rewrite !run_stdin by reflexivity. cbn [buffer init].
  split; [rewrite F1, B1; reflexivity|].
  eexists. reflexivity.
Qed.

End Claims.

Section MoreClaims.

Import JS JSON Bridge Spec Invariants.

(** C3.  For a content type that includes [text/event-stream], the decoder
    never throws and returns the events of the body: of its lines, in
    order, those that begin with the prefix and whose remainder parses as
    JSON, parsed; the other lines are left out.  The body of the example
    decodes to its two objects. *)
Theorem C3_event_stream_decoding :
  (forall (JSON_parse : jsstring -> completion json) contentType body,
     includes text_event_stream contentType = true ->
     decode JSON_parse contentType body = Normal (sse_events JSON_parse body)) /\
  decode Platform.JSON_parse (str "text/event-stream") Sample.sse_body
    = Normal Sample.sse_body_events.
Proof.
  split.
  - intros JSON_parse contentType body H. rewrite decode_normal.
    unfold decoded. rewrite H. destruct (is_blank body) eqn:B; [|reflexivity].
    rewrite sse_events_blank by exact B. reflexivity.
  - vm_compute. reflexivity.
Qed.

(** C7.  The decoder never throws, whatever the content type and the body.
    A blank body gives no event.  For a content type that does not include
    [text/event-stream], a body that is not blank gives the one value it
    parses to, or no event if it does not parse; with the parser of [JSON],
    which rejects blank text, that holds for every body. *)
Theorem C7_decoder_never_throws :
  (forall (JSON_parse : jsstring -> completion json) contentType body,
     exists events, decode JSON_parse contentType body = Normal events) /\
  (forall (JSON_parse : jsstring -> completion json) contentType body,
     is_blank body = true ->
     decode JSON_parse contentType body = Normal []) /\
  (forall (JSON_parse : jsstring -> completion json) contentType body,
     is_blank body = false ->
     includes text_event_stream contentType = false ->
     decode JSON_parse contentType body =
     Normal (match JSON_parse body with
             | Normal v => [v]
             | Throw _ => []
             end)) /\
  (forall contentType body,
     includes text_event_stream contentType = false ->
     decode Platform.JSON_parse contentType body =
     Normal (match Platform.JSON_parse body with
             | Normal v => [v]
             | Throw _ => []
             end)).
Proof.
  split; [|split; [|split]].
  - intros JSON_parse contentType body. eexists. apply decode_normal.
  - intros JSON_parse contentType body B. rewrite decode_normal.
    unfold decoded. rewrite B. reflexivity.
  - intros JSON_parse contentType body B H. rewrite decode_normal.
    unfold decoded. rewrite B, H. reflexivity.
  - intros contentType body H. rewrite decode_normal.
    unfold decoded. rewrite H. destruct (is_blank body) eqn:B; [|reflexivity].
    rewrite JSON_parse_blank by exact B. reflexivity.
Qed.


(** C5 (code bug).  The counter goes below 0, and an increment can be left
    without a decrement.
    - One request is sent.  Its ['error'] listener runs while the response
      is being received, and the response then ends: both listeners
      decrement the counter for the one call, and the counter is -1.  The
      body of that response is written nowhere: the promise was rejected.
    - One request is sent and the connection is lost after the response
      started: no callback of that call is left to run, and the counter
      is 1. *)
Theorem C5_counter_below_zero :
  (exists s out,
     execution Platform.JSON_parse Platform.JSON_stringify Sample.endpoint
       Sample.failed_then_ended = Some (s, out) /\
     issued out = [0%nat] /\
     completed Sample.failed_then_ended = [0%nat; 0%nat] /\
     pendingRequests s = (-1)%Z /\
     exitCode s = None /\
     List.filter is_stdout out = []) /\
  (exists s out,
     execution Platform.JSON_parse Platform.JSON_stringify Sample.endpoint
       (take 3 Sample.aborted_run) = Some (s, out) /\
     issued out = [0%nat] /\
     completed (take 3 Sample.aborted_run) = [] /\
     pendingRequests s = 1%Z /\
     calls s = ∅ /\
     forall e, enabled s e = true -> e <> ResEnd 0 /\ forall err, e <> ReqError 0 err).
Proof.
  split.
  - eexists _, _. split; [vm_compute; reflexivity|]. repeat split.
  - eexists _, _. split; [vm_compute; reflexivity|].
    split; [reflexivity|]. split; [reflexivity|]. split; [reflexivity|].
    split; [reflexivity|].
    intros e He. split; [|intros err]; intros ->; vm_compute in He; discriminate.
Qed.

(** C9 (code bug).  Dispatch is not serialized: in a running bridge with an
    empty buffer, two lines of valid JSON, arriving in two chunks or in
    one, are both sent at once, under consecutive names; the second request
    does not wait for the first, and the counter is then two more than
    before.  In the example the counter is 2 after the two lines.  But the
    process can end before the counter is back to 0: when both connections
    are lost after the responses started and stdin ends, the process ends
    with status 0 and the counter is still 2. *)
Theorem C9_not_serialized_but_ends_undrained :
  (forall (JSON_parse : jsstring -> completion json) (JSON_stringify : json -> jsstring)
          s line1 line2 v1 v2,
     exitCode s = None -> stdinClosed s = false -> buffer s = [] ->
     no_newline line1 = true -> no_newline line2 = true ->
     is_blank line1 = false -> is_blank line2 = false ->
     JSON_parse line1 = Normal v1 -> JSON_parse line2 = Normal v2 ->
     let request1 := HttpRequest (nextCall s) (sent_headers (sessionId s))
                       (JSON_stringify v1) in
     let request2 := HttpRequest (S (nextCall s)) (sent_headers (sessionId s))
                       (JSON_stringify v2) in
     exists s1 s2,
       step JSON_parse JSON_stringify s (StdinData (line1 ++ [LF])) = Some (s1, [request1]) /\
       step JSON_parse JSON_stringify s1 (StdinData (line2 ++ [LF])) = Some (s2, [request2]) /\
       step JSON_parse JSON_stringify s (StdinData (unlines [line1; line2]))
         = Some (s2, [request1; request2]) /\
       pendingRequests s1 = (pendingRequests s + 1)%Z /\
       pendingRequests s2 = (pendingRequests s + 2)%Z /\
       calls s2 !! nextCall s = Some Sent /\
       calls s2 !! S (nextCall s) = Some Sent /\
       exitCode s2 = None) /\
  (exists s out,
     execution Platform.JSON_parse Platform.JSON_stringify Sample.endpoint
       Sample.two_requests = Some (s, out) /\
     pendingRequests s = 2%Z /\ exitCode s = None /\
     out = [StderrWrite (banner_prefix ++ Sample.endpoint ++ [LF]);
            HttpRequest 0 request_headers (text "{'id':1}");
            HttpRequest 1 request_headers (text "{'id':2}")]) /\
  (exists s out,
     execution Platform.JSON_parse Platform.JSON_stringify Sample.endpoint
       Sample.two_aborted = Some (s, out) /\
     pendingRequests s = 2%Z /\
     exitCode s = Some 0%Z /\
     last out = Some (Exit 0%Z)).
Proof.
  split; [|split].
  - intros JSON_parse JSON_stringify s line1 line2 v1 v2
      He Hc Hb N1 N2 B1 B2 P1 P2 request1 request2.
    exists (sent s), (sent (sent s)).
    assert (L1 : step JSON_parse JSON_stringify s (StdinData (line1 ++ [LF]))
                 = Some (sent s, [request1])).
    { change (line1 ++ [LF]) with (line1 ++ [LF] ++ []).
      rewrite app_assoc, <- (app_nil_r ((line1 ++ [LF]) ++ [])).
      change ((line1 ++ [LF]) ++ []) with (unlines [line1]). rewrite app_nil_r.
      rewrite step_lines by (repeat constructor; assumption).
      unfold exec. cbn [for_of]. unfold bind.
      rewrite (processLine_request _ _ _ _ _ B1 P1). reflexivity. }
    assert (L2 : step JSON_parse JSON_stringify (sent s) (StdinData (line2 ++ [LF]))
                 = Some (sent (sent s), [request2])).
    { change (line2 ++ [LF]) with (line2 ++ [LF] ++ []).
      rewrite app_assoc, <- (app_nil_r ((line2 ++ [LF]) ++ [])).
      change ((line2 ++ [LF]) ++ []) with (unlines [line2]). rewrite app_nil_r.
      rewrite step_lines by (repeat constructor; assumption).
      unfold exec. cbn [for_of]. unfold bind.
      rewrite (processLine_request _ _ _ _ _ B2 P2). reflexivity. }
    split; [exact L1|]. split; [exact L2|]. split.
    { rewrite step_lines by (repeat constructor; assumption).
      unfold exec. cbn [for_of]. unfold bind.
      rewrite (processLine_request _ _ _ _ _ B1 P1).
      rewrite (processLine_request _ _ _ _ _ B2 P2). reflexivity. }
    cbn [sent pendingRequests calls nextCall exitCode
         set_nextCall set_calls set_pendingRequests].
    split; [reflexivity|]. split; [lia|]. split; [|split].
    + rewrite lookup_insert_ne by lia. apply lookup_insert_eq.
    + apply lookup_insert_eq.
    + exact He.
  - eexists _, _. split; [vm_compute; reflexivity|]. repeat split.
  - eexists _, _. split; [vm_compute; reflexivity|]. repeat split.
Qed.

End MoreClaims.

(* ===================================================================== *)
(** ** The claims on sample inputs *)
(* ===================================================================== *)

Section Witnesses.

Import JS JSON Bridge Spec Invariants.

#[local] Abbreviation run := (Bridge.run Platform.JSON_parse Platform.JSON_stringify).
#[local] Abbreviation step := (Bridge.step Platform.JSON_parse Platform.JSON_stringify).
#[local] Abbreviation processLine :=
  (Bridge.processLine Platform.JSON_parse Platform.JSON_stringify).

(** The stream with falsy events: only the object is written. *)
Lemma C2_witness :
  exists s' out,
    step Sample.receiving_falsy (ResEnd 0) = Some (s', out) /\
    List.filter is_stdout out =
      map (fun v => StdoutWrite (Platform.JSON_stringify v ++ [LF]))
          (List.filter JSON.truthy
             (decoded Platform.JSON_parse (str "text/event-stream") Sample.falsy_body)) /\
    List.filter is_stdout out = [StdoutWrite (text "{'ok':true}" ++ [LF])].
Proof.
  eexists _, _. split; [vm_compute; reflexivity|].
  split; [|vm_compute; reflexivity].
  exact (proj1 (proj2 (C2_writes_truthy_events_in_order Platform.JSON_parse
                         Platform.JSON_stringify Sample.receiving_falsy 0
                         (str "text/event-stream") Sample.falsy_body _ _
                         ltac:(vm_compute; reflexivity)
                         ltac:(vm_compute; reflexivity)))).
Defined.

(** A writer that skips null only writes a line for 0, for false and for
    the empty string; the program writes none for them. *)
Lemma C2_counterexample :
  exists s' out,
    step Sample.receiving_falsy (ResEnd 0) = Some (s', out) /\
    decode Platform.JSON_parse (str "text/event-stream") Sample.falsy_body
      = Normal [JNumber false 0 0; JBool false; JString []; JNull;
                JObject [(str "ok", JBool true)]] /\
    written_non_null Platform.JSON_stringify
      [JNumber false 0 0; JBool false; JString []; JNull;
       JObject [(str "ok", JBool true)]]
      = [StdoutWrite (text "0" ++ [LF]); StdoutWrite (text "false" ++ [LF]);
         StdoutWrite (text "''" ++ [LF]); StdoutWrite (text "{'ok':true}" ++ [LF])] /\
    List.filter is_stdout out = [StdoutWrite (text "{'ok':true}" ++ [LF])] /\
    List.filter is_stdout out <>
      written_non_null Platform.JSON_stringify
        [JNumber false 0 0; JBool false; JString []; JNull;
         JObject [(str "ok", JBool true)]].
Proof.
  eexists _, _. split; [vm_compute; reflexivity|].
  split; [vm_compute; reflexivity|].
  split; [vm_compute; reflexivity|].
  split; [vm_compute; reflexivity|].
  vm_compute. discriminate.
Qed.

(** The body of the specification's example. *)
Lemma C3_witness :
  includes text_event_stream (str "text/event-stream") = true /\
  decode Platform.JSON_parse (str "text/event-stream") Sample.sse_body
    = Normal (sse_events Platform.JSON_parse Sample.sse_body).
Proof.
  split; [reflexivity|].
  apply (proj1 C3_event_stream_decoding). reflexivity.
Defined.

(** Two responses, the first with the token S1, the second with an empty
    session header: the token is S1 and the third request carries it. *)
Lemma C4_witness :
  exists s out s' body,
    run init Sample.empty_token_run = Some (s, out) /\
    sessionId s = Some (str "S1") /\
    step s Sample.third_request
      = Some (s', [HttpRequest 2 (headers_with (Some (str "S1"))) body]).
Proof.
  eexists _, _, _, _. split; [vm_compute; reflexivity|].
  pose proof (C4_token_is_last_nonempty_value Platform.JSON_parse
                Platform.JSON_stringify Sample.empty_token_run _ _
                ltac:(vm_compute; reflexivity)) as [H _].
  split; [exact H|]. vm_compute. reflexivity.
Defined.

(** A response whose session header is the empty string carries a new
    value of the header, yet the token is not overwritten with it: it stays
    S1, and S1 is what the next request carries. *)
Lemma C4_counterexample :
  exists s out s' body,
    run init Sample.empty_token_run = Some (s, out) /\
    last_header_value None Sample.empty_token_run = Some [] /\
    sessionId s = Some (str "S1") /\
    sessionId s <> last_header_value None Sample.empty_token_run /\
    step s Sample.third_request
      = Some (s', [HttpRequest 2 (request_headers ++ [(Mcp_Session_Id, str "S1")]) body]).
Proof.
  eexists _, _, _, _. split; [vm_compute; reflexivity|].
  split; [reflexivity|]. split; [reflexivity|].
  split; [vm_compute; discriminate|]. vm_compute. reflexivity.
Qed.

(** The line of the specification's example, in the initial state. *)
Lemma C6_witness :
  is_blank Sample.bad_line = false /\
  Platform.JSON_parse Sample.bad_line = Throw Platform.syntax_error /\
  exists r s' o,
    processLine Sample.bad_line init = (r, s', o) /\
    List.filter is_stderr o
      = [StderrWrite (error_prefix ++ Platform.syntax_error_message ++ [LF])] /\
    issued o = [] /\
    List.filter is_stdout o = [] /\
    pendingRequests s' = 0%Z.
Proof.
  split; [reflexivity|]. split; [reflexivity|].
  destruct (C6_malformed_line_only_diagnostic Platform.JSON_parse Platform.JSON_stringify
              Sample.bad_line Platform.syntax_error init eq_refl eq_refl)
    as (r & s' & o & E & H1 & H2 & H3 & H4 & _).
  exists r, s', o. repeat split; assumption.
Defined.

(** A blank body, a body of JSON and a body that is not JSON. *)
Lemma C7_witness :
  decode Platform.JSON_parse (str "application/json") (str "  ") = Normal [] /\
  decode Platform.JSON_parse (str "application/json") (text "{'a':1}")
    = Normal [JObject [(str "a", JNumber false 1 0)]] /\
  decode Platform.JSON_parse (str "text/plain") (str "oops") = Normal [].
Proof.
  destruct C7_decoder_never_throws as (_ & Hblank & Hjson & _).
  split; [apply Hblank; reflexivity|].
  split; [apply (Hjson Platform.JSON_parse); reflexivity|].
  apply (Hjson Platform.JSON_parse); reflexivity.
Defined.


(** One input cut into chunks in two ways. *)
Lemma C10_witness :
  concat Sample.chunks_a = concat Sample.chunks_b /\
  framer_run [] Sample.chunks_a = framer_run [] Sample.chunks_b /\
  framer_run [] Sample.chunks_a = [text "{'id':1}"; text "{'id':2}"] /\
  run init (map StdinData Sample.chunks_a ++ [StdinEnd])
    = run init (map StdinData Sample.chunks_b ++ [StdinEnd]).
Proof.
  split; [reflexivity|].
  destruct (C10_chunking_independent Platform.JSON_parse Platform.JSON_stringify
              Sample.chunks_a Sample.chunks_b eq_refl) as (H1 & _ & H3 & _).
  split; [exact H1|]. split; [reflexivity | exact H3].
Defined.

End Witnesses.

(* ===================================================================== *)
(** ** More on the bridge *)
(* ===================================================================== *)

Section BridgeHistory.

Import JS JSON Bridge Spec Invariants History.

Variable JSON_parse : jsstring -> completion json.
Variable JSON_stringify : json -> jsstring.

#[local] Abbreviation parseSSE := (Bridge.parseSSE JSON_parse).
#[local] Abbreviation processLine := (Bridge.processLine JSON_parse JSON_stringify).
#[local] Abbreviation step := (Bridge.step JSON_parse JSON_stringify).
#[local] Abbreviation run := (Bridge.run JSON_parse JSON_stringify).
#[local] Abbreviation forwarded := (History.forwarded JSON_parse JSON_stringify).
#[local] Abbreviation stdout_of := (History.stdout_of JSON_parse JSON_stringify).

(** The lines the ['end'] listener passes to [processLine]. *)
Lemma framer_run_nil buffer :
  framer_run buffer [] = if JS.truthy (trim buffer) then [buffer] else [].
Proof. reflexivity. Qed.

(** *** What each callback does *)

Lemma for_of_processLine_bodies lines : forall s s' o,
  stdinClosed s = false ->
  for_of lines processLine s = (Some tt, s', o) ->
  omap request_body o = omap forwarded lines.
Proof.
  induction lines as [|line lines IH]; intros s s' o Hc; cbn [for_of].
  - intros [= <- <-]. reflexivity.
  - unfold bind.
    destruct (processLine_open JSON_parse JSON_stringify line s Hc) as (s1 & o1 & E1 & D1).
    rewrite E1.
    destruct (for_of lines processLine s1) as [[r s2] o2] eqn:E2.
    intros [= -> <- <-]. rewrite omap_app.
    rewrite (IH s1 s2 o2); [|rewrite (d_closed _ _ _ D1); exact Hc | exact E2].
    change (omap forwarded (line :: lines))
      with (match forwarded line with
            | Some b => b :: omap forwarded lines
            | None => omap forwarded lines
            end).
    assert (Ho : omap request_body o1
                 = match forwarded line with Some b => [b] | None => [] end).
    { unfold History.forwarded. rewrite trim_truthy.
      destruct (is_blank line) eqn:B; cbn [negb].
      - rewrite (processLine_blank _ _ _ _ B) in E1. injection E1 as <- <-. reflexivity.
      - destruct (JSON_parse line) as [v|e] eqn:P.
        + rewrite (processLine_request _ _ _ _ _ B P) in E1. injection E1 as <- <-.
          reflexivity.
        + rewrite (processLine_bad _ _ _ _ _ B P), Hc in E1. injection E1 as <- <-.
          reflexivity. }
    rewrite Ho. destruct (forwarded line); reflexivity.
Qed.

(** *** What the record of a call holds *)

Lemma response_of_app id a b :
  response_of id (a ++ b) =
  match response_of id a with
  | Some headers => Some headers
  | None => response_of id b
  end.
Proof.
  induction a as [|e a IH]; cbn [app response_of]; [reflexivity|].
  destruct e; try exact IH. destruct (Nat.eqb id id0); [reflexivity | exact IH].
Qed.

Lemma body_of_app id a b : body_of id (a ++ b) = body_of id a ++ body_of id b.
Proof.
  induction a as [|e a IH]; cbn [app body_of]; [reflexivity|].
  destruct e; try exact IH.
  destruct (Nat.eqb id id0); [rewrite IH, app_assoc; reflexivity | exact IH].
Qed.

Lemma errored_snoc id events e :
  errored id (events ++ [e]) = errored id events || is_error_of id e.
Proof.
  unfold errored. rewrite existsb_app. cbn [existsb].
  rewrite orb_false_r. reflexivity.
Qed.

Lemma ended_snoc id events e :
  ended id (events ++ [e]) = ended id events || is_end_of id e.
Proof.
  unfold ended. rewrite existsb_app. cbn [existsb].
  rewrite orb_false_r. reflexivity.
Qed.

Ltac observe :=
  cbn [Closure]; unfold contentType_of;
  rewrite ?response_of_app, ?body_of_app, ?errored_snoc, ?ended_snoc;
  cbn [response_of body_of is_error_of is_end_of];
  rewrite ?Nat.eqb_refl, ?app_nil_r, ?orb_false_r, ?orb_true_r.

Lemma Closures_init : Closures [] init.
Proof.
  constructor; cbn [init calls nextCall].
  - intros id. rewrite lookup_empty. exact I.
  - intros id _. repeat split.
Qed.

(** An event of another call, or of none. *)
Lemma history_other id events e :
  call_of e <> Some id ->
  response_of id (events ++ [e]) = response_of id events /\
  body_of id (events ++ [e]) = body_of id events /\
  errored id (events ++ [e]) = errored id events /\
  ended id (events ++ [e]) = ended id events.
Proof.
  intros H. rewrite response_of_app, body_of_app, errored_snoc, ended_snoc.
  assert (N : forall id', call_of e = Some id' -> Nat.eqb id id' = false).
  { intros id' E. apply Nat.eqb_neq. congruence. }
  destruct e; cbn [response_of body_of is_error_of is_end_of call_of] in *;
    rewrite ?(N _ eq_refl), ?app_nil_r, ?orb_false_r;
    (repeat split; try reflexivity); destruct (response_of id events); reflexivity.
Qed.

Lemma Closure_other events id e c :
  call_of e <> Some id -> Closure events id c -> Closure (events ++ [e]) id c.
Proof.
  intros H. destruct (history_other id events e H) as (E1 & E2 & E3 & E4).
  unfold Closure, contentType_of. rewrite E1, E2, E3, E4. trivial.
Qed.

Lemma Closures_other events s s' e :
  call_of e = None ->
  (nextCall s <= nextCall s')%nat ->
  (forall id, calls s' !! id = calls s !! id \/
              (calls s' !! id = Some Sent /\ (nextCall s <= id)%nat) \/
              calls s' !! id = None) ->
  Closures events s -> Closures (events ++ [e]) s'.
Proof.
  intros He Hn Hc [Hcall Hf].
  assert (Ho : forall id, call_of e <> Some id) by (intros id; rewrite He; discriminate).
  constructor.
  - intros id. destruct (Hc id) as [-> |[[-> Hge]| ->]].
    + apply Closure_other; auto.
    + apply (Closure_other events id e (Some Sent)); [auto|]. exact (Hf id Hge).
    + exact I.
  - intros id Hid. destruct (history_other id events e (Ho id)) as (-> & -> & -> & ->).
    apply Hf. lia.
Qed.

Lemma Closures_at events s s' e id :
  call_of e = Some id ->
  (id < nextCall s)%nat ->
  nextCall s' = nextCall s ->
  (forall id', id' <> id -> calls s' !! id' = calls s !! id') ->
  Closure (events ++ [e]) id (calls s' !! id) ->
  Closures events s -> Closures (events ++ [e]) s'.
Proof.
  intros He Hlt Hn Hc Hid [Hcall Hf].
  assert (Ho : forall id', id' <> id -> call_of e <> Some id')
    by (intros id' Hne; rewrite He; congruence).
  constructor.
  - intros id'. destruct (decide (id' = id)) as [->|Hne]; [exact Hid|].
    rewrite (Hc id' Hne). apply Closure_other; auto.
  - intros id' Hge. rewrite Hn in Hge.
    destruct (history_other id' events e) as (-> & -> & -> & ->); [apply Ho; lia|].
    apply Hf. exact Hge.
Qed.

Lemma Closures_insert events s s' e id c :
  call_of e = Some id ->
  (id < nextCall s)%nat ->
  nextCall s' = nextCall s ->
  calls s' = <[id := c]> (calls s) ->
  Closure (events ++ [e]) id (Some c) ->
  Closures events s -> Closures (events ++ [e]) s'.
Proof.
  intros He Hlt Hn Hc Hid. apply (Closures_at events s s' e id He Hlt Hn).
  - intros id' Hne. rewrite Hc. apply lookup_insert_ne. congruence.
  - rewrite Hc, lookup_insert_eq. exact Hid.
Qed.

Lemma Closures_delete events s s' e id :
  call_of e = Some id ->
  (id < nextCall s)%nat ->
  nextCall s' = nextCall s ->
  calls s' = delete id (calls s) ->
  Closures events s -> Closures (events ++ [e]) s'.
Proof.
  intros He Hlt Hn Hc. apply (Closures_at events s s' e id He Hlt Hn).
  - intros id' Hne. rewrite Hc. apply lookup_delete_ne. congruence.
  - rewrite Hc, lookup_delete_eq. exact I.
Qed.

Lemma finish_calls s : calls (fst (finish s)) = calls s.
Proof. unfold finish. destruct (_ && _); reflexivity. Qed.

Lemma finish_nextCall s : nextCall (fst (finish s)) = nextCall s.
Proof. unfold finish. destruct (_ && _); reflexivity. Qed.

Lemma finish_stdinClosed s : stdinClosed (fst (finish s)) = stdinClosed s.
Proof. unfold finish. destruct (_ && _); reflexivity. Qed.

Lemma finish_buffer s : buffer (fst (finish s)) = buffer s.
Proof. unfold finish. destruct (_ && _); reflexivity. Qed.

Lemma finish_no_request s : omap request_body (snd (finish s)) = [].
Proof. unfold finish. destruct (_ && _); reflexivity. Qed.

(** Every callback keeps the records in step with the events. *)
Lemma step_Closures events s out e s' o :
  Inv events s out ->
  Closures events s ->
  step s e = Some (s', o) ->
  Closures (events ++ [e]) s'.
Proof.
  intros [Hwf _ _ _ _] HC E.
  apply step_cases in E as [He E].
  destruct e as [chunk| |id headers|id chunk|id|id err|id|].
  - destruct E as (Hc & popped & lines & _ & _ & D).
    apply (Closures_other events s); [reflexivity| | |exact HC].
    + rewrite (d_next _ _ _ D). cbn. lia.
    + intros id. rewrite (d_calls _ _ _ D). cbn [calls nextCall set_buffer].
      destruct (decide _) as [Hd|Hd]; [right; left; split; [reflexivity | lia] | auto].
  - destruct E as (Hc & s1 & o1 & _ & D & -> & _).
    apply (Closures_other events s); [reflexivity| | |exact HC].
    + rewrite finish_nextCall. cbn [nextCall set_stdinClosed].
      rewrite (d_next _ _ _ D). lia.
    + intros id. rewrite finish_calls. cbn [calls set_stdinClosed].
      rewrite (d_calls _ _ _ D).
      destruct (decide _) as [Hd|Hd]; [right; left; split; [reflexivity | lia] | auto].
  - destruct E as (c & Hid & Hc & _ & ->).
    assert (Hlt : (id < nextCall s)%nat) by (apply Hwf; rewrite Hid; eauto).
    pose proof (h_call _ _ HC id) as Hcl. rewrite Hid in Hcl.
    eapply (Closures_insert events s _ _ id); [reflexivity|exact Hlt| | | |exact HC].
    + destruct (supplied_token headers); reflexivity.
    + destruct (supplied_token headers); reflexivity.
    + destruct Hc as [-> | ->]; cbn [Closure] in Hcl.
      * destruct Hcl as (R & B & E1 & E2). observe. rewrite R, B, E1, E2.
        repeat split.
      * destruct Hcl as (R & B & E1). observe. rewrite R, B, E1. repeat split.
  - destruct E as (_ & ct & body & [(Hid & ->)|(Hid & ->)]);
      assert (Hlt : (id < nextCall s)%nat) by (apply Hwf; rewrite Hid; eauto);
      pose proof (h_call _ _ HC id) as Hcl; rewrite Hid in Hcl; cbn [Closure] in Hcl.
    + eapply (Closures_insert events s _ _ id);
        [reflexivity|exact Hlt|reflexivity|reflexivity| |exact HC].
      destruct Hcl as (-> & -> & E1 & E2). observe. rewrite E1, E2.
      destruct (response_of id events); repeat split.
    + eapply (Closures_insert events s _ _ id);
        [reflexivity|exact Hlt|reflexivity|reflexivity| |exact HC].
      destruct Hcl as (-> & -> & E1). observe. rewrite E1.
      destruct (response_of id events); repeat split.
  - destruct E as (ct & body & [(Hid & -> & _)|(Hid & -> & _)]);
      assert (Hlt : (id < nextCall s)%nat) by (apply Hwf; rewrite Hid; eauto);
      pose proof (h_call _ _ HC id) as Hcl; rewrite Hid in Hcl; cbn [Closure] in Hcl.
    + eapply (Closures_insert events s _ _ id);
        [reflexivity|exact Hlt|rewrite finish_nextCall; reflexivity
        |rewrite finish_calls; reflexivity| |exact HC].
      destruct Hcl as (_ & _ & E1 & _). observe. rewrite E1. split; reflexivity.
    + eapply (Closures_delete events s _ _ id);
        [reflexivity|exact Hlt|reflexivity|reflexivity|exact HC].
  - destruct E as [(c & Hid & Hc & -> & _)|(Hid & -> & _)];
      assert (Hlt : (id < nextCall s)%nat) by (apply Hwf; rewrite Hid; eauto);
      pose proof (h_call _ _ HC id) as Hcl; rewrite Hid in Hcl.
    + eapply (Closures_insert events s _ _ id);
        [reflexivity|exact Hlt|rewrite finish_nextCall; reflexivity
        |rewrite finish_calls; reflexivity| |exact HC].
      destruct Hc as [-> | (ct & body & ->)]; cbn [Closure rejected] in Hcl |- *.
      * destruct Hcl as (R & B & _). observe. rewrite R, B. repeat split.
      * destruct Hcl as (-> & -> & _). observe.
        destruct (response_of id events); repeat split.
    + eapply (Closures_delete events s _ _ id);
        [reflexivity|exact Hlt|reflexivity|reflexivity|exact HC].
  - destruct E as (_ & -> & _).
    apply (Closures_other events s); [reflexivity|reflexivity| |exact HC].
    intros id'. cbn [without_call calls set_calls].
    destruct (decide (id = id')) as [<-|Hne].
    + right; right. apply lookup_delete_eq.
    + left. apply lookup_delete_ne. assumption.
  - destruct E as (_ & _ & -> & _).
    apply (Closures_other events s); [reflexivity|reflexivity| |exact HC].
    intros id'. left. reflexivity.
Qed.

(** *** The output of a run *)

Lemma dispatches_no_stdout s s1 o : dispatches s s1 o -> List.filter is_stdout o = [].
Proof.
  intros D. pose proof (d_effects _ _ _ D) as F. clear D.
  induction F as [|e l (_ & He & _) _ IH]; cbn [List.filter]; [reflexivity|].
  rewrite He. exact IH.
Qed.

Lemma step_stdout past s e s' o :
  Closures past s ->
  step s e = Some (s', o) ->
  List.filter is_stdout o =
  match e with
  | ResEnd id =>
      if errored id past then []
      else written JSON_stringify
             (decoded JSON_parse (contentType_of id past) (body_of id past))
  | _ => []
  end.
Proof.
  intros HC E. apply step_cases in E as [_ E].
  destruct e as [chunk| |id headers|id chunk|id|id err|id|].
  - destruct E as (_ & popped & lines & _ & _ & D). exact (dispatches_no_stdout _ _ _ D).
  - destruct E as (_ & s1 & o1 & _ & D & _ & ->).
    rewrite List.filter_app, (dispatches_no_stdout _ _ _ D), filter_stdout_finish.
    reflexivity.
  - destruct E as (c & _ & _ & -> & _). reflexivity.
  - destruct E as (-> & _). reflexivity.
  - destruct E as (ct & body & [(Hid & _ & ->)|(Hid & _ & ->)]);
      pose proof (h_call _ _ HC id) as Hcl; rewrite Hid in Hcl; cbn [Closure] in Hcl.
    + destruct Hcl as (<- & <- & -> & _).
      rewrite List.filter_app, filter_stdout_written, filter_stdout_finish.
      apply app_nil_r.
    + destruct Hcl as (_ & _ & ->). reflexivity.
  - destruct E as [(c & _ & _ & _ & ->)|(_ & _ & ->)]; [|reflexivity].
    cbn [app List.filter is_stdout]. apply filter_stdout_finish.
  - destruct E as (_ & _ & ->). reflexivity.
  - destruct E as (_ & _ & _ & ->). reflexivity.
Qed.

Lemma run_stdout_from events : forall past s0 out0 s out,
  Inv past s0 out0 ->
  Closures past s0 ->
  run s0 events = Some (s, out) ->
  List.filter is_stdout out = stdout_of past events.
Proof.
  induction events as [|e events IH]; intros past s0 out0 s out HI HC;
    cbn [Bridge.run History.stdout_of].
  - intros [= <- <-]. reflexivity.
  - destruct (step s0 e) as [[s1 o1]|] eqn:E1; [|discriminate].
    destruct (run s1 events) as [[s2 o2]|] eqn:E2; [|discriminate].
    intros [= <- <-]. rewrite List.filter_app.
    rewrite (step_stdout past s0 e s1 o1 HC E1).
    rewrite (IH (past ++ [e]) s1 (out0 ++ o1) s2 o2); [reflexivity| | |exact E2].
    + eapply step_Inv; eassumption.
    + eapply step_Closures; eassumption.
Qed.

(** *** The requests of a run *)

Lemma framer_feed_snoc chunks : forall buffer chunk,
  framer_feed buffer (chunks ++ [chunk]) =
  framer_feed buffer chunks
  ++ snd (pop (split LF (final_buffer buffer chunks ++ chunk))) /\
  final_buffer buffer (chunks ++ [chunk]) =
  or_empty (fst (pop (split LF (final_buffer buffer chunks ++ chunk)))).
Proof.
  induction chunks as [|c chunks IH]; intros buffer chunk;
    cbn [app framer_feed final_buffer].
  - destruct (pop (split LF (buffer ++ chunk))) as [popped lines].
    cbn [fst snd]. rewrite app_nil_r. split; reflexivity.
  - destruct (pop (split LF (buffer ++ c))) as [popped lines]. cbn [fst].
    destruct (IH (or_empty popped) chunk) as [-> ->].
    rewrite app_assoc. split; reflexivity.
Qed.

Lemma framer_run_feed chunks : forall buffer,
  framer_run buffer chunks =
  framer_feed buffer chunks ++ framer_run (final_buffer buffer chunks) [].
Proof.
  induction chunks as [|c chunks IH]; intros buffer;
    cbn [framer_run framer_feed final_buffer].
  - reflexivity.
  - destruct (pop (split LF (buffer ++ c))) as [popped lines]. cbn [fst].
    rewrite IH, app_assoc. reflexivity.
Qed.

Lemma stdin_ended_app a b : stdin_ended (a ++ b) = stdin_ended a || stdin_ended b.
Proof. apply existsb_app. Qed.

Lemma stdin_chunks_app a b : stdin_chunks (a ++ b) = stdin_chunks a ++ stdin_chunks b.
Proof. apply omap_app. Qed.

Lemma history_quiet events e :
  stdin_chunk e = None ->
  is_stdin_end e = false ->
  stdin_ended (events ++ [e]) = stdin_ended events /\
  stdin_chunks (events ++ [e]) = stdin_chunks events /\
  lines_read (events ++ [e]) = lines_read events.
Proof.
  intros H1 H2.
  assert (E1 : stdin_ended (events ++ [e]) = stdin_ended events).
  { rewrite stdin_ended_app. cbn [stdin_ended existsb]. rewrite H2.
    rewrite !orb_false_r. reflexivity. }
  assert (E2 : stdin_chunks (events ++ [e]) = stdin_chunks events).
  { rewrite stdin_chunks_app.
    change (stdin_chunks [e]) with (match stdin_chunk e with
                                    | Some c => [c]
                                    | None => []
                                    end).
    rewrite H1. apply app_nil_r. }
  unfold lines_read. rewrite E1, E2. auto.
Qed.

(** The requests sent so far are those of the lines read so far, stdin is
    closed when it has ended, and until then the buffer is what framing the
    chunks leaves. *)
Lemma step_requests_read events s out e s' o :
  stdinClosed s = stdin_ended events ->
  (stdin_ended events = false -> buffer s = final_buffer [] (stdin_chunks events)) ->
  omap request_body out = omap forwarded (lines_read events) ->
  step s e = Some (s', o) ->
  stdinClosed s' = stdin_ended (events ++ [e]) /\
  (stdin_ended (events ++ [e]) = false ->
   buffer s' = final_buffer [] (stdin_chunks (events ++ [e]))) /\
  omap request_body (out ++ o) = omap forwarded (lines_read (events ++ [e])).
Proof.
  intros Hc Hb Ho E. apply step_cases in E as [_ E].
  assert (Hquiet : forall s1,
            stdin_chunk e = None -> is_stdin_end e = false ->
            stdinClosed s1 = stdinClosed s -> buffer s1 = buffer s ->
            omap request_body o = [] ->
            stdinClosed s1 = stdin_ended (events ++ [e]) /\
            (stdin_ended (events ++ [e]) = false ->
             buffer s1 = final_buffer [] (stdin_chunks (events ++ [e]))) /\
            omap request_body (out ++ o) = omap forwarded (lines_read (events ++ [e]))).
  { intros s1 E4 E5 E1 E2 E3.
    destruct (history_quiet events e E4 E5) as (-> & -> & ->).
    rewrite omap_app, E3, app_nil_r, E1, E2. auto. }
  destruct e as [chunk| |id headers|id chunk|id|id err|id|].
  - clear Hquiet. destruct E as (Hcl & popped & lines & P & F & D).
    rewrite Hcl in Hc. symmetry in Hc. specialize (Hb Hc).
    unfold lines_read in *. rewrite stdin_ended_app, stdin_chunks_app, Hc in *.
    cbn [stdin_ended existsb is_stdin_end orb].
    change (stdin_chunks [StdinData chunk]) with [chunk].
    destruct (framer_feed_snoc (stdin_chunks events) [] chunk) as [-> ->].
    cbn [buffer set_buffer] in P. rewrite <- Hb, P. cbn [fst snd].
    split; [rewrite (d_closed _ _ _ D); exact Hcl|].
    split; [intros _; rewrite (d_buffer _ _ _ D); reflexivity|].
    rewrite !omap_app, <- Ho. f_equal.
    eapply for_of_processLine_bodies; [|exact F]. exact Hcl.
  - clear Hquiet. destruct E as (Hcl & s1 & o1 & F & D & -> & ->).
    rewrite Hcl in Hc. symmetry in Hc. specialize (Hb Hc).
    unfold lines_read in *. rewrite stdin_ended_app, stdin_chunks_app, Hc in *.
    cbn [stdin_ended existsb is_stdin_end orb].
    change (stdin_chunks [StdinEnd]) with (@nil jsstring).
    rewrite app_nil_r, finish_stdinClosed.
    split; [reflexivity|]. split; [discriminate|].
    rewrite framer_run_feed, !omap_app, finish_no_request, app_nil_r, <- Ho, <- Hb.
    f_equal. eapply for_of_processLine_bodies; [|exact F]. exact Hcl.
  - destruct E as (c & _ & _ & -> & ->). apply Hquiet; try reflexivity;
      destruct (supplied_token headers); reflexivity.
  - destruct E as (-> & ct & body & [(_ & ->)|(_ & ->)]); apply Hquiet; reflexivity.
  - destruct E as (ct & body & [(_ & -> & ->)|(_ & -> & ->)]);
      [|apply Hquiet; reflexivity].
    apply Hquiet; try reflexivity.
    + rewrite finish_stdinClosed. reflexivity.
    + rewrite finish_buffer. reflexivity.
    + rewrite omap_app, finish_no_request, app_nil_r.
      unfold written. induction (List.filter JSON.truthy _); [reflexivity | assumption].
  - destruct E as [(c & _ & _ & -> & ->)|(_ & -> & ->)];
      [|apply Hquiet; reflexivity].
    apply Hquiet; try reflexivity.
    + rewrite finish_stdinClosed. reflexivity.
    + rewrite finish_buffer. reflexivity.
    + cbn [app omap request_body]. apply finish_no_request.
  - destruct E as (_ & -> & ->). apply Hquiet; reflexivity.
  - destruct E as (_ & _ & -> & ->). apply Hquiet; reflexivity.
Qed.

Lemma run_requests_from events : forall past s0 out0 s out,
  stdinClosed s0 = stdin_ended past ->
  (stdin_ended past = false -> buffer s0 = final_buffer [] (stdin_chunks past)) ->
  omap request_body out0 = omap forwarded (lines_read past) ->
  run s0 events = Some (s, out) ->
  stdinClosed s = stdin_ended (past ++ events) /\
  (stdin_ended (past ++ events) = false ->
   buffer s = final_buffer [] (stdin_chunks (past ++ events))) /\
  omap request_body (out0 ++ out) = omap forwarded (lines_read (past ++ events)).
Proof.
  induction events as [|e events IH]; intros past s0 out0 s out Hc Hb Ho;
    cbn [Bridge.run].
  - intros [= <- <-]. rewrite !app_nil_r. auto.
  - destruct (step s0 e) as [[s1 o1]|] eqn:E1; [|discriminate].
    destruct (run s1 events) as [[s2 o2]|] eqn:E2; [|discriminate].
    intros [= <- <-].
    destruct (step_requests_read past s0 out0 e s1 o1 Hc Hb Ho E1) as (Hc1 & Hb1 & Ho1).
    replace (past ++ e :: events) with ((past ++ [e]) ++ events)
      by (rewrite <- app_assoc; reflexivity).
    rewrite app_assoc. exact (IH _ _ _ _ _ Hc1 Hb1 Ho1 E2).
Qed.

Lemma run_snoc_inv events : forall s0 e s' out',
  run s0 (events ++ [e]) = Some (s', out') ->
  exists s out o,
    run s0 events = Some (s, out) /\ step s e = Some (s', o) /\ out' = out ++ o.
Proof.
  induction events as [|e0 events IH]; intros s0 e s' out'; cbn [app Bridge.run].
  - destruct (step s0 e) as [[s1 o1]|] eqn:E; [|discriminate].
    intros [= <- <-]. exists s0, [], o1. rewrite app_nil_r. auto.
  - destruct (step s0 e0) as [[s1 o1]|]; [|discriminate].
    destruct (run s1 (events ++ [e])) as [[s2 o2]|] eqn:E2; [|discriminate].
    intros [= <- <-]. destruct (IH _ _ _ _ E2) as (s & out & o & E & Es & ->).
    exists s, (o1 ++ out), o. rewrite E, app_assoc. auto.
Qed.

(** The effects of a callback: none of them an exit, except possibly the
    last one, which is then the exit with status 0. *)
Lemma step_exit_tail s e s' o :
  step s e = Some (s', o) ->
  exists o1, (forall c, ~ In (Exit c) o1) /\ (o = o1 \/ o = o1 ++ [Exit 0%Z]).
Proof.
  intros E. apply step_cases in E as [_ E].
  assert (Hf : forall s0, snd (finish s0) = [] \/ snd (finish s0) = [Exit 0%Z]).
  { intros s0. unfold finish. destruct (_ && _); auto. }
  destruct e as [chunk| |id headers|id chunk|id|id err|id|].
  - destruct E as (_ & popped & lines & _ & _ & D). exists o. split; [|auto].
    intros c. exact (dispatches_no_exit _ _ _ c D).
  - destruct E as (_ & s1 & o1 & _ & D & _ & ->). exists o1.
    split; [intros c; exact (dispatches_no_exit _ _ _ c D)|].
    destruct (Hf (set_stdinClosed true s1)) as [-> | ->]; [left; apply app_nil_r | auto].
  - destruct E as (c & _ & _ & -> & _). exists []. split; [intros c' []|auto].
  - destruct E as (-> & _). exists []. split; [intros c []|auto].
  - destruct E as (ct & body & [(_ & _ & ->)|(_ & _ & ->)]).
    + eexists. split; [intros c; apply written_no_exit|].
      destruct (Hf (with_call id Ended (decremented s))) as [-> | ->];
        [left; apply app_nil_r | auto].
    + exists []. split; [intros c []|auto].
  - destruct E as [(c & _ & _ & _ & ->)|(_ & _ & ->)].
    + eexists.
      split; [|destruct (Hf (with_call id (rejected c) (decremented s))) as [-> | ->];
               [left; apply app_nil_r | right; reflexivity]].
      intros c' [H|[]]. discriminate.
    + exists []. split; [intros c []|auto].
  - destruct E as (_ & _ & ->). exists []. split; [intros c []|auto].
  - destruct E as (_ & _ & _ & ->). exists []. split; [intros c []|].
    right. reflexivity.
Qed.

Lemma exit_is_last (l pre post : list Effect) (c : Z) :
  (forall c', ~ In (Exit c') l) ->
  l ++ [Exit 0%Z] = pre ++ Exit c :: post ->
  pre = l /\ c = 0%Z /\ post = [].
Proof.
  revert pre. induction l as [|x l IH]; intros pre Hl; cbn [app].
  - destruct pre as [|y pre]; cbn [app].
    + intros [= <- <-]. auto.
    + intros [= _ H]. destruct pre; discriminate.
  - destruct pre as [|y pre]; cbn [app].
    + intros [= -> _]. destruct (Hl c). left. reflexivity.
    + intros [= <- H]. destruct (IH pre) as (-> & -> & ->); auto.
      intros c' Hin. apply (Hl c'). right. exact Hin.
Qed.

(** *** Blank input *)

Lemma for_of_blank lines s :
  Forall (fun l => is_blank l = true) lines ->
  for_of lines processLine s = (Some tt, s, []).
Proof.
  intros F. induction F as [|l lines Hl _ IH]; cbn [for_of]; [reflexivity|].
  unfold bind. rewrite (processLine_blank _ _ _ _ Hl), IH. reflexivity.
Qed.

Lemma is_blank_app a b : is_blank (a ++ b) = is_blank a && is_blank b.
Proof. apply forallb_app. Qed.

Lemma is_blank_unlines lines :
  is_blank (unlines lines) = true -> Forall (fun l => is_blank l = true) lines.
Proof.
  induction lines as [|l lines IH]; cbn [unlines flat_map]; [constructor|].
  fold (unlines lines). rewrite !is_blank_app. intros H.
  apply andb_prop in H as [H1 H2]. apply andb_prop in H1 as [H1 _].
  constructor; auto.
Qed.

(** *** [split] and [parseSSE] on a text in two parts *)

Lemma split_app_sep sep a b :
  split sep (a ++ sep :: b) = split sep a ++ split sep b.
Proof.
  induction a as [|c r IH]; cbn [app split].
  - rewrite N.eqb_refl. reflexivity.
  - rewrite IH. destruct (c =? sep); [reflexivity|].
    pose proof (split_not_nil sep r) as Hne.
    destruct (split sep r) as [|seg segs]; [congruence | reflexivity].
Qed.

Lemma sse_events_app a b :
  sse_events JSON_parse (a ++ LF :: b) =
  sse_events JSON_parse a ++ sse_events JSON_parse b.
Proof. unfold sse_events. rewrite split_app_sep. apply flat_map_app. Qed.

(** *** The diagnostics of a run *)







End BridgeHistory.

(* ===================================================================== *)
(** ** Further properties of the bridge *)
(* ===================================================================== *)

Section BridgeProperties.

Import JS JSON Bridge Spec Invariants History.

Variable JSON_parse : jsstring -> completion json.
Variable JSON_stringify : json -> jsstring.

#[local] Abbreviation parseSSE := (Bridge.parseSSE JSON_parse).
#[local] Abbreviation processLine := (Bridge.processLine JSON_parse JSON_stringify).
#[local] Abbreviation step := (Bridge.step JSON_parse JSON_stringify).
#[local] Abbreviation run := (Bridge.run JSON_parse JSON_stringify).
#[local] Abbreviation forwarded := (History.forwarded JSON_parse JSON_stringify).
#[local] Abbreviation stdout_of := (History.stdout_of JSON_parse JSON_stringify).

(** X1.  What a run writes on stdout is determined by its events: for every
    response that ends and whose request has not failed before, in the
    order in which the responses end, the lines of the truthy events decoded
    from the content type of that response and the concatenation, in order
    of arrival, of the chunks of its body, however the callbacks of the
    calls in flight interleave.  A response that ends after the ['error']
    listener of its request has run is dropped, whatever its body: the
    promise is rejected by then.  Nothing else is ever written on stdout. *)
Theorem X1_stdout_is_the_decoded_responses events s out :
  run init events = Some (s, out) ->
  List.filter is_stdout out = stdout_of [] events.
Proof.
  intros H.
  exact (run_stdout_from JSON_parse JSON_stringify events [] init [] s out
           (Inv_init) Closures_init H).
Qed.

(** X2.  The requests a run has sent are, in order, those of the lines read
    from stdin: one request per line that is not blank and parses, its body
    the serialized value of the line, and none for the other lines.  The
    lines read are the newline-terminated lines of the concatenated chunks
    and, once stdin has ended, the rest after the last newline unless it is
    blank; until then that rest is the buffer. *)
Theorem X2_requests_follow_the_input events s out :
  run init events = Some (s, out) ->
  omap request_body out = omap forwarded (lines_read events) /\
  stdinClosed s = stdin_ended events /\
  exists lines rest,
    concat (stdin_chunks events) = unlines lines ++ rest /\
    Forall (fun l => no_newline l = true) lines /\
    no_newline rest = true /\
    lines_read events =
      lines ++ (if stdin_ended events && negb (is_blank rest) then [rest] else []) /\
    (stdin_ended events = false -> buffer s = rest).
Proof.
  intros H.
  destruct (run_requests_from JSON_parse JSON_stringify events [] init [] s out
              eq_refl (fun _ => eq_refl) eq_refl H) as (Hc & Hb & Ho).
  cbn [app] in *. split; [exact Ho|]. split; [exact Hc|].
  destruct (pop_split_frames (concat (stdin_chunks events)))
    as (lines & rest & P & E & F & R).
  exists lines, rest. split; [exact E|]. split; [exact F|]. split; [exact R|].
  pose proof (framer_run_concat (stdin_chunks events) [] lines rest eq_refl P) as Hrun.
  pose proof (final_buffer_concat (stdin_chunks events) [] lines rest eq_refl P) as Hfin.
  rewrite framer_run_feed, Hfin, framer_run_nil in Hrun.
  apply app_inv_tail in Hrun.
  split.
  - unfold lines_read. destruct (stdin_ended events); cbn [andb].
    + rewrite framer_run_feed, Hfin, framer_run_nil, Hrun, trim_truthy. reflexivity.
    + rewrite Hrun, app_nil_r. reflexivity.
  - intros He. rewrite (Hb He). exact Hfin.
Qed.

(** X3.  The exit is the last effect of a run: if a run exits, it does so
    once, with status 0, and nothing is written or sent after it. *)
Theorem X3_nothing_after_the_exit events s out pre c post :
  run init events = Some (s, out) ->
  out = pre ++ Exit c :: post ->
  post = [] /\ c = 0%Z /\ (forall c', ~ In (Exit c') pre) /\ exitCode s = Some 0%Z.
Proof.
  intros H Hout.
  assert (Hin : In (Exit c) out) by (rewrite Hout; apply in_elt).
  pose proof (run_Inv _ _ _ _ _ H) as HI.
  apply (inv_exit_effect _ _ _ HI) in Hin as Hex.
  pose proof (inv_exited _ _ _ HI c Hex) as ->.
  destruct events as [|e events] using rev_ind.
  - injection H as <- <-. destruct pre; discriminate.
  - clear IHevents. apply run_snoc_inv in H as (s0 & out0 & o & H0 & E & ->).
    pose proof (run_Inv _ _ _ _ _ H0) as HI0.
    pose proof (step_cases JSON_parse JSON_stringify _ _ _ _ E) as [He0 _].
    assert (Hno : forall c', ~ In (Exit c') out0).
    { intros c' Hc'. apply (inv_exit_effect _ _ _ HI0) in Hc'. congruence. }
    destruct (step_exit_tail JSON_parse JSON_stringify _ _ _ _ E) as (o1 & Ho1 & [-> | ->]).
    + exfalso. assert (Hin' : In (Exit 0%Z) (out0 ++ o1)) by (rewrite Hout; apply in_elt).
      apply in_app_iff in Hin' as [Hin'|Hin']; [exact (Hno _ Hin') | exact (Ho1 _ Hin')].
    + rewrite app_assoc in Hout.
      apply exit_is_last in Hout as (-> & _ & ->).
      * repeat split; try assumption.
        intros c' Hc'. apply in_app_iff in Hc' as [Hc'|Hc'];
          [exact (Hno _ Hc') | exact (Ho1 _ Hc')].
      * intros c' Hc'. apply in_app_iff in Hc' as [Hc'|Hc'];
          [exact (Hno _ Hc') | exact (Ho1 _ Hc')].
Qed.

(** X4.  Input that is white space only, however it is cut into chunks (no
    input at all included), sends no request and writes nothing: when stdin
    ends the process exits at once with status 0. *)
Theorem X4_blank_input_exits_at_once chunks :
  is_blank (concat chunks) = true ->
  exists s,
    run init (map StdinData chunks ++ [StdinEnd]) = Some (s, [Exit 0%Z]) /\
    exitCode s = Some 0%Z /\ pendingRequests s = 0%Z /\ calls s = ∅.
Proof.
  intros B. rewrite run_stdin by reflexivity. cbn [buffer init].
  destruct (pop_split_frames (concat chunks)) as (lines & rest & P & E & F & R).
  rewrite (framer_run_concat chunks [] lines rest eq_refl P).
  rewrite E, is_blank_app in B. apply andb_prop in B as [Bl Br].
  rewrite trim_truthy, Br. cbn [negb]. rewrite app_nil_r.
  unfold exec, bind. rewrite for_of_blank by (apply is_blank_unlines, Bl).
  unfold modify. rewrite checkExit_eq. cbn. eexists. repeat split.
Qed.

(** X5.  [parseSSE] works line by line: the events of two texts joined by a
    newline are the events of the first followed by those of the second, so
    a newline at the end of a body adds nothing, and it never throws. *)
Theorem X5_parseSSE_composes a b :
  exists events_a events_b,
    parseSSE a = Normal events_a /\
    parseSSE b = Normal events_b /\
    parseSSE (a ++ LF :: b) = Normal (events_a ++ events_b) /\
    parseSSE (a ++ [LF]) = Normal events_a.
Proof.
  exists (sse_events JSON_parse a), (sse_events JSON_parse b).
  rewrite !parseSSE_events, !sse_events_app.
  repeat split. cbn. rewrite app_nil_r. reflexivity.
Qed.


End BridgeProperties.

(* ===================================================================== *)
(** ** The wallet file *)
(* ===================================================================== *)

Section WalletFacts.
Import JS JSON Wallet.

Variable JSON_parse : jsstring -> Bridge.completion json.
Variable JSON_stringify4 : json -> jsstring.
Variable this : WalletJson.

#[local] Abbreviation saveWallet := (Wallet.saveWallet JSON_stringify4 this).
#[local] Abbreviation loadWallet := (Wallet.loadWallet JSON_parse this).
#[local] Abbreviation update := (Wallet.update JSON_parse JSON_stringify4 this).
#[local] Abbreviation step := (Wallet.step JSON_parse JSON_stringify4 this).
#[local] Abbreviation run := (Wallet.run JSON_parse JSON_stringify4 this).
#[local] Abbreviation in_turn := (Wallet.in_turn JSON_parse JSON_stringify4 this).
#[local] Abbreviation remaining := (Wallet.remaining JSON_parse JSON_stringify4 this).
#[local] Abbreviation complete := (Wallet.complete JSON_parse JSON_stringify4 this).
#[local] Abbreviation after_load := (Wallet.after_load JSON_stringify4 this).
#[local] Abbreviation after_mutator := (Wallet.after_mutator JSON_stringify4 this).
#[local] Abbreviation Serial := (Wallet.Serial JSON_parse JSON_stringify4 this).

Lemma writeFileSync_Ok p content f f' :
  writeFileSync p content f = Ok f' ->
  p <> [] /\ f' = <[p := File content]> f /\ stat f (removelast p) = Some Dir /\
  f !! p <> Some Dir.
Proof.
  unfold writeFileSync. destruct p as [|a p].
  - cbn. discriminate.
  - cbn [stat]. destruct (f !! (a :: p)) as [[c|]|] eqn:E; try discriminate;
      destruct (stat f (removelast (a :: p))) as [[c'|]|]; try discriminate;
      intros [= <-]; repeat split; congruence.
Qed.

Lemma loadWallet_files f r f' : loadWallet f = (r, f') -> f' = f.
Proof.
  unfold Wallet.loadWallet.
  destruct (negb _); [congruence|].
  destruct (readFileSync _ _); [|congruence].
  destruct (JSON_parse _); congruence.
Qed.

Lemma loadWallet_file f content :
  walletName this <> [] ->
  f !! walletName this = Some (File content) ->
  loadWallet f =
    (match JSON_parse content with
     | Bridge.Normal wallet => Ok wallet
     | Bridge.Throw e => Raise (Thrown e)
     end, f).
Proof.
  intros N E. unfold Wallet.loadWallet, existsSync, readFileSync, stat.
  destruct (walletName this) as [|a p]; [congruence|].
  rewrite E. cbn. destruct (JSON_parse content); reflexivity.
Qed.

Lemma saveWallet_true wallet overwrite f f' :
  saveWallet wallet overwrite f = (Ok true, f') ->
  walletName this <> [] /\
  f' !! walletName this = Some (File (JSON_stringify4 wallet)).
Proof.
  unfold Wallet.saveWallet.
  destruct (existsSync (walletName this) f && negb overwrite); [discriminate|].
  destruct (if negb _ then _ else _) as [f1|]; [|discriminate].
  destruct (writeFileSync _ _ f1) as [f2|] eqn:W; [|discriminate].
  intros [= <-]. apply writeFileSync_Ok in W as (N & -> & _).
  split; [exact N|]. apply lookup_insert_eq.
Qed.

Lemma update_eq m f :
  update m f = let '(r, f1) := loadWallet f in after_load m r f1.
Proof.
  unfold Wallet.update, Wallet.after_load, Wallet.after_mutator, Wallet.after_save.
  destruct (loadWallet f) as [[w|e] f1]; [|reflexivity].
  destruct (JSON.truthy w); [|reflexivity].
  destruct (m w); [|reflexivity].
  destruct (Wallet.saveWallet _ _ _ _ _) as [[b|e] f2]; reflexivity.
Qed.

Lemma mkdir_from_ok segments : forall base f,
  (forall q c, q `prefix_of` base ++ segments -> f !! q <> Some (File c)) ->
  exists f',
    mkdir_from base segments f = Ok f' /\
    (segments <> [] -> f' !! (base ++ segments) = Some Dir) /\
    (forall p n, f !! p = Some n -> f' !! p = Some n) /\
    (forall p, ~ p `prefix_of` base ++ segments -> f' !! p = f !! p).
Proof.
  induction segments as [|segment rest IH]; intros base f H.
  - exists f. cbn. split; [reflexivity|]. split; [congruence|]. split; auto.
  - cbn [mkdir_from].
    assert (P : (base ++ [segment]) `prefix_of` base ++ segment :: rest).
    { exists rest. rewrite <- app_assoc. reflexivity. }
    assert (A : (base ++ [segment]) ++ rest = base ++ segment :: rest).
    { rewrite <- app_assoc. reflexivity. }
    destruct (f !! (base ++ [segment])) as [[c|]|] eqn:E.
    + exfalso. exact (H _ c P E).
    + destruct (IH (base ++ [segment]) f) as (f' & M & D & K & O).
      { intros q c. rewrite A. apply H. }
      exists f'. split; [exact M|]. split; [|split].
      * intros _. destruct rest as [|s rest'].
        -- cbn in M. injection M as <-. exact E.
        -- rewrite <- A. apply D. discriminate.
      * exact K.
      * intros p. rewrite <- A. apply O.
    + destruct (IH (base ++ [segment]) (<[base ++ [segment] := Dir]> f))
        as (f' & M & D & K & O).
      { intros q c Q. rewrite A in Q.
        destruct (decide (q = base ++ [segment])) as [->|N].
        - rewrite lookup_insert_eq. discriminate.
        - rewrite lookup_insert_ne by congruence. apply H, Q. }
      exists f'. split; [exact M|]. split; [|split].
      * intros _. destruct rest as [|s rest'].
        -- cbn in M. injection M as <-. apply lookup_insert_eq.
        -- rewrite <- A. apply D. discriminate.
      * intros p n F. apply K.
        destruct (decide (p = base ++ [segment])) as [->|N]; [congruence|].
        rewrite lookup_insert_ne by congruence. exact F.
      * intros p N. rewrite <- A in N. rewrite (O p N).
        apply lookup_insert_ne. intros <-. apply N. rewrite A. exact P.
Qed.

Lemma stat_lookup (f : gmap path node) p : p <> [] -> stat f p = f !! p.
Proof. destruct p; [congruence|reflexivity]. Qed.

Lemma removelast_snoc (p : path) name : removelast (p ++ [name]) = p.
Proof. apply removelast_last. Qed.

(** *** The lock *)

Lemma complete_app ts ts' f :
  complete (ts ++ ts') f =
    let '(rs, f1) := complete ts f in
    let '(rs', f2) := complete ts' f1 in
    (rs ++ rs', f2).
Proof.
  revert f. induction ts as [|t ts IH]; intros f; cbn.
  - destruct (complete ts' f); reflexivity.
  - destruct (remaining t f) as [r f1]. rewrite IH.
    destruct (complete ts f1) as [rs f2]. destruct (complete ts' f2). reflexivity.
Qed.

Lemma in_turn_app ms ms' f :
  in_turn (ms ++ ms') f =
    let '(rs, f1) := in_turn ms f in
    let '(rs', f2) := in_turn ms' f1 in
    (rs ++ rs', f2).
Proof.
  revert f. induction ms as [|m ms IH]; intros f; cbn.
  - destruct (in_turn ms' f); reflexivity.
  - destruct (update m f) as [r f1]. rewrite IH.
    destruct (in_turn ms f1) as [rs f2]. destruct (in_turn ms' f2). reflexivity.
Qed.

Lemma complete_done ts f :
  Forall (fun t => exists r, at_phase t = Done r) ts ->
  complete ts f = (omap result_of ts, f).
Proof.
  induction 1 as [|t ts [r E] _ IH]; [reflexivity|].
  cbn. unfold Wallet.remaining, result_of. rewrite E, IH. reflexivity.
Qed.

Lemma is_resolved_In p st : is_resolved p st = true <-> In p (resolved st).
Proof.
  unfold is_resolved. rewrite existsb_exists. split.
  - intros (x & I & E). apply Nat.eqb_eq in E. subst. exact I.
  - intros I. exists p. split; [exact I|apply Nat.eqb_refl].
Qed.

(** Only the first call that is not done can be resumed. *)
Lemma Shape_resume st i st' :
  Shape st -> step st (Resume i) = Some st' ->
  exists done t waiting,
    tasks st = done ++ t :: waiting /\ i = length done /\
    Forall (fun t => exists r, at_phase t = Done r) done /\
    (forall r, at_phase t <> Done r) /\
    Forall (fun t => at_phase t = Waiting) waiting /\
    (forall p, In p (resolved st) <-> (p <= length done)%nat) /\
    mine t = S i /\ release t = i.
Proof.
  intros (done & rest & T & D & R & Res & Num & _) Hs.
  cbn [Wallet.step] in Hs.
  destruct (tasks st !! i) as [t|] eqn:L; [|discriminate].
  destruct (Num _ _ L) as [Mi Re].
  rewrite T in L.
  destruct (decide (i < length done)%nat) as [Lt|Ge].
  { rewrite lookup_app_l in L by exact Lt.
    rewrite Forall_forall in D.
    destruct (D t) as [r E]; [eapply list_elem_of_lookup_2, L|].
    rewrite E in Hs. discriminate. }
  rewrite lookup_app_r in L by lia.
  destruct rest as [|t0 waiting]; [discriminate|].
  destruct R as [N Wt].
  destruct (i - length done)%nat as [|j] eqn:J.
  - injection L as <-. exists done, t0, waiting.
    assert (i = length done) by lia. repeat split; try assumption; apply Res.
  - exfalso. cbn in L. rewrite Forall_forall in Wt.
    assert (E : at_phase t = Waiting).
    { apply Wt. eapply list_elem_of_lookup_2, L. }
    rewrite E, Re in Hs.
    destruct (is_resolved i st) eqn:I; [|discriminate].
    apply is_resolved_In, Res in I. lia.
Qed.

Lemma insert_middle (done : list Task) t t' waiting :
  <[length done := t']> (done ++ t :: waiting) = done ++ t' :: waiting.
Proof.
  rewrite insert_app_r_alt by lia. rewrite Nat.sub_diag. reflexivity.
Qed.

Lemma numbering_insert (ts : list Task) i t p :
  ts !! i = Some t ->
  (forall j u, ts !! j = Some u -> mine u = S j /\ release u = j) ->
  forall j u, <[i := set_phase t p]> ts !! j = Some u ->
    mine u = S j /\ release u = j.
Proof.
  intros L Num j u. destruct (decide (i = j)) as [<-|N].
  - rewrite list_lookup_insert_eq by (eapply lookup_lt_Some, L).
    intros [= <-]. cbn. apply Num, L.
  - rewrite list_lookup_insert_ne by exact N. apply Num.
Qed.

Lemma step_Shape st e st' : Shape st -> step st e = Some st' -> Shape st'.
Proof.
  intros Sh Hs. destruct e as [m|i].
  - destruct Sh as (done & rest & T & D & R & Res & Num & NP & Lk).
    cbn in Hs. injection Hs as <-.
    exists done, (rest ++ [{| release := _lock st; mine := nextPromise st;
                              mutator := m; at_phase := Waiting |}]).
    cbn. rewrite T, <- app_assoc. split; [reflexivity|]. split; [exact D|].
    split; [|split; [exact Res|split; [|split]]].
    + destruct rest as [|t0 waiting]; cbn.
      * split; [discriminate|constructor].
      * destruct R as [N W]. split; [exact N|].
        apply Forall_app. split; [exact W|]. repeat constructor.
    + intros i t L. rewrite app_assoc, <- T in L.
      destruct (decide (i < length (tasks st))%nat) as [Lt|Ge].
      * rewrite lookup_app_l in L by exact Lt. apply Num, L.
      * rewrite lookup_app_r in L by lia.
        destruct (i - length (tasks st))%nat as [|j] eqn:J; [|discriminate].
        injection L as <-. cbn. rewrite NP, Lk. lia.
    + rewrite app_assoc, <- T, length_app, NP. cbn. lia.
    + rewrite app_assoc, <- T, length_app, NP. cbn. lia.
  - destruct (Shape_resume _ _ _ Sh Hs)
      as (done & t & waiting & T & -> & D & N & W & Res & Mi & Re).
    destruct Sh as (_ & _ & _ & _ & _ & _ & Num & NP & Lk).
    assert (L : tasks st !! length done = Some t).
    { rewrite T, lookup_app_r, Nat.sub_diag by lia. reflexivity. }
    assert (Su : forall p f, (forall r, p <> Done r) ->
              Shape (suspend (length done) t p f st)).
    { intros p f Np. exists done, (set_phase t p :: waiting). cbn.
      rewrite T, insert_middle. split; [reflexivity|]. split; [exact D|].
      split; [split; [exact Np|exact W]|]. split; [exact Res|].
      rewrite <- (insert_middle done t), <- T.
      split; [apply numbering_insert; assumption|].
      rewrite length_insert. split; assumption. }
    assert (Fi : forall r f, Shape (finish (length done) t r f st)).
    { intros r f. exists (done ++ [set_phase t (Done r)]), waiting. cbn.
      rewrite T, insert_middle, <- app_assoc. split; [reflexivity|].
      split; [apply Forall_app; split; [exact D|repeat constructor; cbn; eauto]|].
      split.
      { destruct waiting as [|w ws]; [exact I|].
        inversion W as [|? ? Ew Ws]; subst. split; [congruence|exact Ws]. }
      split.
      { intros p. rewrite length_app. cbn. rewrite Res, Mi. lia. }
      change (done ++ [set_phase t (Done r)] ++ waiting)
        with (done ++ set_phase t (Done r) :: waiting).
      rewrite <- (insert_middle done t), <- T.
      split; [apply numbering_insert; assumption|].
      rewrite length_insert. split; assumption. }
    cbn [Wallet.step] in Hs. rewrite L in Hs.
    destruct (at_phase t) as [|[w|e]|w|[b|e]|r] eqn:P.
    + destruct (is_resolved (release t) st); [|discriminate].
      destruct (Wallet.loadWallet _ _ _) as [r f]. injection Hs as <-.
      apply Su. discriminate.
    + destruct (JSON.truthy w); injection Hs as <-; [apply Su; discriminate|apply Fi].
    + injection Hs as <-. apply Fi.
    + destruct (mutator t w) as [w'|e].
      * destruct (Wallet.saveWallet _ _ _ _ _) as [r f]. injection Hs as <-.
        apply Su. discriminate.
      * injection Hs as <-. apply Fi.
    + injection Hs as <-. apply Fi.
    + injection Hs as <-. apply Fi.
    + discriminate.
Qed.

Lemma complete_replace done t t' waiting f f' :
  Forall (fun t => exists r, at_phase t = Done r) done ->
  mutator t' = mutator t ->
  remaining t' f' = remaining t f ->
  complete (done ++ t' :: waiting) f' = complete (done ++ t :: waiting) f /\
  map mutator (done ++ t' :: waiting) = map mutator (done ++ t :: waiting).
Proof.
  intros D M R. split.
  - rewrite !complete_app, !(complete_done _ _ D). cbn. rewrite R. reflexivity.
  - rewrite !map_app. cbn. rewrite M. reflexivity.
Qed.

Lemma step_Serial f0 st e st' :
  Shape st -> Serial f0 st -> step st e = Some st' -> Serial f0 st'.
Proof.
  unfold Serial. intros Sh J Hs. destruct e as [m|i].
  - cbn in Hs. injection Hs as <-. cbn.
    rewrite complete_app, map_app, in_turn_app, J.
    destruct (in_turn (map mutator (tasks st)) f0) as [rs f1]. cbn.
    unfold Wallet.remaining. cbn. destruct (update m f1); reflexivity.
  - destruct (Shape_resume _ _ _ Sh Hs)
      as (done & t & waiting & T & -> & D & N & W & Res & Mi & Re).
    assert (L : tasks st !! length done = Some t).
    { rewrite T, lookup_app_r, Nat.sub_diag by lia. reflexivity. }
    assert (K : forall p f,
              remaining (set_phase t p) f = remaining t (files st) ->
              complete (<[length done := set_phase t p]> (tasks st)) f =
              in_turn (map mutator (<[length done := set_phase t p]> (tasks st))) f0).
    { intros p f R. rewrite T, insert_middle.
      destruct (complete_replace done t (set_phase t p) waiting (files st) f D
                  eq_refl R) as [-> ->].
      rewrite <- T. exact J. }
    cbn [Wallet.step] in Hs. rewrite L in Hs.
    unfold Wallet.remaining in K. cbn [at_phase set_phase mutator] in K.
    destruct (at_phase t) as [|[w|e]|w|[b|e]|r] eqn:P.
    + destruct (is_resolved (release t) st); [|discriminate].
      destruct (Wallet.loadWallet _ _ _) as [r f] eqn:Ld. injection Hs as <-.
      cbn. apply K. rewrite update_eq, Ld. reflexivity.
    + destruct (JSON.truthy w) eqn:Tr; injection Hs as <-; cbn; apply K;
        unfold Wallet.after_load; rewrite Tr; reflexivity.
    + injection Hs as <-. cbn. apply K. reflexivity.
    + destruct (mutator t w) as [w'|e] eqn:Mu.
      * destruct (Wallet.saveWallet _ _ _ _ _) as [r f] eqn:Sv. injection Hs as <-.
        cbn. apply K. unfold Wallet.after_mutator. rewrite Mu, Sv. reflexivity.
      * injection Hs as <-. cbn. apply K. unfold Wallet.after_mutator.
        rewrite Mu. reflexivity.
    + injection Hs as <-. cbn. apply K. reflexivity.
    + injection Hs as <-. cbn. apply K. reflexivity.
    + discriminate.
Qed.

Lemma Shape_start f : Shape (start f).
Proof.
  exists [], []. cbn. split; [reflexivity|]. split; [constructor|].
  split; [exact I|]. split; [intros p; lia|].
  split; [discriminate|]. split; reflexivity.
Qed.

Lemma run_Shape_Serial f0 events : forall st st',
  Shape st -> Serial f0 st -> run st events = Some st' ->
  Shape st' /\ Serial f0 st'.
Proof.
  induction events as [|e events IH]; intros st st' Sh J R; cbn in R.
  - injection R as <-. split; assumption.
  - destruct (Wallet.step _ _ _ st e) as [st1|] eqn:Hs; [|discriminate].
    apply (IH st1); [eapply step_Shape|eapply step_Serial|]; eassumption.
Qed.

Lemma step_called st e st' :
  step st e = Some st' ->
  map mutator (tasks st') = map mutator (tasks st) ++ called [e].
Proof.
  destruct e as [m|i]; cbn [Wallet.step].
  - intros [= <-]. cbn. rewrite map_app. reflexivity.
  - destruct (tasks st !! i) as [t|] eqn:L; [|discriminate].
    assert (K : forall p, map mutator (<[i := set_phase t p]> (tasks st)) =
                          map mutator (tasks st) ++ called [Resume i]).
    { intros p. cbn. rewrite app_nil_r.
      change (map mutator (<[i:=set_phase t p]> (tasks st)))
        with (mutator <$> <[i:=set_phase t p]> (tasks st)).
      rewrite list_fmap_insert. cbn [mutator set_phase].
      apply list_insert_id. rewrite list_lookup_fmap, L. reflexivity. }
    destruct (at_phase t) as [|[w|e]|w|[b|e]|r].
    + destruct (is_resolved _ _); [|discriminate].
      destruct (Wallet.loadWallet _ _ _). intros [= <-]. apply K.
    + destruct (JSON.truthy w); intros [= <-]; apply K.
    + intros [= <-]. apply K.
    + destruct (mutator t w).
      * destruct (Wallet.saveWallet _ _ _ _ _). intros [= <-]. apply K.
      * intros [= <-]. apply K.
    + intros [= <-]. apply K.
    + intros [= <-]. apply K.
    + discriminate.
Qed.

Lemma called_app a b : called (a ++ b) = called a ++ called b.
Proof. unfold called. apply omap_app. Qed.

Lemma run_called events : forall st st',
  run st events = Some st' ->
  map mutator (tasks st') = map mutator (tasks st) ++ called events.
Proof.
  induction events as [|e events IH]; intros st st' R; cbn in R.
  - injection R as <-. cbn. rewrite app_nil_r. reflexivity.
  - destruct (Wallet.step _ _ _ st e) as [st1|] eqn:Hs; [|discriminate].
    rewrite (IH _ _ R), (step_called _ _ _ Hs), <- app_assoc, <- called_app.
    reflexivity.
Qed.

Lemma reachable f events st :
  run (start f) events = Some st ->
  Shape st /\ Serial f st /\ map mutator (tasks st) = called events.
Proof.
  intros R.
  destruct (run_Shape_Serial f events (start f) st (Shape_start f) eq_refl R)
    as [Sh J].
  split; [exact Sh|]. split; [exact J|]. apply (run_called _ _ _ R).
Qed.

Lemma omap_result_waiting ts :
  Forall (fun t => at_phase t = Waiting) ts -> omap result_of ts = [].
Proof.
  induction 1 as [|t ts E _ IH]; [reflexivity|].
  cbn. unfold result_of at 1. rewrite E. exact IH.
Qed.

Lemma omap_result_done ts :
  Forall (fun t => exists r, at_phase t = Done r) ts ->
  length (omap result_of ts) = length ts.
Proof.
  induction 1 as [|t ts [r E] _ IH]; [reflexivity|].
  cbn. unfold result_of at 1. rewrite E. cbn. rewrite IH. reflexivity.
Qed.

End WalletFacts.

Section WalletProperties.
Import JS JSON Wallet.

Variable JSON_parse : jsstring -> Bridge.completion json.
Variable JSON_stringify4 : json -> jsstring.
Variable this : WalletJson.

#[local] Abbreviation saveWallet := (Wallet.saveWallet JSON_stringify4 this).
#[local] Abbreviation loadWallet := (Wallet.loadWallet JSON_parse this).
#[local] Abbreviation update := (Wallet.update JSON_parse JSON_stringify4 this).
#[local] Abbreviation step := (Wallet.step JSON_parse JSON_stringify4 this).
#[local] Abbreviation run := (Wallet.run JSON_parse JSON_stringify4 this).
#[local] Abbreviation in_turn := (Wallet.in_turn JSON_parse JSON_stringify4 this).

(** X7.  What [saveWallet] has written is what [loadWallet] reads: after a
    save that returned [true], the wallet loaded is [JSON.parse] of the
    wallet's [JSON.stringify] text -- the wallet itself, when that round trip
    gives it back -- and a later save without [overwrite] returns [false]
    and leaves the file system as it is. *)
Theorem X7_saved_wallet_is_loaded wallet overwrite f f1 :
  saveWallet wallet overwrite f = (Ok true, f1) ->
  loadWallet f1 =
    (match JSON_parse (JSON_stringify4 wallet) with
     | Bridge.Normal w => Ok w
     | Bridge.Throw e => Raise (Thrown e)
     end, f1) /\
  (JSON_parse (JSON_stringify4 wallet) = Bridge.Normal wallet ->
   loadWallet f1 = (Ok wallet, f1)) /\
  forall other, saveWallet other false f1 = (Ok false, f1).
Proof.
  intros Sv. destruct (saveWallet_true _ _ _ _ _ _ Sv) as [N E].
  pose proof (loadWallet_file JSON_parse this f1 _ N E) as Ld.
  split; [exact Ld|]. split.
  - intros RT. rewrite Ld, RT. reflexivity.
  - intros other. unfold Wallet.saveWallet, existsSync.
    rewrite (stat_lookup _ _ N), E. reflexivity.
Qed.

(** X8.  [saveWallet] creates the data folder when it is missing.  For a
    wallet file directly in the data folder: if no file is in the way of
    the folder, the wallet path is not a directory, and [overwrite] is set
    or no wallet file exists, then the save returns [true] and does not
    throw; afterwards the folder exists, the file holds the wallet's text,
    every other path that existed still holds what it held, and nothing
    was created but the file and the folders on the way to it. *)
Theorem X8_save_creates_the_folder name wallet overwrite f :
  walletName this = join (dataFolder this) [name] ->
  (forall q c, q `prefix_of` dataFolder this -> f !! q <> Some (File c)) ->
  f !! walletName this <> Some Dir ->
  overwrite = true \/ f !! walletName this = None ->
  exists f',
    saveWallet wallet overwrite f = (Ok true, f') /\
    f' !! walletName this = Some (File (JSON_stringify4 wallet)) /\
    stat f' (dataFolder this) = Some Dir /\
    (forall p, p <> walletName this -> ~ p `prefix_of` dataFolder this ->
       f' !! p = f !! p) /\
    (forall p n, p <> walletName this -> f !! p = Some n -> f' !! p = Some n).
Proof.
  intros W H ND O. unfold join in W.
  assert (NE : walletName this <> []).
  { rewrite W. destruct (dataFolder this); discriminate. }
  assert (NP : ~ walletName this `prefix_of` dataFolder this).
  { rewrite W. intros [k E]. apply (f_equal (@length _)) in E.
    rewrite !length_app in E. cbn in E. lia. }
  assert (DW : dataFolder this <> walletName this).
  { intros E. apply NP. rewrite <- E. reflexivity. }
  unfold Wallet.saveWallet.
  replace (existsSync (walletName this) f && negb overwrite) with false; cycle 1.
  { destruct O as [->|O]; [rewrite andb_false_r; reflexivity|].
    unfold existsSync. rewrite (stat_lookup _ _ NE), O. reflexivity. }
  assert (M : exists f1,
    (if negb (existsSync (dataFolder this) f) then mkdirSync (dataFolder this) f
     else Ok f) = Ok f1 /\
    stat f1 (dataFolder this) = Some Dir /\
    (forall p n, f !! p = Some n -> f1 !! p = Some n) /\
    (forall p, ~ p `prefix_of` dataFolder this -> f1 !! p = f !! p)).
  { unfold existsSync. destruct (stat f (dataFolder this)) as [n|] eqn:S; cbn [negb].
    - exists f. split; [reflexivity|]. split; [|split; auto].
      destruct (dataFolder this) as [|a p] eqn:D; [reflexivity|].
      cbn in S |- *. destruct n as [c|]; [|exact S].
      exfalso. apply (H (a :: p) c); [reflexivity|exact S].
    - assert (DN : dataFolder this <> []) by (intros E; rewrite E in S; discriminate).
      destruct (mkdir_from_ok (dataFolder this) [] f) as (f1 & M & D & K & F).
      { exact H. }
      exists f1. split; [exact M|]. rewrite (stat_lookup _ _ DN).
      split; [apply (D DN)|]. split; [exact K|exact F]. }
  destruct M as (f1 & -> & D & K & F).
  unfold writeFileSync. rewrite (stat_lookup _ _ NE), (F _ NP).
  replace (removelast (walletName this)) with (dataFolder this)
    by (rewrite W, removelast_snoc; reflexivity).
  rewrite D.
  exists (<[walletName this := File (JSON_stringify4 wallet)]> f1).
  split.
  { destruct (f !! walletName this) as [[c|]|]; try reflexivity. congruence. }
  split; [apply lookup_insert_eq|]. split; [|split].
  - destruct (dataFolder this) as [|a p] eqn:E; [reflexivity|].
    cbn [stat] in D |- *. rewrite lookup_insert_ne by congruence. exact D.
  - intros p N1 N2. rewrite lookup_insert_ne by congruence. apply F, N2.
  - intros p n N1 E. rewrite lookup_insert_ne by congruence. apply K, E.
Qed.

(** X9.  One update, run without interruption.  Without a wallet file the
    mutator is not used and nothing is written.  With a wallet file in an
    existing data folder that parses to a truthy wallet, the file is
    replaced by the text of the mutated wallet when the mutator returns,
    and is left as it is, the error passed on, when the mutator throws. *)
Theorem X9_update_replaces_the_wallet name m f :
  walletName this = join (dataFolder this) [name] ->
  (f !! walletName this = None -> update m f = (Ok tt, f)) /\
  (forall content wallet,
     stat f (dataFolder this) = Some Dir ->
     f !! walletName this = Some (File content) ->
     JSON_parse content = Bridge.Normal wallet ->
     JSON.truthy wallet = true ->
     update m f =
       match m wallet with
       | Ok wallet' =>
           (Ok tt, <[walletName this := File (JSON_stringify4 wallet')]> f)
       | Raise e => (Raise e, f)
       end).
Proof.
  intros W. unfold join in W.
  assert (NE : walletName this <> []).
  { rewrite W. destruct (dataFolder this); discriminate. }
  split.
  - intros E. unfold Wallet.update, Wallet.loadWallet, existsSync.
    rewrite (stat_lookup _ _ NE), E. reflexivity.
  - intros content wallet D E P T. unfold Wallet.update.
    rewrite (loadWallet_file JSON_parse this f _ NE E), P, T.
    destruct (m wallet) as [wallet'|e]; [|reflexivity].
    unfold Wallet.saveWallet, existsSync, writeFileSync.
    replace (removelast (walletName this)) with (dataFolder this)
      by (rewrite W, removelast_snoc; reflexivity).
    rewrite (stat_lookup f _ NE), E, D. cbn [andb negb].
    rewrite (stat_lookup f _ NE), E, D. reflexivity.
Qed.

(** X10.  Updates take effect one after the other, in the order of the
    calls of [updateWallet], however the calls are interleaved at their
    [await]s: the results of the calls that are done are the first results
    of the same calls made in turn, each run to its end before the next,
    and once all calls are done the file system is the one the calls made
    in turn leave. *)
Theorem X10_updates_are_serialized f events st :
  run (start f) events = Some st ->
  length (tasks st) = length (called events) /\
  omap result_of (tasks st) `prefix_of` (in_turn (called events) f).1 /\
  (Forall (fun t => exists r, at_phase t = Done r) (tasks st) ->
   (omap result_of (tasks st), files st) = in_turn (called events) f).
Proof.
  intros R. destruct (reachable _ _ _ _ _ _ R) as (Sh & J & C).
  unfold Serial in J. rewrite C in J.
  split; [rewrite <- C, length_map; reflexivity|].
  split.
  - destruct Sh as (done & rest & T & D & Rs & _).
    rewrite T, complete_app, (complete_done _ _ _ _ _ D) in J.
    destruct (Wallet.complete _ _ _ rest (files st)) as [rs f2].
    rewrite <- J, T, omap_app. cbn.
    replace (omap result_of rest) with (@nil (outcome unit)).
    { rewrite app_nil_r. exists rs. reflexivity. }
    destruct rest as [|t waiting]; [reflexivity|]. destruct Rs as [N W].
    cbn. unfold result_of at 1.
    destruct (at_phase t) eqn:E; try (symmetry; apply omap_result_waiting, W).
    exfalso. exact (N _ eq_refl).
  - intros D. rewrite <- J. symmetry. apply complete_done, D.
Qed.

(** X11.  The lock excludes: at any moment at most one call of
    [updateWallet] is inside its [try] block (between its load and the end
    of its save); the calls made before it are done and the calls made
    after it have not loaded yet. *)
Theorem X11_one_call_inside_at_a_time f events st i t :
  run (start f) events = Some st ->
  tasks st !! i = Some t ->
  inside t = true ->
  forall j u, tasks st !! j = Some u ->
    ((j < i)%nat -> exists r, at_phase u = Done r) /\
    ((i < j)%nat -> at_phase u = Waiting) /\
    (inside u = true -> j = i).
Proof.
  intros R Li In j u Lj.
  destruct (reachable _ _ _ _ _ _ R) as ((done & rest & T & D & Rs & _) & _).
  rewrite Forall_forall in D.
  assert (Hd : forall k v, done !! k = Some v -> inside v = false).
  { intros k v L. destruct (D v) as [r E]; [eapply list_elem_of_lookup_2, L|].
    unfold inside. rewrite E. reflexivity. }
  rewrite T in Li, Lj.
  destruct (decide (i < length done)%nat) as [Lt|Ge].
  { rewrite lookup_app_l in Li by exact Lt. rewrite (Hd _ _ Li) in In.
    discriminate. }
  rewrite lookup_app_r in Li by lia.
  destruct rest as [|t0 waiting]; [discriminate|]. destruct Rs as [N W].
  rewrite Forall_forall in W.
  assert (Hw : forall k v, waiting !! k = Some v -> at_phase v = Waiting).
  { intros k v L. apply W. eapply list_elem_of_lookup_2, L. }
  destruct (i - length done)%nat as [|k] eqn:Ei.
  2:{ cbn in Li. apply Hw in Li. unfold inside in In. rewrite Li in In.
      discriminate. }
  assert (i = length done) by lia. subst i.
  destruct (decide (j < length done)%nat) as [Ltj|Gej].
  - rewrite lookup_app_l in Lj by exact Ltj.
    split; [intros _; apply D; eapply list_elem_of_lookup_2, Lj|].
    split; [lia|]. rewrite (Hd _ _ Lj). discriminate.
  - rewrite lookup_app_r in Lj by lia.
    destruct (j - length done)%nat as [|k] eqn:Ej.
    + split; [lia|]. split; lia.
    + cbn in Lj. apply Hw in Lj. split; [lia|]. split; [intros _; exact Lj|].
      unfold inside. rewrite Lj. discriminate.
Qed.

(** X12.  The lock is always released, also when the load, the mutator or
    the save throws: as long as some call of [updateWallet] is not done, a
    call can be resumed -- the first one that is not done, and only that
    one. *)
Theorem X12_some_call_can_always_proceed f events st :
  run (start f) events = Some st ->
  Exists (fun t => result_of t = None) (tasks st) ->
  exists i t,
    tasks st !! i = Some t /\ result_of t = None /\
    (forall j u, (j < i)%nat -> tasks st !! j = Some u -> result_of u <> None) /\
    (exists st', step st (Resume i) = Some st') /\
    (forall j, j <> i -> step st (Resume j) = None).
Proof.
  intros R Ex.
  destruct (reachable _ _ _ _ _ _ R) as (Sh & _).
  pose proof Sh as (done & rest & T & D & Rs & Res & Num & _).
  assert (Hd : forall k v, done !! k = Some v -> exists r, at_phase v = Done r).
  { rewrite Forall_forall in D. intros k v L. apply D.
    eapply list_elem_of_lookup_2, L. }
  destruct rest as [|t waiting].
  { exfalso. rewrite app_nil_r in T. rewrite T in Ex.
    apply Exists_exists in Ex as (t & I & E).
    apply list_elem_of_lookup in I as [k L].
    destruct (Hd _ _ L) as [r P]. unfold result_of in E. rewrite P in E.
    discriminate. }
  destruct Rs as [N W].
  assert (L : tasks st !! length done = Some t).
  { rewrite T, lookup_app_r, Nat.sub_diag by lia. reflexivity. }
  exists (length done), t. split; [exact L|]. split.
  { unfold result_of. destruct (at_phase t) eqn:P; try reflexivity.
    exfalso. exact (N _ eq_refl). }
  split.
  { intros j u Lt Lj. rewrite T, lookup_app_l in Lj by exact Lt.
    destruct (Hd _ _ Lj) as [r P]. unfold result_of. rewrite P. discriminate. }
  split.
  - cbn [Wallet.step]. rewrite L.
    destruct (Num _ _ L) as [_ Re].
    destruct (at_phase t) as [|[w|e]|w|[b|e]|r] eqn:P.
    + replace (is_resolved (release t) st) with true.
      * destruct (Wallet.loadWallet _ _ _). eauto.
      * symmetry. apply is_resolved_In, Res. lia.
    + destruct (JSON.truthy w); eauto.
    + eauto.
    + destruct (mutator t w); [|eauto].
      destruct (Wallet.saveWallet _ _ _ _ _). eauto.
    + eauto.
    + eauto.
    + exfalso. exact (N _ eq_refl).
  - intros j Nj. destruct (step st (Resume j)) as [st'|] eqn:Hs; [|reflexivity].
    destruct (Shape_resume _ _ _ _ _ _ Sh Hs)
      as (done' & t' & waiting' & T' & -> & D' & N' & _).
    exfalso. apply Nj.
    destruct (decide (length done' < length done)%nat) as [Lt|Ge].
    { assert (L' : done !! length done' = Some t').
      { rewrite <- (lookup_app_l done (t :: waiting)) by exact Lt.
        rewrite <- T, T', lookup_app_r, Nat.sub_diag by lia. reflexivity. }
      destruct (Hd _ _ L') as [r P]. exfalso. exact (N' _ P). }
    destruct (decide (length done < length done')%nat) as [Lt'|Ge']; [|lia].
    assert (L' : done' !! length done = Some t).
    { rewrite <- (lookup_app_l done' (t' :: waiting')) by exact Lt'.
      rewrite <- T'. exact L. }
    rewrite Forall_forall in D'.
    destruct (D' t) as [r P]; [eapply list_elem_of_lookup_2, L'|].
    exfalso. exact (N _ P).
Qed.

End WalletProperties.

(* ===================================================================== *)
(** ** The tool handler *)
(* ===================================================================== *)

Section ToolFacts.
Import JS JSON Tools.

Variable Keymaster : Type.
Variable invoke : Method -> list value -> Keymaster -> completion value * Keymaster.
Variable JSON_stringify2 : value -> option jsstring.
Variable Number_toString : bool -> N -> Z -> jsstring.
Variable cannot_read : value -> jsstring -> jsstring.
Variable not_a_function : jsstring -> jsstring.
Variable walletPath : jsstring.

#[local] Abbreviation M := (Tools.M Keymaster).
#[local] Abbreviation cases :=
  (Tools.cases Keymaster invoke JSON_stringify2 Number_toString cannot_read
     not_a_function walletPath).
#[local] Abbreviation handleToolCall :=
  (Tools.handleToolCall Keymaster invoke JSON_stringify2 Number_toString
     cannot_read not_a_function walletPath).

Lemma string_eqb_eq a b : string_eqb a b = true <-> a = b.
Proof.
  revert b. induction a as [|x a IH]; intros [|y b]; cbn; try (split; congruence).
  rewrite andb_true_iff, N.eqb_eq, IH. split; [intros [-> ->]|intros [= -> ->]]; auto.
Qed.

Lemma string_eqb_refl a : string_eqb a a = true.
Proof. apply string_eqb_eq. reflexivity. Qed.

Lemma switch_elim {A} (P : A -> Prop) name (cs : list (jsstring * A)) d :
  (forall body, In (name, body) cs -> P body) ->
  (~ In name (map fst cs) -> P d) ->
  P (switch name cs d).
Proof.
  induction cs as [|[label body] cs IH]; intros Hc Hd; cbn.
  - apply Hd. intros [].
  - destruct (string_eqb name label) eqn:E.
    + apply string_eqb_eq in E as <-. apply Hc. left. reflexivity.
    + apply IH.
      * intros b I. apply Hc. right. exact I.
      * intros N. apply Hd. intros [<-|I]; [|exact (N I)].
        cbn in E. rewrite string_eqb_refl in E. discriminate.
Qed.

Lemma switch_default {A} name (cs : list (jsstring * A)) d :
  ~ In name (map fst cs) -> switch name cs d = d.
Proof.
  intros N. apply (switch_elim (fun x => x = d)); [|reflexivity].
  intros body I. exfalso. apply N. apply (in_map fst) in I. exact I.
Qed.

Lemma switch_ext {A} name (cs cs' : list (jsstring * A)) d :
  Forall2 (fun c c' => fst c = fst c' /\ (name = fst c -> snd c = snd c')) cs cs' ->
  switch name cs d = switch name cs' d.
Proof.
  induction 1 as [|[l b] [l' b'] cs cs' [E H] _ IH]; [reflexivity|].
  cbn in E, H |- *. subst l'.
  destruct (string_eqb name l) eqn:T; [|exact IH].
  apply string_eqb_eq in T. exact (H T).
Qed.


(** *** Results that are not flagged *)

Lemma Plain_stringified v : Plain Keymaster (stringified Keymaster JSON_stringify2 v).
Proof. intros k r k' calls [= <- _ _]. left. eauto. Qed.

Lemma Plain_no_current : Plain Keymaster (ret Keymaster no_current_identity).
Proof. intros k r k' calls [= <- _ _]. right. reflexivity. Qed.

Lemma Plain_bind {A} (m : M A) f :
  (forall a, Plain Keymaster (f a)) -> Plain Keymaster (bind Keymaster m f).
Proof.
  intros H k r k' calls. unfold bind.
  destruct (m k) as [[[a|e] k1] calls1]; [|discriminate].
  destruct (f a k1) as [[r2 k2] calls2] eqn:F. intros [= -> _ _].
  exact (H a _ _ _ _ F).
Qed.

Lemma Plain_try_catch (m : M CallToolResult) h :
  Plain Keymaster m -> (forall e, Plain Keymaster (h e)) ->
  Plain Keymaster (try_catch Keymaster m h).
Proof.
  intros Hm Hh k r k' calls. unfold try_catch.
  destruct (m k) as [[[a|e] k1] calls1] eqn:E.
  - intros [= <- _ _]. exact (Hm _ _ _ _ E).
  - destruct (h e k1) as [[r2 k2] calls2] eqn:F. intros [= -> _ _].
    exact (Hh e _ _ _ _ F).
Qed.

Ltac plain :=
  repeat first
    [ apply Plain_stringified
    | apply Plain_no_current
    | apply Plain_bind; intros
    | apply Plain_try_catch; [|intros]
    | match goal with |- Plain _ (if ?b then _ else _) => destruct b end ].

Lemma cases_Plain args label body :
  In (label, body) (cases args) -> Plain Keymaster body.
Proof.
  unfold Tools.cases. cbn [In]. intros H.
  repeat (destruct H as [[= <- <-]|H]; [| ]); [..|destruct H].
  all: unfold wallet_status, create_wallet, create_id, list_ids, get_current_id,
         set_current_id, resolve_did, send_dmail, list_dmail, read_dmail,
         create_challenge, create_response, verify_response, list_credentials,
         get_credential, accept_credential; cbv zeta; plain.
Qed.

(** *** Failures of the keymaster *)

Lemma halts_nil : halts_at_failure [] = true.
Proof. reflexivity. Qed.











(** *** The credentials of a challenge *)

Lemma with_schema_kept elements kept :
  with_schema cannot_read elements = Returns kept ->
  (length kept <= length elements)%nat /\
  Forall (fun c => exists s, get cannot_read c (str "schema") = Returns s /\
                             truthy s = true) kept.
Proof.
  revert kept. induction elements as [|c rest IH]; intros kept; cbn [with_schema].
  - intros [= <-]. split; [reflexivity|constructor].
  - destruct (get cannot_read c (str "schema")) as [s|e] eqn:G; [|discriminate].
    destruct (with_schema cannot_read rest) as [kept'|e]; [|discriminate].
    destruct (IH _ eq_refl) as [L F].
    destruct (truthy s) eqn:T; intros [= <-]; cbn [length].
    + split; [lia|]. constructor; [eauto|exact F].
    + split; [lia|exact F].
Qed.

Lemma requirements_mapped kept :
  Forall (fun c => exists s, get cannot_read c (str "schema") = Returns s /\
                             truthy s = true) kept ->
  exists mapped,
    requirements cannot_read kept = Returns mapped /\
    length mapped = length kept /\
    Forall is_requirement mapped.
Proof.
  induction 1 as [|c rest (s & G & T) _ (mapped & R & L & F)]; cbn [requirements].
  - exists []. repeat split. constructor.
  - rewrite G.
    assert (I : exists i, get cannot_read c (str "issuers") = Returns i).
    { unfold get in G |- *. destruct c; try discriminate; eauto. }
    destruct I as [i ->]. rewrite R.
    eexists. split; [reflexivity|]. split; [cbn; lia|].
    constructor; [|exact F]. exists s, i. split; [reflexivity|exact T].
Qed.

Lemma lookup_define key v members :
  lookup key (define key v members) = v.
Proof.
  induction members as [|[k w] rest IH]; cbn.
  - rewrite string_eqb_refl. reflexivity.
  - destruct (string_eqb k key) eqn:E; cbn; rewrite E; [reflexivity|exact IH].
Qed.

Lemma lookup_define_other key key' v members :
  key' <> key -> lookup key' (define key v members) = lookup key' members.
Proof.
  intros N. induction members as [|[k w] rest IH]; cbn.
  - destruct (string_eqb key key') eqn:E; [|reflexivity].
    apply string_eqb_eq in E. congruence.
  - destruct (string_eqb k key) eqn:E; cbn.
    + apply string_eqb_eq in E. subst k.
      destruct (string_eqb key key') eqn:E'; [|reflexivity].
      apply string_eqb_eq in E'. congruence.
    + rewrite IH. reflexivity.
Qed.

Lemma define_keys key v members :
  map fst (define key v members) =
    if existsb (fun k => string_eqb k key) (map fst members)
    then map fst members else map fst members ++ [key].
Proof.
  induction members as [|[k w] rest IH]; cbn; [reflexivity|].
  destruct (string_eqb k key) eqn:E; cbn; [reflexivity|].
  rewrite IH. destruct (existsb _ _); reflexivity.
Qed.

(** *** What reaches the [catch] *)













Lemma handle_create_challenge args k :
  handleToolCall (str "create_challenge") args k =
    match create_challenge Keymaster invoke JSON_stringify2 cannot_read
            not_a_function args k with
    | (Returns result, k1, calls) => (result, k1, calls)
    | (Throws error, k1, calls) => (reported Number_toString error, k1, calls)
    end.
Proof. reflexivity. Qed.

Lemma handle_create_wallet args k :
  handleToolCall (str "create_wallet") args k =
    match create_wallet Keymaster invoke JSON_stringify2 walletPath k with
    | (Returns result, k1, calls) => (result, k1, calls)
    | (Throws error, k1, calls) => (reported Number_toString error, k1, calls)
    end.
Proof. reflexivity. Qed.

End ToolFacts.

Section ToolProperties.
Import JS JSON Tools.

Variable Keymaster : Type.
Variable invoke : Method -> list value -> Keymaster -> completion value * Keymaster.
Variable JSON_stringify2 : value -> option jsstring.
Variable Number_toString : bool -> N -> Z -> jsstring.
Variable cannot_read : value -> jsstring -> jsstring.
Variable not_a_function : jsstring -> jsstring.
Variable walletPath : jsstring.

#[local] Abbreviation cases :=
  (Tools.cases Keymaster invoke JSON_stringify2 Number_toString cannot_read
     not_a_function walletPath).
#[local] Abbreviation handleToolCall :=
  (Tools.handleToolCall Keymaster invoke JSON_stringify2 Number_toString
     cannot_read not_a_function walletPath).
#[local] Abbreviation reported := (Tools.reported Number_toString).

(** X13.  The tool table and the [switch] agree: a call is answered
    [Unknown tool: <name>], flagged as an error and without a call of the
    keymaster, when its name is not the name of a tool in the table, and
    it is never answered so when its name is in the table. *)
Theorem X13_unknown_tool_iff_not_advertised name args k :
  (~ In name (map Tools.name tools) ->
   handleToolCall name args k = (unknown_tool name, k, [])) /\
  (In name (map Tools.name tools) ->
   (handleToolCall name args k).1.1 <> unknown_tool name).
Proof.
  split; intros H; unfold Tools.handleToolCall.
  - rewrite switch_default by exact H. reflexivity.
  - apply switch_elim.
    + intros body I.
      pose proof (cases_Plain _ _ _ _ _ _ _ _ _ _ I) as P.
      destruct (body k) as [[[r|e] k1] calls] eqn:E; cbn.
      * destruct (P _ _ _ _ E) as [[t ->]| ->]; intros [= ?].
      * intros [= ?].
    + intros N. exfalso. exact (N H).
Qed.

(** X14.  A tool looks only at the arguments its input schema declares:
    two calls of a tool of the table whose arguments agree on the
    properties declared for it do the same -- the same calls of the
    keymaster, the same result. *)
Theorem X14_only_declared_arguments_are_read name tool args args' k :
  find_tool name = Some tool ->
  (forall p, In p (declared tool) -> lookup p args = lookup p args') ->
  handleToolCall name args k = handleToolCall name args' k.
Proof.
  intros F H. unfold Tools.handleToolCall.
  rewrite (switch_ext name (cases args) (cases args')); [reflexivity|].
  unfold Tools.cases.
  repeat (constructor; [split; [reflexivity|]; cbn [fst snd]; try reflexivity|]);
    try constructor.
  all: intros ->; vm_compute in F; injection F as <-.
  all: unfold create_id, set_current_id, resolve_did, send_dmail, read_dmail,
         create_challenge, create_response, verify_response, get_credential,
         accept_credential; cbv zeta.
  all: try rewrite (H (str "name")) by (vm_compute; tauto).
  all: try rewrite (H (str "did")) by (vm_compute; tauto).
  all: try rewrite (H (str "to")) by (vm_compute; tauto).
  all: try rewrite (H (str "subject")) by (vm_compute; tauto).
  all: try rewrite (H (str "body")) by (vm_compute; tauto).
  all: try rewrite (H (str "credentials")) by (vm_compute; tauto).
  all: try rewrite (H (str "callback")) by (vm_compute; tauto).
  all: try rewrite (H (str "challengeDid")) by (vm_compute; tauto).
  all: try rewrite (H (str "responseDid")) by (vm_compute; tauto).
  all: reflexivity.
Qed.


(** X16.  [create_challenge] asks only for credentials with a schema: it
    either fails before it calls the keymaster, or calls [createChallenge]
    once, with a challenge whose [credentials], when present, is a
    non-empty array of objects [{ schema, issuers }] with a truthy schema,
    and whose [callback] is the callback given when that is truthy and is
    absent otherwise; the challenge shown in the result is the one
    passed. *)
Theorem X16_challenge_credentials_have_a_schema args k result k' calls :
  handleToolCall (str "create_challenge") args k = (result, k', calls) ->
  (calls = [] /\ isError result = Some true) \/
  exists challenge r,
    calls = [{| method := createChallenge; arguments := [VObject challenge];
                reply := r |}] /\
    (lookup (str "credentials") challenge = VUndefined \/
     exists credentials,
       lookup (str "credentials") challenge = VArray credentials /\
       credentials <> [] /\ Forall is_requirement credentials) /\
    lookup (str "callback") challenge =
      (if truthy (lookup (str "callback") args)
       then lookup (str "callback") args else VUndefined) /\
    (forall challengeDid, r = Returns challengeDid ->
       result = text_result (JSON_stringify2
                  (VObject [(str "challengeDid", challengeDid);
                            (str "challenge", VObject challenge)]))).
Proof.
  rewrite handle_create_challenge. unfold create_challenge, bind, lift.
  set (raw := if truthy (lookup (str "credentials") args)
              then lookup (str "credentials") args else VArray []).
  set (callback := lookup (str "callback") args).
  destruct (filter_map cannot_read not_a_function raw) as [mapped|e] eqn:FM;
    [|intros [= <- _ <-]; left; split; reflexivity].
  assert (Q : Forall is_requirement mapped).
  { unfold filter_map in FM. destruct raw; try discriminate.
    destruct (with_schema cannot_read elements) as [kept|e] eqn:W; [|discriminate].
    destruct (with_schema_kept _ _ _ W) as [_ F].
    destruct (requirements_mapped _ _ F) as (mapped' & R & _ & G).
    congruence. }
  unfold call. destruct (invoke createChallenge _ k) as [r k1].
  set (challenge := _ ++ _).
  assert (C : lookup (str "credentials") challenge = VUndefined \/
              exists credentials,
                lookup (str "credentials") challenge = VArray credentials /\
                credentials <> [] /\ Forall is_requirement credentials).
  { subst challenge. destruct mapped as [|c mapped].
    - left. cbn [length Nat.ltb Nat.leb app]. destruct (truthy callback); reflexivity.
    - right. exists (c :: mapped). split; [reflexivity|]. split; [discriminate|exact Q]. }
  assert (B : lookup (str "callback") challenge =
              if truthy callback then callback else VUndefined).
  { subst challenge. destruct (0 <? length mapped)%nat, (truthy callback); reflexivity. }
  destruct r as [did|e]; intros [= <- _ <-]; right; exists challenge; eexists;
    (split; [reflexivity|]); (split; [exact C|]); (split; [exact B|]).
  - intros ? [= <-]. reflexivity.
  - discriminate.
Qed.

(** X17.  [create_wallet] does not show the seed: when the wallet is
    loaded, the [wallet] object of the result has the own properties of
    the loaded wallet, in their order and with their values, except that
    its [seed] is the text [[REDACTED]] -- in the place of the wallet's
    seed, or last when the wallet has none. *)
Theorem X17_wallet_seed_is_redacted args k wallet k1 :
  invoke loadWallet [] k = (Returns wallet, k1) ->
  exists members,
    handleToolCall (str "create_wallet") args k =
      (text_result (JSON_stringify2
         (VObject [(str "message", VString (str "Wallet ready"));
                   (str "walletPath", VString walletPath);
                   (str "wallet", VObject members)])),
       k1,
       [{| method := loadWallet; arguments := []; reply := Returns wallet |}]) /\
    lookup (str "seed") members = VString (str "[REDACTED]") /\
    (forall key, key <> str "seed" -> lookup key members = lookup key (spread wallet)) /\
    map fst members =
      if existsb (fun key => string_eqb key (str "seed")) (map fst (spread wallet))
      then map fst (spread wallet) else map fst (spread wallet) ++ [str "seed"].
Proof.
  intros L.
  exists (define (str "seed") (VString (str "[REDACTED]")) (spread wallet)).
  split; [|split; [apply lookup_define|split;
    [intros key N; apply lookup_define_other, N|apply define_keys]]].
  rewrite handle_create_wallet. unfold create_wallet, bind, call. rewrite L.
  reflexivity.
Qed.


End ToolProperties.

(* ===================================================================== *)
(** ** The further properties on sample runs *)
(* ===================================================================== *)

Section BridgeSamples.

Import JS JSON Bridge Spec History.

#[local] Abbreviation run := (Bridge.run Platform.JSON_parse Platform.JSON_stringify).

(** A request fails while its response is being received, and the
    response then ends with a body of JSON: nothing is on stdout. *)
Lemma X1_witness :
  exists s out,
    run init Sample.failed_then_ended = Some (s, out) /\
    List.filter is_stdout out =
      stdout_of Platform.JSON_parse Platform.JSON_stringify []
        Sample.failed_then_ended /\
    stdout_of Platform.JSON_parse Platform.JSON_stringify []
      Sample.failed_then_ended = [].
Proof.
  eexists _, _. split; [vm_compute; reflexivity|].
  split; [|reflexivity].
  exact (X1_stdout_is_the_decoded_responses Platform.JSON_parse
           Platform.JSON_stringify Sample.failed_then_ended _ _
           ltac:(vm_compute; reflexivity)).
Defined.

(** The requests sent are the lines read. *)
Lemma X2_witness :
  exists s out,
    run init Sample.two_requests_drained = Some (s, out) /\
    omap request_body out =
      omap (forwarded Platform.JSON_parse Platform.JSON_stringify)
        (lines_read Sample.two_requests_drained).
Proof.
  eexists _, _. split; [vm_compute; reflexivity|].
  exact (proj1 (X2_requests_follow_the_input Platform.JSON_parse
                  Platform.JSON_stringify Sample.two_requests_drained _ _
                  ltac:(vm_compute; reflexivity))).
Defined.

(** One request, its response, the end of stdin: the exit is the last
    effect. *)
Lemma X3_witness :
  exists s pre,
    run init Sample.one_request = Some (s, pre ++ [Exit 0%Z]) /\
    (forall c', ~ In (Exit c') pre) /\ exitCode s = Some 0%Z.
Proof.
  exists (match run init Sample.one_request with
          | Some (s, _) => s
          | None => init
          end),
         (match run init Sample.one_request with
          | Some (_, out) => removelast out
          | None => []
          end).
  split; [vm_compute; reflexivity|].
  exact (proj2 (proj2 (X3_nothing_after_the_exit Platform.JSON_parse
                         Platform.JSON_stringify Sample.one_request _ _
                         (match run init Sample.one_request with
                          | Some (_, out) => removelast out
                          | None => []
                          end) 0%Z []
                         ltac:(vm_compute; reflexivity) eq_refl))).
Defined.

(** Spaces and a newline, then the end of stdin. *)
Lemma X4_witness :
  exists s,
    run init (map StdinData [str "  "; [LF]] ++ [StdinEnd]) = Some (s, [Exit 0%Z]) /\
    exitCode s = Some 0%Z /\ pendingRequests s = 0%Z /\ calls s = ∅.
Proof.
  exact (X4_blank_input_exits_at_once Platform.JSON_parse Platform.JSON_stringify
           [str "  "; [LF]] ltac:(vm_compute; reflexivity)).
Defined.


End BridgeSamples.

Section WalletSamples.

Import JS JSON.

#[local] Abbreviation this := Wallet.Sample.this.
#[local] Abbreviation saveWallet := (Wallet.saveWallet Wallet.JSON_stringify4 this).
#[local] Abbreviation loadWallet := (Wallet.loadWallet Platform.JSON_parse this).
#[local] Abbreviation update :=
  (Wallet.update Platform.JSON_parse Wallet.JSON_stringify4 this).
#[local] Abbreviation step :=
  (Wallet.step Platform.JSON_parse Wallet.JSON_stringify4 this).
#[local] Abbreviation run :=
  (Wallet.run Platform.JSON_parse Wallet.JSON_stringify4 this).
#[local] Abbreviation in_turn :=
  (Wallet.in_turn Platform.JSON_parse Wallet.JSON_stringify4 this).

(** A wallet saved in an empty file system is the wallet loaded. *)
Lemma X7_witness :
  exists f1,
    saveWallet (Wallet.Sample.wallet 1) false Wallet.Sample.empty = (Wallet.Ok true, f1) /\
    loadWallet f1 = (Wallet.Ok (Wallet.Sample.wallet 1), f1).
Proof.
  eexists. split; [vm_compute; reflexivity|].
  exact (proj1 (proj2 (X7_saved_wallet_is_loaded Platform.JSON_parse
                         Wallet.JSON_stringify4 this (Wallet.Sample.wallet 1)
                         false Wallet.Sample.empty _ ltac:(vm_compute; reflexivity)))
           ltac:(vm_compute; reflexivity)).
Defined.

(** In an empty file system the save creates [data] and the file in it. *)
Lemma X8_witness :
  exists f',
    saveWallet (Wallet.Sample.wallet 1) false Wallet.Sample.empty = (Wallet.Ok true, f') /\
    f' !! Wallet.walletName this =
      Some (Wallet.File (Wallet.JSON_stringify4 (Wallet.Sample.wallet 1))) /\
    Wallet.stat f' (Wallet.dataFolder this) = Some Wallet.Dir.
Proof.
  destruct (X8_save_creates_the_folder Wallet.JSON_stringify4 this
              (str "wallet.json") (Wallet.Sample.wallet 1) false Wallet.Sample.empty
              ltac:(vm_compute; reflexivity)
              ltac:(intros q c _; vm_compute; discriminate)
              ltac:(vm_compute; discriminate)
              ltac:(right; vm_compute; reflexivity))
    as (f' & A & B & C & _).
  exists f'. split; [exact A|]. split; [exact B|exact C].
Defined.

(** The stored counter 1 is replaced by 2. *)
Lemma X9_witness :
  update (Wallet.Sample.set_counter 2) (Wallet.Sample.stored 1) =
    (Wallet.Ok tt,
     <[Wallet.walletName this :=
         Wallet.File (Wallet.JSON_stringify4 (Wallet.Sample.wallet 2))]>
       (Wallet.Sample.stored 1)).
Proof.
  exact (proj2 (X9_update_replaces_the_wallet Platform.JSON_parse
                  Wallet.JSON_stringify4 this (str "wallet.json")
                  (Wallet.Sample.set_counter 2) (Wallet.Sample.stored 1)
                  ltac:(vm_compute; reflexivity))
           (Wallet.JSON_stringify4 (Wallet.Sample.wallet 1))
           (Wallet.Sample.wallet 1)
           ltac:(vm_compute; reflexivity)
           ltac:(vm_compute; reflexivity)
           ltac:(vm_compute; reflexivity)
           ltac:(vm_compute; reflexivity)).
Defined.

(** Three interleaved calls, the second with a mutator that throws. *)
Lemma X10_witness :
  exists st,
    run (Wallet.start (Wallet.Sample.stored 1)) Wallet.Sample.two_updates = Some st /\
    (omap Wallet.result_of (Wallet.tasks st), Wallet.files st) =
      in_turn (Wallet.called Wallet.Sample.two_updates) (Wallet.Sample.stored 1).
Proof.
  eexists. split; [vm_compute; reflexivity|].
  exact (proj2 (proj2 (X10_updates_are_serialized Platform.JSON_parse
                         Wallet.JSON_stringify4 this (Wallet.Sample.stored 1)
                         Wallet.Sample.two_updates _
                         ltac:(vm_compute; reflexivity)))
           ltac:(repeat (constructor; [eexists; reflexivity|]); constructor)).
Defined.

(** The first call is inside, the second waits. *)
Lemma X11_witness :
  exists st t u,
    run (Wallet.start (Wallet.Sample.stored 1)) Wallet.Sample.one_inside = Some st /\
    Wallet.tasks st !! 0%nat = Some t /\ Wallet.inside t = true /\
    Wallet.tasks st !! 1%nat = Some u /\ Wallet.at_phase u = Wallet.Waiting.
Proof.
  eexists _, _, _. split; [vm_compute; reflexivity|].
  split; [reflexivity|]. split; [reflexivity|]. split; [reflexivity|].
  exact (proj1 (proj2 (X11_one_call_inside_at_a_time Platform.JSON_parse
                         Wallet.JSON_stringify4 this (Wallet.Sample.stored 1)
                         Wallet.Sample.one_inside _ 0%nat _
                         ltac:(vm_compute; reflexivity)
                         ltac:(reflexivity) ltac:(reflexivity)
                         1%nat _ ltac:(reflexivity)))
           ltac:(lia)).
Defined.

(** There, a call can be resumed. *)
Lemma X12_witness :
  exists st,
    run (Wallet.start (Wallet.Sample.stored 1)) Wallet.Sample.one_inside = Some st /\
    exists i t,
      Wallet.tasks st !! i = Some t /\ Wallet.result_of t = None /\
      (forall j u, (j < i)%nat -> Wallet.tasks st !! j = Some u ->
         Wallet.result_of u <> None) /\
      (exists st', step st (Wallet.Resume i) = Some st') /\
      (forall j, j <> i -> step st (Wallet.Resume j) = None).
Proof.
  eexists. split; [vm_compute; reflexivity|].
  exact (X12_some_call_can_always_proceed Platform.JSON_parse
           Wallet.JSON_stringify4 this (Wallet.Sample.stored 1)
           Wallet.Sample.one_inside _
           ltac:(vm_compute; reflexivity)
           ltac:(apply Exists_cons_hd; reflexivity)).
Defined.

End WalletSamples.

Section ToolSamples.

Import JS JSON Tools.

#[local] Abbreviation on_sample T :=
  (T Sample.Script Sample.replay JSON_stringify2 Sample.Number_toString
     Sample.cannot_read Sample.not_a_function Sample.walletPath).

(** [nope] is not a tool, [create_id] is. *)
Lemma X13_witness :
  Sample.handle (str "nope") [] [] = (unknown_tool (str "nope"), [], []) /\
  (Sample.handle (str "create_id") [] []).1.1 <> unknown_tool (str "create_id").
Proof.
  split.
  - exact (proj1 (on_sample X13_unknown_tool_iff_not_advertised (str "nope") [] [])
             ltac:(vm_compute; intuition discriminate)).
  - exact (proj2 (on_sample X13_unknown_tool_iff_not_advertised (str "create_id") [] [])
             ltac:(vm_compute; tauto)).
Defined.

(** [create_id] does not look at an argument [extra]. *)
Lemma X14_witness :
  Sample.handle (str "create_id")
    [(str "name", VString (str "a")); (str "extra", VBool true)]
    [Returns (VString (str "did:a"))] =
  Sample.handle (str "create_id") [(str "name", VString (str "a"))]
    [Returns (VString (str "did:a"))].
Proof.
  eapply (on_sample X14_only_declared_arguments_are_read (str "create_id")).
  - vm_compute. reflexivity.
  - intros p H. vm_compute in H. destruct H as [<-|[]]. reflexivity.
Defined.


(** Of three credentials, the one without a schema is left out. *)
Lemma X16_witness :
  exists result k' calls,
    Sample.handle (str "create_challenge") Sample.two_credentials
      [Returns (VString (str "did:challenge"))] = (result, k', calls) /\
    ((calls = [] /\ isError result = Some true) \/
     exists challenge r,
       calls = [{| method := createChallenge; arguments := [VObject challenge];
                   reply := r |}] /\
       (lookup (str "credentials") challenge = VUndefined \/
        exists credentials,
          lookup (str "credentials") challenge = VArray credentials /\
          credentials <> [] /\ Forall is_requirement credentials) /\
       lookup (str "callback") challenge =
         (if truthy (lookup (str "callback") Sample.two_credentials)
          then lookup (str "callback") Sample.two_credentials else VUndefined) /\
       (forall challengeDid, r = Returns challengeDid ->
          result = text_result (JSON_stringify2
                     (VObject [(str "challengeDid", challengeDid);
                               (str "challenge", VObject challenge)])))).
Proof.
  eexists _, _, _. split; [vm_compute; reflexivity|].
  exact (on_sample X16_challenge_credentials_have_a_schema Sample.two_credentials
           [Returns (VString (str "did:challenge"))] _ _ _
           ltac:(vm_compute; reflexivity)).
Defined.

(** The seed of the sample wallet is not shown. *)
Lemma X17_witness :
  exists members,
    Sample.handle (str "create_wallet") [] [Returns Sample.a_wallet] =
      (text_result (JSON_stringify2
         (VObject [(str "message", VString (str "Wallet ready"));
                   (str "walletPath", VString Sample.walletPath);
                   (str "wallet", VObject members)])),
       [],
       [{| method := loadWallet; arguments := []; reply := Returns Sample.a_wallet |}]) /\
    lookup (str "seed") members = VString (str "[REDACTED]") /\
    (forall key, key <> str "seed" ->
       lookup key members = lookup key (spread Sample.a_wallet)) /\
    map fst members =
      if existsb (fun key => string_eqb key (str "seed"))
           (map fst (spread Sample.a_wallet))
      then map fst (spread Sample.a_wallet)
      else map fst (spread Sample.a_wallet) ++ [str "seed"].
Proof.
  exact (on_sample X17_wallet_seed_is_redacted [] [Returns Sample.a_wallet]
           Sample.a_wallet [] ltac:(reflexivity)).
Defined.


End ToolSamples.
